(** * obsidian-openclaw: the gateway protocol core, embedded and verified

  A shallow embedding of the protocol/session core of the Obsidian OpenClaw
  plugin:
  - [DeviceIdentity]: device-identity.ts (identity validation, the signed
    auth payload);
  - [GatewayClient]: gateway-client.ts (routing of streamed chat events to
    the callbacks of a run);
  - [WsGatewayClient]: ws-gateway-client.ts (connection state machine, RPC
    correlation, reconnect backoff, keep-alive watchdog);
  - [DeviceIdentityKeys], [Plugin]: device-identity.ts and main.ts (base64url
    encoding, key generation, signing, the identity the plugin keeps);
  - [GatewayFacade], [ChatView]: gateway-client.ts and chat-view.ts (the
    conversation that is sent, session keys, listeners, abort).

  Strings are Rocq strings (8-bit characters), JavaScript numbers that hold
  millisecond counts are integers in [Z], [Map] objects are [gmap]s.
  Everything the platform supplies (the clock, random UUIDs, the WebSocket
  constructor, the settings getters, [atob], SHA-256, Ed25519) enters as an
  explicit input. *)

From Stdlib Require Import ZArith QArith DecimalString Ascii Strings.Byte.
From Stdlib Require DecimalPos DecimalZ.
From stdpp Require Import gmap strings list.

Open Scope Z_scope.
Open Scope string_scope.

(** ** String helpers shared by the three modules *)

Module Str.

(** [s.includes(needle)] *)
Fixpoint includes (needle s : string) : bool :=
  String.prefix needle s
  || match s with
     | EmptyString => false
     | String _ s' => includes needle s'
     end.

(** [String.prototype.repeat] *)
Fixpoint repeat (s : string) (n : nat) : string :=
  match n with
  | O => ""
  | S n' => s +:+ repeat s n'
  end.

Definition map (f : ascii → ascii) : string → string :=
  fix go s :=
    match s with
    | EmptyString => EmptyString
    | String c s' => String (f c) (go s')
    end.

Fixpoint all (p : ascii → bool) (s : string) : bool :=
  match s with
  | EmptyString => true
  | String c s' => p c && all p s'
  end.

(** [str.replace(/from/g, to)] for one-character patterns *)
Definition replaceAll (from to : ascii) : string → string :=
  map (λ c, if Ascii.eqb c from then to else c).

Definition lower_ascii (c : ascii) : ascii :=
  let n := nat_of_ascii c in
  if (65 <=? n)%nat && (n <=? 90)%nat then ascii_of_nat (n + 32) else c.

(** [toLowerCase] on the ASCII range *)
Definition toLowerCase : string → string := map lower_ascii.

(** [Number.isSafeInteger(n)], for an integral [n] *)
Definition isSafeInteger (n : Z) : bool := (Z.abs n <=? 2 ^ 53 - 1)%Z.

(** [String(n)] for a safe integer: below 2^53 in magnitude a number holds
    the integer exactly and JavaScript prints its decimal digits.  Above,
    [String] prints the digits of the nearest double (1152921504606847000
    for 2^60) or an exponent (1e+21), which this function does not. *)
Definition of_number (n : Z) : string := NilZero.string_of_int (Z.to_int n).

(** [s.slice(n)] *)
Fixpoint drop (n : nat) (s : string) : string :=
  match n, s with
  | O, _ => s
  | S n', String _ s' => drop n' s'
  | S _, EmptyString => EmptyString
  end.

(** [s.replace(/c+$/, "")]: strip the trailing run of the character [c] *)
Fixpoint stripTrailing (c : ascii) (s : string) : string :=
  match s with
  | EmptyString => EmptyString
  | String d s' =>
    match stripTrailing c s' with
    | EmptyString => if Ascii.eqb d c then EmptyString else String d EmptyString
    | rest => String d rest
    end
  end.

(** The white space and line terminators of JavaScript among the 8-bit
    characters: tab to carriage return, space and the no-break space
    U+00A0. *)
Definition is_space (c : ascii) : bool :=
  let n := nat_of_ascii c in
  ((9 <=? n)%nat && (n <=? 13)%nat) || (n =? 32)%nat || (n =? 160)%nat.

Fixpoint trimStart (s : string) : string :=
  match s with
  | String c s' => if is_space c then trimStart s' else s
  | EmptyString => EmptyString
  end.

Fixpoint trimEnd (s : string) : string :=
  match s with
  | EmptyString => EmptyString
  | String c s' =>
    match trimEnd s' with
    | EmptyString => if is_space c then EmptyString else String c EmptyString
    | rest => String c rest
    end
  end.

(** [s.trim()] *)
Definition trim (s : string) : string := trimEnd (trimStart s).

End Str.

(** ** device-identity.ts *)

Module DeviceIdentity.

(** *** Helpers *)

Definition hexDigit (n : N) : ascii :=
  match n with
  | 0%N => "0" | 1%N => "1" | 2%N => "2" | 3%N => "3"
  | 4%N => "4" | 5%N => "5" | 6%N => "6" | 7%N => "7"
  | 8%N => "8" | 9%N => "9" | 10%N => "a" | 11%N => "b"
  | 12%N => "c" | 13%N => "d" | 14%N => "e" | _ => "f"
  end%char.

(** [b.toString(16)] for a byte: one digit below 16, two otherwise *)
Definition toString16 (b : byte) : string :=
  let n := Byte.to_N b in
  if (n <? 16)%N then String (hexDigit n) ""
  else String (hexDigit (n / 16)) (String (hexDigit (n mod 16)) "").

(** [s.padStart(len, fill)] for a one-character [fill] *)
Definition padStart (len : nat) (fill : string) (s : string) : string :=
  Str.repeat fill (len - String.length s) +:+ s.

(** Hex encode bytes *)
Definition hexEncode (bytes : list byte) : string :=
  String.concat "" (map (λ b, padStart 2 "0" (toString16 b)) bytes).

(** The characters of a binary string as bytes ([charCodeAt] in a loop) *)
Fixpoint charCodes (binary : string) : list byte :=
  match binary with
  | EmptyString => []
  | String c rest => byte_of_ascii c :: charCodes rest
  end.

(** *** Device identity types *)

(** Serialized device identity (stored in plugin settings) *)
Record DeviceIdentityData := {
  version : Z;
  deviceId : string;
  publicKey : string;
  privateKey : string;
  createdAtMs : Z;
}.

(** Device auth token issued by gateway after successful pairing *)
Record DeviceAuthToken := {
  token : string;
  role : string;
  scopes : list string;
  updatedAtMs : Z;
}.

Inductive DevicePairingStatus := unpaired | pending | paired.

Section Platform.

(** [atob] of the browser: [None] when it throws on an input that is not
    base64. *)
Variable atob : string → option string.

(** [crypto.subtle.digest("SHA-256", data)] *)
Variable sha256 : list byte → list byte.

(** Base64url decode to bytes; [None] when [atob] throws. *)
Definition base64UrlDecode (str : string) : option (list byte) :=
  let padded :=
    Str.replaceAll "_" "/" (Str.replaceAll "-" "+" str)
    +:+ Str.repeat "=" ((4 - String.length str mod 4) mod 4) in
  binary ← atob padded;
  Some (charCodes binary).

(** SHA-256 hash via Web Crypto *)
Definition sha256Hex (data : list byte) : string := hexEncode (sha256 data).

Definition deviceIdMismatchWarning : string :=
  "[OpenClaw] Device ID mismatch — re-derived from public key".

(** Validate and optionally repair a stored identity.  The result is the
    promise's value together with the lines written by [console.warn];
    [None] is a rejected promise. *)
Definition validateDeviceIdentity (data : DeviceIdentityData)
  : option (DeviceIdentityData * list string) :=
  pubBytes ← base64UrlDecode (publicKey data);
  let derivedId := sha256Hex pubBytes in
  if negb (String.eqb derivedId (deviceId data)) then
    Some ({| version := version data;
             deviceId := derivedId;
             publicKey := publicKey data;
             privateKey := privateKey data;
             createdAtMs := createdAtMs data |},
          [deviceIdMismatchWarning])
  else Some (data, []).

End Platform.

(** *** Signing *)

Record AuthPayloadParams := {
  ap_deviceId : string;
  ap_clientId : string;
  ap_clientMode : string;
  ap_role : string;
  ap_scopes : list string;
  ap_signedAtMs : Z;
  ap_token : option string;
  ap_nonce : string;
}.

(** Build the device auth payload string that gets signed during WS connect.
    Format: v2|deviceId|clientId|clientMode|role|scopes|signedAtMs|token|nonce *)
Definition buildDeviceAuthPayload (params : AuthPayloadParams) : string :=
  let scopes := String.concat "," (ap_scopes params) in
  let token := default "" (ap_token params) in
  String.concat "|"
    [ "v2";
      ap_deviceId params;
      ap_clientId params;
      ap_clientMode params;
      ap_role params;
      scopes;
      Str.of_number (ap_signedAtMs params);
      token;
      ap_nonce params ].

Definition with_scopes (params : AuthPayloadParams) (ss : list string)
  : AuthPayloadParams :=
  {| ap_deviceId := ap_deviceId params;
     ap_clientId := ap_clientId params;
     ap_clientMode := ap_clientMode params;
     ap_role := ap_role params;
     ap_scopes := ss;
     ap_signedAtMs := ap_signedAtMs params;
     ap_token := ap_token params;
     ap_nonce := ap_nonce params |}.

(** *** Predicates used in the statements *)

Definition is_lower_hex (c : ascii) : bool :=
  Str.includes (String c "") "0123456789abcdef".

Definition comma_free (s : string) : bool :=
  Str.all (λ c, negb (Ascii.eqb c ",")) s.

End DeviceIdentity.

(** ** gateway-client.ts: routing of chat events *)

Module GatewayClient.

(** Chat event payload from the gateway *)
Inductive ChatState := delta | final | aborted | error.

Record ContentBlock := {
  type : string;
  text : option string;
}.

Record ChatMessage := {
  role : string;
  content : option (list ContentBlock);
  timestamp : Z;
}.

Record ChatEventPayload := {
  runId : string;
  sessionKey : string;
  seq : Z;
  state : ChatState;
  message : option ChatMessage;
  errorMessage : option string;
}.

(** The three callbacks handed to [sendMessageStreaming] belong to its
    caller; an invocation of one of them is recorded with the caller's
    identity. *)
Inductive Call :=
| onChunk (caller : nat) (text : string)
| onDone (caller : nat)
| onError (caller : nat) (err : string).

(** An entry of [chatEventListeners], as [sendMessageStreaming] builds it:
    the caller's [onChunk], and wrappers of its [onDone] and [onError] that
    first delete the entry of the captured [runId]. *)
Record Listener := {
  owner : nat;
  captured : string;
}.

(** A method of the class runs on [chatEventListeners] and yields the
    callback invocations it made, in order. *)
Definition Router : Type :=
  gmap string Listener → gmap string Listener * list Call.

Definition skip : Router := λ reg, (reg, []).

Definition andThen (r1 r2 : Router) : Router :=
  λ reg, let '(reg1, c1) := r1 reg in
         let '(reg2, c2) := r2 reg1 in
         (reg2, (c1 ++ c2)%list).

Definition listener_onChunk (l : Listener) (t : string) : Router :=
  λ reg, (reg, [onChunk (owner l) t]).

Definition listener_onDone (l : Listener) : Router :=
  λ reg, (delete (captured l) reg, [onDone (owner l)]).

Definition listener_onError (l : Listener) (err : string) : Router :=
  λ reg, (delete (captured l) reg, [onError (owner l) err]).

(** [this.chatEventListeners.set(runId, {...})] in [sendMessageStreaming] *)
Definition registerListener (run : string) (caller : nat)
  : gmap string Listener → gmap string Listener :=
  <[run := {| owner := caller; captured := run |}]>.

(** Truthiness of an optional string *)
Definition truthy (s : option string) : bool :=
  match s with
  | Some t => negb (String.eqb t "")
  | None => false
  end.

(** Extract text content from a gateway chat message. *)
Definition extractTextFromChatMessage (message : option ChatMessage)
  : option string :=
  match message with
  | None => None
  | Some m =>
    match content m with
    | None => None
    | Some blocks =>
      let parts :=
        map (λ c, default "" (text c))
            (List.filter (λ c, String.eqb (type c) "text" && truthy (text c))
                         blocks) in
      if (0 <? length parts)%nat then Some (String.concat "" parts) else None
    end
  end.

(** Handle incoming chat events from WebSocket *)
Definition handleChatEvent (event : ChatEventPayload) : Router :=
  λ reg,
  match reg !! runId event with
  | None => skip reg
  | Some listener =>
    match state event with
    | delta =>
      match extractTextFromChatMessage (message event) with
      | Some t => listener_onChunk listener t reg
      | None => skip reg
      end
    | final =>
      andThen
        (match extractTextFromChatMessage (message event) with
         | Some t => listener_onChunk listener t
         | None => skip
         end)
        (listener_onDone listener) reg
    | error =>
      listener_onError listener
        (default "Unknown gateway error" (errorMessage event)) reg
    | aborted => listener_onDone listener reg
    end
  end.

(** Events handled one after the other, as the socket delivers them. *)
Fixpoint handleChatEvents (events : list ChatEventPayload) : Router :=
  match events with
  | [] => skip
  | e :: rest => andThen (handleChatEvent e) (handleChatEvents rest)
  end.

(** *** Predicates used in the statements *)

(** Every entry was stored under the run id its wrappers captured. *)
Definition registered_by_send (reg : gmap string Listener) : Prop :=
  ∀ run l, reg !! run = Some l → captured l = run.

(** The text of the content blocks of type "text", in order. *)
Definition textBlocks (message : option ChatMessage) : list string :=
  match message with
  | Some m =>
    map (λ c, default "" (text c))
        (List.filter (λ c, String.eqb (type c) "text")
                     (default [] (content m)))
  | None => []
  end.

(** No content block has type "text" and a non-empty text. *)
Definition noText (message : option ChatMessage) : Prop :=
  ∀ m blocks c, message = Some m → content m = Some blocks → c ∈ blocks →
    type c = "text" → text c = None ∨ text c = Some "".

Definition chunkCalls (cs : list Call) : list Call :=
  List.filter (λ c, match c with onChunk _ _ => true | _ => false end) cs.

End GatewayClient.

(** ** ws-gateway-client.ts: the WebSocket client *)

Module WsGatewayClient.

(** Connection state *)
Inductive WsConnectionState :=
| disconnected
| connecting
| authenticating
| connected
| reconnecting
| pairing_required.

#[global] Instance WsConnectionState_eq_dec : EqDecision WsConnectionState.
Proof. solve_decision. Defined.

(** A parsed JSON document.  Numbers are integral. *)
#[local] Unset Elimination Schemes.
Inductive JSON :=
| JNull
| JBool (b : bool)
| JNum (n : Z)
| JStr (s : string)
| JArr (items : list JSON)
| JObj (fields : list (string * JSON)).
#[local] Set Elimination Schemes.

(** [obj.key]; [None] is [undefined]. *)
Definition prop (key : string) (obj : JSON) : option JSON :=
  match obj with
  | JObj fields => snd <$> List.find (λ kv, String.eqb (fst kv) key) fields
  | _ => None
  end.

(** [obj?.key] on a value that may be [undefined] *)
Definition oprop (key : string) (obj : option JSON) : option JSON :=
  match obj with
  | Some o => prop key o
  | None => None
  end.

Definition truthy (v : option JSON) : bool :=
  match v with
  | None | Some JNull => false
  | Some (JBool b) => b
  | Some (JNum n) => negb (n =? 0)%Z
  | Some (JStr s) => negb (String.eqb s "")
  | Some (JArr _) | Some (JObj _) => true
  end.

(** [a ?? b] *)
Definition nullish (v : option JSON) (d : JSON) : JSON :=
  match v with
  | None | Some JNull => d
  | Some x => x
  end.

(** Gateway request frame *)
Record GatewayRequest := {
  req_id : string;
  req_method : string;
  req_params : JSON;
}.

(** Who awaits the promise that [request] returned: a caller outside the
    class, or [sendConnect], whose continuation remembers whether a device
    identity was present. *)
Inductive Awaiter :=
| ExternalCaller
| SendConnect (hasIdentity : bool).

(** How a promise was settled. *)
Inductive Outcome :=
| Resolved (payload : option JSON)
| Rejected (message : string) (code : option string).

(** Pending RPC request: the promise's [resolve] and [reject] (named by the
    code awaiting them) and the timeout handle. *)
Record PendingRequest := {
  awaiter : Awaiter;
  timer : option nat;
}.

(** What an armed timer will run. *)
Inductive TimerCallback :=
| RpcTimeout (id method : string) (timeoutMs : Z) (aw : Awaiter)
| ConnectTimeout
| TickWatch
| Reconnect.

Record Timer := {
  callback : TimerCallback;
  delay : Z;
  repeating : bool;
}.

Inductive ReadyState := CONNECTING | OPEN | CLOSING | CLOSED.

#[global] Instance ReadyState_eq_dec : EqDecision ReadyState.
Proof. solve_decision. Defined.

(** A [sendConnect] suspended at [await signPayload(...)]. *)
Record SignJob := {
  sj_nonce : string;
  sj_resolvedToken : option string;
  sj_identity : DeviceIdentity.DeviceIdentityData;
  sj_storedDeviceToken : option DeviceIdentity.DeviceAuthToken;
  sj_signedAtMs : Z;
  sj_payload : string;
}.

(** What the client does to the outside: the callbacks of its options, the
    calls on its sockets, and the settling of the promises it handed out. *)
Inductive Effect :=
| onStateChange (st : WsConnectionState)
| onChatEvent (payload : JSON)
| onDeviceTokenReceived (token role scopes : JSON) (updatedAtMs : Z)
| onPairingRequired
| onConnectError (message : string)
| ws_new (sock : nat) (url : string)
| ws_send (sock : nat) (frame : GatewayRequest)
| ws_close (sock : nat) (code : option Z) (reason : option string)
| resolve (id : string) (payload : option JSON)
| reject (id : string) (message : string) (code : option string)
| request_throws (method : string) (message : string)
| console_error (message : string).

(** The fields of the class. *)
Record Client := {
  ws : option nat;
  pending : gmap string PendingRequest;
  state : WsConnectionState;
  connectNonce : option string;
  connectSent : bool;
  connectTimer : option nat;
  tickTimer : option nat;
  lastTick : option Z;
  tickIntervalMs : Z;
  backoffMs : Z;
  closed : bool;
  reconnectTimer : option nat;
}.

(** The platform around it: armed timers, the sockets it created, suspended
    signing calls, promise reactions not yet run, and the effects so far. *)
Record Runtime := {
  timers : gmap nat Timer;
  nextTimer : nat;
  sockets : gmap nat ReadyState;
  nextSocket : nat;
  signJobs : gmap nat SignJob;
  nextJob : nat;
  microtasks : list (Awaiter * Outcome);
  trace : list Effect;
}.

Record World := {
  this : Client;
  rt : Runtime;
}.

(** What the platform answers during one turn of the event loop. *)
Record Env := {
  now : Z;
  randomUUID : string;
  webSocketThrows : bool;
  getUrl : string;
  getToken : string;
  getDeviceIdentity : option DeviceIdentity.DeviceIdentityData;
  getDeviceAuthToken : option DeviceIdentity.DeviceAuthToken;
}.

(** Current gateway protocol version *)
Definition PROTOCOL_VERSION : Z := 3.

(** Client identification *)
Definition CLIENT_ID : string := "webchat-ui".
Definition CLIENT_MODE : string := "webchat".

Definition new_Client : Client :=
  {| ws := None; pending := ∅; state := disconnected;
     connectNonce := None; connectSent := false;
     connectTimer := None; tickTimer := None; lastTick := None;
     tickIntervalMs := 30000; backoffMs := 1000; closed := false;
     reconnectTimer := None |}.

Definition new_Runtime : Runtime :=
  {| timers := ∅; nextTimer := 1; sockets := ∅; nextSocket := 1;
     signJobs := ∅; nextJob := 1; microtasks := []; trace := [] |}.

Definition new_World : World := {| this := new_Client; rt := new_Runtime |}.

(** *** Field assignments *)

Definition set_ws v c :=
  {| ws := v; pending := pending c; state := state c;
     connectNonce := connectNonce c; connectSent := connectSent c;
     connectTimer := connectTimer c; tickTimer := tickTimer c;
     lastTick := lastTick c; tickIntervalMs := tickIntervalMs c;
     backoffMs := backoffMs c; closed := closed c;
     reconnectTimer := reconnectTimer c |}.

Definition set_pending v c :=
  {| ws := ws c; pending := v; state := state c;
     connectNonce := connectNonce c; connectSent := connectSent c;
     connectTimer := connectTimer c; tickTimer := tickTimer c;
     lastTick := lastTick c; tickIntervalMs := tickIntervalMs c;
     backoffMs := backoffMs c; closed := closed c;
     reconnectTimer := reconnectTimer c |}.

Definition set_state v c :=
  {| ws := ws c; pending := pending c; state := v;
     connectNonce := connectNonce c; connectSent := connectSent c;
     connectTimer := connectTimer c; tickTimer := tickTimer c;
     lastTick := lastTick c; tickIntervalMs := tickIntervalMs c;
     backoffMs := backoffMs c; closed := closed c;
     reconnectTimer := reconnectTimer c |}.

Definition set_connectNonce v c :=
  {| ws := ws c; pending := pending c; state := state c;
     connectNonce := v; connectSent := connectSent c;
     connectTimer := connectTimer c; tickTimer := tickTimer c;
     lastTick := lastTick c; tickIntervalMs := tickIntervalMs c;
     backoffMs := backoffMs c; closed := closed c;
     reconnectTimer := reconnectTimer c |}.

Definition set_connectSent v c :=
  {| ws := ws c; pending := pending c; state := state c;
     connectNonce := connectNonce c; connectSent := v;
     connectTimer := connectTimer c; tickTimer := tickTimer c;
     lastTick := lastTick c; tickIntervalMs := tickIntervalMs c;
     backoffMs := backoffMs c; closed := closed c;
     reconnectTimer := reconnectTimer c |}.

Definition set_connectTimer v c :=
  {| ws := ws c; pending := pending c; state := state c;
     connectNonce := connectNonce c; connectSent := connectSent c;
     connectTimer := v; tickTimer := tickTimer c;
     lastTick := lastTick c; tickIntervalMs := tickIntervalMs c;
     backoffMs := backoffMs c; closed := closed c;
     reconnectTimer := reconnectTimer c |}.

Definition set_tickTimer v c :=
  {| ws := ws c; pending := pending c; state := state c;
     connectNonce := connectNonce c; connectSent := connectSent c;
     connectTimer := connectTimer c; tickTimer := v;
     lastTick := lastTick c; tickIntervalMs := tickIntervalMs c;
     backoffMs := backoffMs c; closed := closed c;
     reconnectTimer := reconnectTimer c |}.

Definition set_lastTick v c :=
  {| ws := ws c; pending := pending c; state := state c;
     connectNonce := connectNonce c; connectSent := connectSent c;
     connectTimer := connectTimer c; tickTimer := tickTimer c;
     lastTick := v; tickIntervalMs := tickIntervalMs c;
     backoffMs := backoffMs c; closed := closed c;
     reconnectTimer := reconnectTimer c |}.

Definition set_tickIntervalMs v c :=
  {| ws := ws c; pending := pending c; state := state c;
     connectNonce := connectNonce c; connectSent := connectSent c;
     connectTimer := connectTimer c; tickTimer := tickTimer c;
     lastTick := lastTick c; tickIntervalMs := v;
     backoffMs := backoffMs c; closed := closed c;
     reconnectTimer := reconnectTimer c |}.

Definition set_backoffMs v c :=
  {| ws := ws c; pending := pending c; state := state c;
     connectNonce := connectNonce c; connectSent := connectSent c;
     connectTimer := connectTimer c; tickTimer := tickTimer c;
     lastTick := lastTick c; tickIntervalMs := tickIntervalMs c;
     backoffMs := v; closed := closed c;
     reconnectTimer := reconnectTimer c |}.

Definition set_closed v c :=
  {| ws := ws c; pending := pending c; state := state c;
     connectNonce := connectNonce c; connectSent := connectSent c;
     connectTimer := connectTimer c; tickTimer := tickTimer c;
     lastTick := lastTick c; tickIntervalMs := tickIntervalMs c;
     backoffMs := backoffMs c; closed := v;
     reconnectTimer := reconnectTimer c |}.

Definition set_reconnectTimer v c :=
  {| ws := ws c; pending := pending c; state := state c;
     connectNonce := connectNonce c; connectSent := connectSent c;
     connectTimer := connectTimer c; tickTimer := tickTimer c;
     lastTick := lastTick c; tickIntervalMs := tickIntervalMs c;
     backoffMs := backoffMs c; closed := closed c;
     reconnectTimer := v |}.

Definition set_timers v r :=
  {| timers := v; nextTimer := nextTimer r; sockets := sockets r;
     nextSocket := nextSocket r; signJobs := signJobs r; nextJob := nextJob r;
     microtasks := microtasks r; trace := trace r |}.

Definition set_nextTimer v r :=
  {| timers := timers r; nextTimer := v; sockets := sockets r;
     nextSocket := nextSocket r; signJobs := signJobs r; nextJob := nextJob r;
     microtasks := microtasks r; trace := trace r |}.

Definition set_sockets v r :=
  {| timers := timers r; nextTimer := nextTimer r; sockets := v;
     nextSocket := nextSocket r; signJobs := signJobs r; nextJob := nextJob r;
     microtasks := microtasks r; trace := trace r |}.

Definition set_nextSocket v r :=
  {| timers := timers r; nextTimer := nextTimer r; sockets := sockets r;
     nextSocket := v; signJobs := signJobs r; nextJob := nextJob r;
     microtasks := microtasks r; trace := trace r |}.

Definition set_signJobs v r :=
  {| timers := timers r; nextTimer := nextTimer r; sockets := sockets r;
     nextSocket := nextSocket r; signJobs := v; nextJob := nextJob r;
     microtasks := microtasks r; trace := trace r |}.

Definition set_nextJob v r :=
  {| timers := timers r; nextTimer := nextTimer r; sockets := sockets r;
     nextSocket := nextSocket r; signJobs := signJobs r; nextJob := v;
     microtasks := microtasks r; trace := trace r |}.

Definition set_microtasks v r :=
  {| timers := timers r; nextTimer := nextTimer r; sockets := sockets r;
     nextSocket := nextSocket r; signJobs := signJobs r; nextJob := nextJob r;
     microtasks := v; trace := trace r |}.

Definition set_trace v r :=
  {| timers := timers r; nextTimer := nextTimer r; sockets := sockets r;
     nextSocket := nextSocket r; signJobs := signJobs r; nextJob := nextJob r;
     microtasks := microtasks r; trace := v |}.

(** *** The state monad of the methods *)

Definition M (A : Type) : Type := World → A * World.

#[global] Instance M_ret : MRet M := λ A a w, (a, w).

#[global] Instance M_bind : MBind M :=
  λ A B k m w, let '(a, w') := m w in k a w'.

(** Read a field of [this]. *)
Definition get {A} (f : Client → A) : M A := λ w, (f (this w), w).

(** Assign a field of [this]. *)
Definition put (f : Client → Client) : M unit :=
  λ w, (tt, {| this := f (this w); rt := rt w |}).

Definition getR {A} (f : Runtime → A) : M A := λ w, (f (rt w), w).

Definition putR (f : Runtime → Runtime) : M unit :=
  λ w, (tt, {| this := this w; rt := f (rt w) |}).

Definition emit (e : Effect) : M unit :=
  putR (λ r, set_trace (trace r ++ [e])%list r).

(** Nothing to do. *)
Definition pass : M unit := mret tt.

Fixpoint forEach {A} (f : A → M unit) (l : list A) : M unit :=
  match l with
  | [] => pass
  | x :: rest => f x ;; forEach f rest
  end.

(** Final world of a computation. *)
Definition exec {A} (m : M A) (w : World) : World := snd (m w).

(** *** Timers and sockets of the platform *)

Definition setTimer (cb : TimerCallback) (ms : Z) (rep : bool) : M nat :=
  t ← getR nextTimer;
  putR (λ r, set_nextTimer (S t)
               (set_timers (<[t := {| callback := cb; delay := ms;
                                      repeating := rep |}]> (timers r)) r));;
  mret t.

Definition setTimeout (cb : TimerCallback) (ms : Z) : M nat :=
  setTimer cb ms false.

Definition setInterval (cb : TimerCallback) (ms : Z) : M nat :=
  setTimer cb ms true.

(** [clearTimeout] and [clearInterval]: the timer will not fire (again). *)
Definition clearTimeout (t : nat) : M unit :=
  putR (λ r, set_timers (delete t (timers r)) r).

Definition clearInterval (t : nat) : M unit := clearTimeout t.

(** [new WebSocket(url)] when it does not throw *)
Definition new_WebSocket (url : string) : M nat :=
  sock ← getR nextSocket;
  putR (λ r, set_nextSocket (S sock)
               (set_sockets (<[sock := CONNECTING]> (sockets r)) r));;
  emit (ws_new sock url);;
  mret sock.

Definition readyState (sock : option nat) : M (option ReadyState) :=
  getR (λ r, s ← sock; sockets r !! s).

(** [sock.close(code, reason)]: the socket is closing from now on; its close
    event comes later. *)
Definition WebSocket_close (sock : nat) (code : option Z)
    (reason : option string) : M unit :=
  emit (ws_close sock code reason);;
  putR (λ r, set_sockets
               (alter (λ rs, match rs with CLOSED => CLOSED | _ => CLOSING end)
                      sock (sockets r)) r).

(** [this.ws?.close(code, reason)] *)
Definition ws_close_opt (code : option Z) (reason : option string) : M unit :=
  w ← get ws;
  match w with
  | Some sock => WebSocket_close sock code reason
  | None => pass
  end.

(** Settle the promise of a pending entry: the call of its [resolve] or
    [reject], and the reaction of the code awaiting it, queued to run when
    the current handler has returned. *)
Definition settle (id : string) (aw : Awaiter) (o : Outcome) : M unit :=
  emit (match o with
        | Resolved payload => resolve id payload
        | Rejected message code => reject id message code
        end);;
  putR (λ r, set_microtasks (microtasks r ++ [(aw, o)])%list r).

(** *** Private methods *)

Definition setState (st : WsConnectionState) : M unit :=
  cur ← get state;
  if decide (cur = st) then pass
  else put (set_state st);; emit (onStateChange st).

Definition resolveWsUrl (url : string) : string :=
  let raw := Str.stripTrailing "/" url in
  if String.prefix "http://" raw then "ws://" +:+ Str.drop 7 raw
  else if String.prefix "https://" raw then "wss://" +:+ Str.drop 8 raw
  else if String.prefix "ws://" raw || String.prefix "wss://" raw then raw
  else "ws://" +:+ raw.

Definition clearTimers : M unit :=
  ct ← get connectTimer;
  match ct with
  | Some t => clearTimeout t;; put (set_connectTimer None)
  | None => pass
  end;;
  tk ← get tickTimer;
  match tk with
  | Some t => clearInterval t;; put (set_tickTimer None)
  | None => pass
  end;;
  rc ← get reconnectTimer;
  match rc with
  | Some t => clearTimeout t;; put (set_reconnectTimer None)
  | None => pass
  end.

(** The body of the loop of [flushPending], for one entry [[id, p]]. *)
Definition flushEntry (message : string) (entry : string * PendingRequest)
  : M unit :=
  match timer entry.2 with
  | Some t => clearTimeout t
  | None => pass
  end;;
  settle entry.1 (awaiter entry.2) (Rejected message None).

(** Rejects every pending entry, then clears the map.  The code visits
    the entries in the order of their insertion, [map_to_list] in the order
    of the keys: the rejections are the same, their order in the trace may
    differ, and the statements below count them or ask for membership
    only. *)
Definition flushPending (message : string) : M unit :=
  entries ← get (λ c, map_to_list (pending c));
  forEach (flushEntry message) entries;;
  put (set_pending ∅).

Definition scheduleReconnect : M unit :=
  c ← get closed;
  if (c : bool) then pass
  else
    clearTimers;;
    delay ← get backoffMs;
    put (set_backoffMs (Z.min (delay * 2) 30000));;
    t ← setTimeout Reconnect delay;
    put (set_reconnectTimer (Some t)).

(** The handlers [onopen], [onmessage] and [onclose] that [connect] attaches
    are those of [dispatch] below, the same for every socket. *)
Definition connect (env : Env) : M unit :=
  w ← get ws;
  match w with
  | Some sock => WebSocket_close sock None None;; put (set_ws None)
  | None => pass
  end;;
  put (set_connectNonce None);;
  put (set_connectSent false);;
  let url := resolveWsUrl (getUrl env) in
  setState connecting;;
  if webSocketThrows env then
    setState disconnected;;
    scheduleReconnect
  else
    sock ← new_WebSocket url;
    put (set_ws (Some sock)).

Definition queueConnectTimeout : M unit :=
  ct ← get connectTimer;
  match ct with
  | Some t => clearTimeout t
  | None => pass
  end;;
  t ← setTimeout ConnectTimeout 5000;
  put (set_connectTimer (Some t)).

(** [elapsed > tickIntervalMs * 2.5], on integers *)
Definition exceeds_2_5 (elapsed tickIntervalMs : Z) : bool :=
  (5 * tickIntervalMs <? 2 * elapsed)%Z.

Definition startTickWatch : M unit :=
  tk ← get tickTimer;
  match tk with
  | Some t => clearInterval t
  | None => pass
  end;;
  iv ← get tickIntervalMs;
  t ← setInterval TickWatch (Z.max iv 1000);
  put (set_tickTimer (Some t)).

(** The callback of the interval that [startTickWatch] arms. *)
Definition tickWatch (env : Env) : M unit :=
  c ← get closed;
  if (c : bool) then pass
  else
    lt ← get lastTick;
    match lt with
    | None => pass
    | Some last =>
      if (last =? 0)%Z then pass
      else
        iv ← get tickIntervalMs;
        if exceeds_2_5 (now env - last) iv then
          ws_close_opt (Some 4000) (Some "tick timeout")
        else pass
    end.

(** The callback of the timeout that [queueConnectTimeout] arms. *)
Definition connectTimeout : M unit :=
  sent ← get connectSent;
  w ← get ws;
  rs ← readyState w;
  if negb sent && bool_decide (rs = Some OPEN) then
    ws_close_opt (Some 3008) (Some "connect challenge timeout")
  else pass.

(** *** Public methods *)

(** Start the WebSocket connection *)
Definition start (env : Env) : M unit :=
  c ← get closed;
  if (c : bool) then pass else connect env.

(** Stop the WebSocket connection and clean up *)
Definition stop : M unit :=
  put (set_closed true);;
  clearTimers;;
  w ← get ws;
  match w with
  | Some sock =>
    WebSocket_close sock (Some 1000) (Some "client stopped");;
    put (set_ws None)
  | None => pass
  end;;
  flushPending "client stopped";;
  setState disconnected.

(** Restart the connection (stop + start) *)
Definition restart (env : Env) : M unit :=
  put (set_closed false);;
  w ← get ws;
  match w with
  | Some sock =>
    WebSocket_close sock (Some 1000) (Some "client restarting");;
    put (set_ws None)
  | None => pass
  end;;
  clearTimers;;
  flushPending "client restarting";;
  connect env.

Definition rpcTimeoutMessage (method : string) (timeoutMs : Z) : string :=
  "RPC timeout: " +:+ method +:+ " (" +:+ Str.of_number timeoutMs +:+ "ms)".

(** Send an RPC request to the gateway.  The promise it returns is awaited
    by [aw]. *)
Definition request (env : Env) (method : string) (params : JSON)
    (timeoutMs : Z) (aw : Awaiter) : M unit :=
  w ← get ws;
  rs ← readyState w;
  match w, rs with
  | Some sock, Some OPEN =>
    let id := randomUUID env in
    t ← setTimeout (RpcTimeout id method timeoutMs aw) timeoutMs;
    put (λ c, set_pending
                (<[id := {| awaiter := aw; timer := Some t |}]> (pending c)) c);;
    emit (ws_send sock {| req_id := id; req_method := method;
                          req_params := params |})
  | _, _ =>
    emit (request_throws method "WebSocket not connected");;
    putR (λ r, set_microtasks
                 (microtasks r
                  ++ [(aw, Rejected "WebSocket not connected" None)])%list r)
  end.

(** The callback of the timeout that [request] arms; [aw] awaits the
    promise whose [reject] it captured. *)
Definition rpcTimeout (id method : string) (timeoutMs : Z) (aw : Awaiter)
  : M unit :=
  put (λ c, set_pending (delete id (pending c)) c);;
  settle id aw (Rejected (rpcTimeoutMessage method timeoutMs) None).

(** *** Incoming frames *)

(** A field read at its declared type [string]. *)
Definition asString (v : option JSON) : option string :=
  match v with
  | Some (JStr s) => Some s
  | _ => None
  end.

(** [res.error.message] and [res.error.code] are read at the type that
    [GatewayResponse] declares for them, [string]: a frame whose error holds
    a value of another type there is outside that type and is read as if
    the field were absent, where [new Error] would print the value. *)
Definition handleResponse (id : string) (ok : bool) (payload error : option JSON)
  : M unit :=
  p ← get (λ c, pending c !! id);
  match p with
  | None => pass
  | Some entry =>
    put (λ c, set_pending (delete id (pending c)) c);;
    match timer entry with
    | Some t => clearTimeout t
    | None => pass
    end;;
    if ok then settle id (awaiter entry) (Resolved payload)
    else
      settle id (awaiter entry)
        (Rejected
           (default "unknown gateway error" (asString (oprop "message" error)))
           (asString (oprop "code" error)))
  end.

Definition role : string := "operator".
Definition scopes : list string := ["operator.read"; "operator.write"].

(** [(!token && storedDeviceToken?.token) || token || undefined] *)
Definition resolveToken (token : string)
    (stored : option DeviceIdentity.DeviceAuthToken) : option string :=
  if negb (String.eqb token "") then Some token
  else
    match stored with
    | Some d =>
      if negb (String.eqb (DeviceIdentity.token d) "")
      then Some (DeviceIdentity.token d) else None
    | None => None
    end.

Definition field (key : string) (v : option JSON) : list (string * JSON) :=
  match v with
  | Some j => [(key, j)]
  | None => []
  end.

(** The params of the connect call; a field that is [undefined] is left out,
    as [JSON.stringify] does. *)
Definition connectParams (resolvedToken : option string)
    (stored : option DeviceIdentity.DeviceAuthToken) (device : option JSON)
  : JSON :=
  let auth :=
    match resolvedToken with
    | Some tok =>
      Some (JObj ([("token", JStr tok)]
                  ++ field "deviceToken"
                       (JStr <$> (DeviceIdentity.token <$> stored)))%list)
    | None => None
    end in
  JObj ([ ("minProtocol", JNum PROTOCOL_VERSION);
          ("maxProtocol", JNum PROTOCOL_VERSION);
          ("client",
           JObj [ ("id", JStr CLIENT_ID);
                  ("displayName", JStr "Obsidian OpenClaw Plugin");
                  ("version", JStr "1.0.0");
                  ("platform", JStr "electron");
                  ("mode", JStr CLIENT_MODE) ]);
          ("caps", JArr []);
          ("role", JStr role);
          ("scopes", JArr (JStr <$> scopes)) ]
        ++ field "auth" auth ++ field "device" device)%list.

Definition isPairingRequired (message : string) (code : option string) : bool :=
  let code := default "" code in
  String.eqb code "PAIRING_REQUIRED"
  || String.eqb code "DEVICE_IDENTITY_REQUIRED"
  || Str.includes "pairing required" (Str.toLowerCase message).

(** [sendConnect] from [await this.request("connect", ...)] on: the [try]
    body after the await when the promise was resolved, the [catch] block
    when it was rejected. *)
Definition sendConnect_settled (env : Env) (hasIdentity : bool) (o : Outcome)
  : M unit :=
  match o with
  | Resolved helloOk =>
    put (set_backoffMs 1000);;
    let authInfo := oprop "auth" helloOk in
    (if truthy (oprop "deviceToken" authInfo) && hasIdentity then
       emit (onDeviceTokenReceived
               (default JNull (oprop "deviceToken" authInfo))
               (nullish (oprop "role" authInfo) (JStr role))
               (nullish (oprop "scopes" authInfo) (JArr (JStr <$> scopes)))
               (now env))
     else pass);;
    match oprop "tickIntervalMs" (oprop "policy" helloOk) with
    | Some (JNum n) => if (0 <? n)%Z then put (set_tickIntervalMs n) else pass
    | _ => pass
    end;;
    put (set_lastTick (Some (now env)));;
    startTickWatch;;
    setState connected
  | Rejected message code =>
    if isPairingRequired message code then
      setState pairing_required;;
      emit onPairingRequired;;
      ws_close_opt (Some 1000) (Some "pairing required")
    else
      emit (onConnectError message);;
      ws_close_opt (Some 3008) (Some "connect failed")
  end.

(** [sendConnect] from the connect params to the request. *)
Definition sendConnect_request (env : Env) (resolvedToken : option string)
    (stored : option DeviceIdentity.DeviceAuthToken) (device : option JSON)
    (hasIdentity : bool) : M unit :=
  request env "connect" (connectParams resolvedToken stored device) 15000
          (SendConnect hasIdentity).

(** Send the connect RPC with device auth: up to the request when there is
    no device identity, up to [await signPayload(...)] when there is one. *)
Definition sendConnect (env : Env) : M unit :=
  sent ← get connectSent;
  if (sent : bool) then pass
  else
    n ← get connectNonce;
    match n with
    | None => pass
    | Some nonce =>
      if String.eqb nonce "" then pass
      else
        put (set_connectSent true);;
        ct ← get connectTimer;
        match ct with
        | Some t => clearTimeout t;; put (set_connectTimer None)
        | None => pass
        end;;
        let token := getToken env in
        let deviceIdentity := getDeviceIdentity env in
        let storedDeviceToken := getDeviceAuthToken env in
        let resolvedToken := resolveToken token storedDeviceToken in
        match deviceIdentity with
        | Some dev =>
          let signedAtMs := now env in
          let payload :=
            DeviceIdentity.buildDeviceAuthPayload
              {| DeviceIdentity.ap_deviceId := DeviceIdentity.deviceId dev;
                 DeviceIdentity.ap_clientId := CLIENT_ID;
                 DeviceIdentity.ap_clientMode := CLIENT_MODE;
                 DeviceIdentity.ap_role := role;
                 DeviceIdentity.ap_scopes := scopes;
                 DeviceIdentity.ap_signedAtMs := signedAtMs;
                 DeviceIdentity.ap_token := resolvedToken;
                 DeviceIdentity.ap_nonce := nonce |} in
          job ← getR nextJob;
          putR (λ r, set_nextJob (S job)
                       (set_signJobs
                          (<[job := {| sj_nonce := nonce;
                                       sj_resolvedToken := resolvedToken;
                                       sj_identity := dev;
                                       sj_storedDeviceToken := storedDeviceToken;
                                       sj_signedAtMs := signedAtMs;
                                       sj_payload := payload |}]> (signJobs r))
                          r))
        | None =>
          sendConnect_request env resolvedToken storedDeviceToken None false
        end
    end.

(** [sendConnect] resumed when [signPayload] has settled: with the
    signature, or without the device block when signing threw. *)
Definition sendConnect_signed (env : Env) (job : SignJob)
    (signature : option string) : M unit :=
  match signature with
  | Some sig =>
    let dev := sj_identity job in
    sendConnect_request env (sj_resolvedToken job) (sj_storedDeviceToken job)
      (Some (JObj [ ("id", JStr (DeviceIdentity.deviceId dev));
                    ("publicKey", JStr (DeviceIdentity.publicKey dev));
                    ("signature", JStr sig);
                    ("signedAt", JNum (sj_signedAtMs job));
                    ("nonce", JStr (sj_nonce job)) ]))
      true
  | None =>
    emit (console_error "[OpenClaw WS] Failed to sign device auth:");;
    sendConnect_request env (sj_resolvedToken job) (sj_storedDeviceToken job)
      None true
  end.

Definition handleEvent (env : Env) (event : string) (payload : option JSON)
  : M unit :=
  if String.eqb event "connect.challenge" then
    match asString (oprop "nonce" payload) with
    | Some nonce =>
      if String.eqb nonce "" then
        ws_close_opt (Some 3008) (Some "missing nonce in connect challenge")
      else
        put (set_connectNonce (Some (Str.trim nonce)));;
        sendConnect env
    | None =>
      ws_close_opt (Some 3008) (Some "missing nonce in connect challenge")
    end
  else if String.eqb event "tick" then
    put (set_lastTick (Some (now env)))
  else if String.eqb event "chat" then
    match payload with
    | Some p => if truthy payload then emit (onChatEvent p) else pass
    | None => pass
    end
  else pass.

(** [parsed] is what [JSON.parse(raw)] gave, [None] when it threw. *)
Definition handleMessage (env : Env) (parsed : option JSON) : M unit :=
  match parsed with
  | None => pass
  | Some obj =>
    match prop "event" obj with
    | Some (JStr event) => handleEvent env event (prop "payload" obj)
    | _ =>
      match prop "id" obj, prop "ok" obj with
      | Some (JStr id), Some (JBool ok) =>
        handleResponse id ok (prop "payload" obj) (prop "error" obj)
      | _, _ => pass
      end
    end
  end.

(** *** Socket handlers and the event loop *)

Definition onopen : M unit :=
  setState authenticating;;
  queueConnectTimeout.

Definition onclose : M unit :=
  put (set_ws None);;
  flushPending "WebSocket closed";;
  c ← get closed;
  if negb c then
    setState reconnecting;;
    scheduleReconnect
  else setState disconnected.

(** What can happen to the client: a call of a public method, an event of one
    of its sockets, a timer that fires, a signing call that settles. *)
Inductive Event :=
| Start
| Stop
| Restart
| Request (method : string) (params : JSON) (timeoutMs : Z)
| WsOpen (sock : nat)
| WsMessage (sock : nat) (parsed : option JSON)
| WsClosed (sock : nat)
| TimerFired (t : nat)
| SignSettled (job : nat) (signature : option string).

Definition runTimer (env : Env) (cb : TimerCallback) : M unit :=
  match cb with
  | RpcTimeout id method timeoutMs aw => rpcTimeout id method timeoutMs aw
  | ConnectTimeout => connectTimeout
  | TickWatch => tickWatch env
  | Reconnect =>
    put (set_reconnectTimer None);;
    c ← get closed;
    if negb c then connect env else pass
  end.

(** One macrotask.  The platform delivers a socket event only in a ready
    state that allows it, and fires only armed timers. *)
Definition dispatch (env : Env) (ev : Event) : M unit :=
  match ev with
  | Start => start env
  | Stop => stop
  | Restart => restart env
  | Request method params timeoutMs =>
    request env method params timeoutMs ExternalCaller
  | WsOpen sock =>
    rs ← readyState (Some sock);
    if bool_decide (rs = Some CONNECTING) then
      putR (λ r, set_sockets (<[sock := OPEN]> (sockets r)) r);;
      onopen
    else pass
  | WsMessage sock parsed =>
    rs ← readyState (Some sock);
    if bool_decide (rs = Some OPEN) then handleMessage env parsed else pass
  | WsClosed sock =>
    rs ← readyState (Some sock);
    match rs with
    | Some CLOSED | None => pass
    | Some _ =>
      putR (λ r, set_sockets (<[sock := CLOSED]> (sockets r)) r);;
      onclose
    end
  | TimerFired t =>
    tm ← getR (λ r, timers r !! t);
    match tm with
    | Some timer_ =>
      (if repeating timer_ then pass else clearTimeout t);;
      runTimer env (callback timer_)
    | None => pass
    end
  | SignSettled job signature =>
    j ← getR (λ r, signJobs r !! job);
    match j with
    | Some sj =>
      putR (λ r, set_signJobs (delete job (signJobs r)) r);;
      sendConnect_signed env sj signature
    | None => pass
    end
  end.

(** The reaction of the code that awaited a settled promise. *)
Definition runMicrotask (env : Env) (job : Awaiter * Outcome) : M unit :=
  match job.1 with
  | ExternalCaller => pass
  | SendConnect hasIdentity => sendConnect_settled env hasIdentity job.2
  end.

(** The reactions queued by the promises settled in this turn. *)
Definition runMicrotasks (env : Env) : M unit :=
  queued ← getR microtasks;
  putR (set_microtasks []);;
  forEach (runMicrotask env) queued.

(** One turn of the event loop. *)
Definition step (env : Env) (ev : Event) (w : World) : World :=
  exec (dispatch env ev;; runMicrotasks env) w.

Fixpoint run (turns : list (Env * Event)) (w : World) : World :=
  match turns with
  | [] => w
  | (env, ev) :: rest => run rest (step env ev w)
  end.

(** *** Predicates used in the statements *)

(** The request with this id was sent. *)
Definition issued (id : string) (tr : list Effect) : Prop :=
  ∃ sock frame, ws_send sock frame ∈ tr ∧ req_id frame = id.

(** The worlds the client can be in: every turn draws a UUID that no
    request has used. *)
Inductive reachable : World → Prop :=
| reachable_new : reachable new_World
| reachable_step env ev w :
    reachable w →
    ¬ issued (randomUUID env) (trace (rt w)) →
    reachable (step env ev w).

Definition settles (id : string) (e : Effect) : bool :=
  match e with
  | resolve id' _ | reject id' _ _ => String.eqb id' id
  | _ => false
  end.

(** How often the promise of request [id] was resolved or rejected. *)
Definition settled (id : string) (tr : list Effect) : nat :=
  length (List.filter (settles id) tr).

(** The states passed to [onStateChange], in order. *)
Definition notifications (tr : list Effect) : list WsConnectionState :=
  omap (λ e, match e with onStateChange st => Some st | _ => None end) tr.

(** No two neighbours are equal. *)
Definition no_repeat {A} (l : list A) : Prop :=
  ∀ i a b, l !! i = Some a → l !! S i = Some b → a ≠ b.

End WsGatewayClient.

(** ** device-identity.ts: encoding, key generation, signing *)

Module DeviceIdentityKeys.
Import DeviceIdentity.

(** The binary string built by [binary += String.fromCharCode(b)] *)
Fixpoint fromCharCodes (bytes : list byte) : string :=
  match bytes with
  | [] => EmptyString
  | b :: rest => String (ascii_of_byte b) (fromCharCodes rest)
  end.

(** [new TextEncoder().encode(s)] for a string of code units below 256:
    one byte below 128, two bytes from 128 on. *)
Fixpoint utf8 (s : string) : list byte :=
  match s with
  | EmptyString => []
  | String c rest =>
    let n := N_of_ascii c in
    if (n <? 128)%N then byte_of_ascii c :: utf8 rest
    else
      byte_of_ascii (ascii_of_N (192 + n / 64))
        :: byte_of_ascii (ascii_of_N (128 + n mod 64)) :: utf8 rest
  end.

Section Platform.

(** [btoa] of the browser, on binary strings *)
Variable btoa : string → string.

(** [atob] of the browser: [None] when it throws. *)
Variable atob : string → option string.

(** [crypto.subtle.digest("SHA-256", data)] *)
Variable sha256 : list byte → list byte.

(** [ed.utils.randomSecretKey()], the 32-byte seed drawn *)
Variable randomSecretKey : list byte.

(** [ed.getPublicKeyAsync(privateKey)] *)
Variable getPublicKey : list byte → list byte.

(** [ed.signAsync(message, privateKey)]: [None] when it rejects. *)
Variable sign : list byte → list byte → option (list byte).

(** [Date.now()] *)
Variable now : Z.

(** Base64url encode bytes (no padding) *)
Definition base64UrlEncode (bytes : list byte) : string :=
  Str.stripTrailing "="
    (Str.replaceAll "/" "_"
       (Str.replaceAll "+" "-" (btoa (fromCharCodes bytes)))).

(** Generate a new Ed25519 device identity. *)
Definition generateDeviceIdentity : DeviceIdentityData :=
  let privateKeyBytes := randomSecretKey in
  let publicKeyBytes := getPublicKey privateKeyBytes in
  let deviceId := sha256Hex sha256 publicKeyBytes in
  {| version := 1;
     deviceId := deviceId;
     publicKey := base64UrlEncode publicKeyBytes;
     privateKey := base64UrlEncode privateKeyBytes;
     createdAtMs := now |}.

(** Sign a payload string with the device's Ed25519 private key; [None] is
    a rejected promise. *)
Definition signPayload (privateKeyBase64Url payload : string)
  : option string :=
  privateKeyBytes ← base64UrlDecode atob privateKeyBase64Url;
  let messageBytes := utf8 payload in
  signature ← sign messageBytes privateKeyBytes;
  Some (base64UrlEncode signature).

End Platform.

(** *** Predicates used in the statements *)

Definition is_base64_char (c : ascii) : bool :=
  Str.includes (String c "")
    "ABCDEFGHIJKLMNOPQRSTUVWXYZabcdefghijklmnopqrstuvwxyz0123456789+/".

(** The shape of what [btoa] returns: characters of the base64 alphabet,
    then at most two "=", a multiple of four characters in all. *)
Definition standard_base64 (enc : string) : bool :=
  let body := Str.stripTrailing "=" enc in
  (String.length enc mod 4 =? 0)%nat
  && (String.length enc - String.length body <=? 2)%nat
  && Str.all is_base64_char body.

(** No character of [s] is [c]. *)
Definition free_of (c : ascii) (s : string) : bool :=
  Str.all (λ d, negb (Ascii.eqb d c)) s.

(** The fields that [buildDeviceAuthPayload] joins before the nonce hold no
    separator. *)
Definition pipe_free_fields (p : AuthPayloadParams) : bool :=
  free_of "|" (ap_deviceId p) && free_of "|" (ap_clientId p)
  && free_of "|" (ap_clientMode p) && free_of "|" (ap_role p)
  && free_of "|" (String.concat "," (ap_scopes p))
  && free_of "|" (default "" (ap_token p)).

(** [atob] gives back the binary string that [btoa] encoded, and what
    [btoa] gave for it has the standard shape. *)
Definition decodable (btoa : string → string) (atob : string → option string)
    (bytes : list byte) : Prop :=
  atob (btoa (fromCharCodes bytes)) = Some (fromCharCodes bytes)
  ∧ standard_base64 (btoa (fromCharCodes bytes)) = true.

End DeviceIdentityKeys.

(** ** main.ts: the device identity of the plugin *)

Module Plugin.
Import DeviceIdentity DeviceIdentityKeys.

Section Platform.

Variable btoa : string → string.
Variable atob : string → option string.
Variable sha256 : list byte → list byte.
Variable randomSecretKey : list byte.
Variable getPublicKey : list byte → list byte.
Variable now : Z.

(** Ensure a device identity exists in settings.  The result is the
    [deviceIdentity] setting afterwards and the identities handed to
    [saveSettings]; [None] is a rejected promise. *)
Definition ensureDeviceIdentity (deviceIdentity : option DeviceIdentityData)
  : option (DeviceIdentityData * list DeviceIdentityData) :=
  match deviceIdentity with
  | None =>
    let generated :=
      generateDeviceIdentity btoa sha256 randomSecretKey getPublicKey now in
    Some (generated, [generated])
  | Some stored =>
    r ← validateDeviceIdentity atob sha256 stored;
    let validated := r.1 in
    if negb (String.eqb (deviceId validated) (deviceId stored))
    then Some (validated, [validated])
    else Some (stored, [])
  end.

End Platform.

End Plugin.

(** ** A reference platform for the examples: base64 as in RFC 4648 *)

Module Base64.

Definition alphabet : string :=
  "ABCDEFGHIJKLMNOPQRSTUVWXYZabcdefghijklmnopqrstuvwxyz0123456789+/".

Definition digit (n : N) : ascii :=
  default "A"%char (String.get (N.to_nat n) alphabet).

Fixpoint index_in (c : ascii) (s : string) : option N :=
  match s with
  | EmptyString => None
  | String d rest =>
    if Ascii.eqb c d then Some 0%N else N.succ <$> index_in c rest
  end.

Definition value (c : ascii) : option N := index_in c alphabet.

Fixpoint encode (bytes : list N) : string :=
  match bytes with
  | [] => ""
  | [a] =>
    String (digit (a / 4)) (String (digit (a mod 4 * 16)) "==")
  | [a; b] =>
    String (digit (a / 4))
      (String (digit (a mod 4 * 16 + b / 16))
         (String (digit (b mod 16 * 4)) "="))
  | a :: b :: c :: rest =>
    String (digit (a / 4))
      (String (digit (a mod 4 * 16 + b / 16))
         (String (digit (b mod 16 * 4 + c / 64))
            (String (digit (c mod 64)) (encode rest))))
  end%N.

Definition is_pad (c : ascii) : bool := Ascii.eqb c "=".

Fixpoint decode (fuel : nat) (chars : list ascii) : option (list N) :=
  match fuel, chars with
  | _, [] => Some []
  | S fuel', a :: b :: c :: d :: rest =>
    x ← value a;
    y ← value b;
    if is_pad c && is_pad d && bool_decide (rest = []) then
      Some [x * 4 + y / 16]%N
    else
      z ← value c;
      if is_pad d && bool_decide (rest = []) then
        Some [x * 4 + y / 16; y mod 16 * 16 + z / 4]%N
      else
        v ← value d;
        tail ← decode fuel' rest;
        Some ((x * 4 + y / 16) :: (y mod 16 * 16 + z / 4)
              :: (z mod 4 * 64 + v) :: tail)%N
  | _, _ => None
  end.

Definition btoa (binary : string) : string :=
  encode (N_of_ascii <$> String.list_ascii_of_string binary).

Definition atob (enc : string) : option string :=
  bytes ← decode (String.length enc) (String.list_ascii_of_string enc);
  Some (String.string_of_list_ascii (ascii_of_N <$> bytes)).

End Base64.

(** ** gateway-client.ts: conversation, session key, listeners, abort *)

Module GatewayFacade.
Import GatewayClient.

(** An entry of the conversation handed to [sendMessage] and
    [sendMessageStreaming] *)
Record ApiMessage := {
  am_role : string;
  am_content : string;
}.

(** Extract the last user message text from an OpenAI-style messages
    array: the loop runs from the last entry down to the first. *)
Definition extractLastUserMessage (messages : list ApiMessage)
  : option string :=
  am_content <$> List.find (λ m, String.eqb (am_role m) "user") (rev messages).

(** [sendMessageStreaming], once connected, up to the call of [chatSend]:
    the text to send, or the message handed to [onError]. *)
Definition textToSend (messages : list ApiMessage) : string + string :=
  match extractLastUserMessage messages with
  | Some lastUserMessage =>
    if String.eqb lastUserMessage "" then
      inr "No user message found in conversation"
    else inl lastUserMessage
  | None => inr "No user message found in conversation"
  end.

(** The settings the session key depends on *)
Record SessionSettings := {
  agentId : string;
  currentSessionKey : option string;
}.

(** [this.getSettings().agentId || "main"] *)
Definition agentIdOrMain (settings : SessionSettings) : string :=
  if String.eqb (agentId settings) "" then "main" else agentId settings.

(** [`${agentId}:${Date.now()}:${crypto.randomUUID()}`] *)
Definition freshSessionKey (agent : string) (now : Z) (uuid : string) : string :=
  agent +:+ ":" +:+ Str.of_number now +:+ ":" +:+ uuid.

(** Resolve a session key for WebSocket chat: the key, the settings
    afterwards, and whether [onSettingsChanged] was asked to persist them. *)
Definition resolveSessionKey (now : Z) (uuid : string)
    (settings : SessionSettings) : string * SessionSettings * bool :=
  match currentSessionKey settings with
  | Some key =>
    if String.eqb key "" then
      let key' := freshSessionKey (agentIdOrMain settings) now uuid in
      (key', {| agentId := agentId settings;
                currentSessionKey := Some key' |}, true)
    else (key, settings, false)
  | None =>
    let key' := freshSessionKey (agentIdOrMain settings) now uuid in
    (key', {| agentId := agentId settings; currentSessionKey := Some key' |},
     true)
  end.

(** *** Connection state listeners *)

(** Listeners are functions; a function is named by a number, and [!==]
    compares the names. *)

(** [onConnectionStateChange(listener)]: the push *)
Definition subscribe (listener : nat) (listeners : list nat) : list nat :=
  (listeners ++ [listener])%list.

(** The function that [onConnectionStateChange] returns *)
Definition unsubscribe (listener : nat) (listeners : list nat) : list nat :=
  List.filter (λ l, negb (l =? listener)%nat) listeners.

(** The [onStateChange] option given to the WebSocket client: the calls it
    makes, in order. *)
Definition notify {A} (state : A) (listeners : list nat) : list (nat * A) :=
  (λ l, (l, state)) <$> listeners.

(** *** Abort *)

(** What the abort handler of a run does to the outside *)
Inductive Action :=
| invoke (call : Call)
| chatAbort (sessionKey runId : string).

(** The [abortHandler] that [sendMessageStreaming] builds for the run
    [runId] of the caller [caller]; [hasClient] tells whether [wsClient] is
    set when the handler runs. *)
Definition abortHandler (sessionKey runId : string) (caller : nat)
    (hasClient : bool) (reg : gmap string Listener)
  : gmap string Listener * list Action :=
  (delete runId reg,
   ((if hasClient then [chatAbort sessionKey runId] else [])
    ++ [invoke (onDone caller)])%list).

(** *** Predicates used in the statements *)

Definition call_owner (c : Call) : nat :=
  match c with
  | onChunk caller _ | onDone caller | onError caller _ => caller
  end.

End GatewayFacade.

(** ** chat-view.ts: what the view sends *)

Module ChatView.
Import GatewayFacade.

(** Chat message displayed in the sidebar *)
Record ChatMessage := {
  cm_id : string;
  cm_role : string;
  cm_content : string;
  cm_timestamp : Z;
  cm_streaming : bool;
}.

(** The fields of the view that [handleSend] reads and writes *)
Record View := {
  inputValue : string;
  messages : list ChatMessage;
  capturedSelection : string;
}.

(** What [handleSend] reads from the settings, the workspace, the clock and
    [generateId] *)
Record SendEnv := {
  shareActiveFile : bool;
  shareSelection : bool;
  activeFile : option string;
  userId : string;
  userTime : Z;
  assistantId : string;
  assistantTime : Z;
}.

Definition nl : string := String "010"%char "".

(** Build context prefix *)
Definition contextPrefix (env : SendEnv) (selection : string) : string :=
  if shareActiveFile env || shareSelection env then
    let p1 :=
      match activeFile env with
      | Some path =>
        if shareActiveFile env then "[Active file: " +:+ path +:+ "]" +:+ nl
        else ""
      | None => ""
      end in
    let p2 :=
      if shareSelection env && negb (String.eqb selection "") then
        p1 +:+ "[Selected text:" +:+ nl +:+ selection +:+ nl +:+ "]" +:+ nl
      else p1 in
    if negb (String.eqb p2 "") then p2 +:+ nl else p2
  else "".

(** Build conversation messages for the API.  [userMsg] is the object just
    pushed, so [m === userMsg] holds at its position [userIdx] and nowhere
    else. *)
Definition apiMessages (messages : list ChatMessage) (userIdx : nat)
    (prefix : string) : list ApiMessage :=
  (λ im : nat * ChatMessage,
     let m := im.2 in
     if (im.1 =? userIdx)%nat && negb (String.eqb prefix "") then
       {| am_role := cm_role m; am_content := prefix +:+ cm_content m |}
     else {| am_role := cm_role m; am_content := cm_content m |})
  <$> List.filter (λ im : nat * ChatMessage,
                     negb (String.eqb (cm_role im.2) "system"))
                  (imap pair messages).

(** [handleSend] up to the call of the client: the view afterwards and the
    conversation handed to [sendMessageStreaming] or [sendMessage]; [None]
    when it returns at once. *)
Definition handleSend (env : SendEnv) (v : View)
  : option (View * list ApiMessage) :=
  let text := Str.trim (inputValue v) in
  if String.eqb text "" then None
  else
    let prefix := contextPrefix env (capturedSelection v) in
    let userMsg := {| cm_id := userId env; cm_role := "user";
                      cm_content := text; cm_timestamp := userTime env;
                      cm_streaming := false |} in
    let pushed := (messages v ++ [userMsg])%list in
    let api := apiMessages pushed (length (messages v)) prefix in
    let assistantMsg := {| cm_id := assistantId env; cm_role := "assistant";
                           cm_content := ""; cm_timestamp := assistantTime env;
                           cm_streaming := true |} in
    Some ({| inputValue := ""; messages := (pushed ++ [assistantMsg])%list;
             capturedSelection := "" |}, api).

(** [newSession]: clear the messages, generate a new session key and save it
    to the settings. *)
Definition newSession (now : Z) (uuid : string) (v : View)
    (settings : SessionSettings) : View * SessionSettings :=
  let agent := if String.eqb (agentId settings) "" then "main"
               else agentId settings in
  let newKey := freshSessionKey agent now uuid in
  ({| inputValue := inputValue v; messages := [];
      capturedSelection := capturedSelection v |},
   {| agentId := agentId settings; currentSessionKey := Some newKey |}).

(** *** Notions used in the statements *)

(** A displayed message as an entry of the conversation, unchanged *)
Definition plain (m : ChatMessage) : ApiMessage :=
  {| am_role := cm_role m; am_content := cm_content m |}.

End ChatView.

(** * Notions used in the statements *)

Module WsGatewayClientSpec.
Import WsGatewayClient.

(** [m], started in a world that satisfies [P], ends in a world that
    satisfies [Q] of its result. *)
Definition hoare {A} (P : World → Prop) (m : M A) (Q : A → World → Prop)
  : Prop :=
  ∀ w, P w → Q (m w).1 (m w).2.

(** [m] keeps the invariant [I]. *)
Definition preserves {A} (I : World → Prop) (m : M A) : Prop :=
  hoare I m (λ _, I).

(** The notifications so far, after the initial state, have no repetition
    and end with the current state. *)
Definition notified (w : World) : Prop :=
  let l := disconnected :: notifications (trace (rt w)) in
  last l = Some (state (this w)) ∧ no_repeat l.

(** Removing the timer of a handle that may be null. *)
Definition disarm (h : option nat) (tm : gmap nat Timer) : gmap nat Timer :=
  match h with
  | Some t => delete t tm
  | None => tm
  end.


(** The tick interval in force after a connect response. *)
Definition adoptedTickInterval (helloOk : option JSON) (current : Z) : Z :=
  match oprop "tickIntervalMs" (oprop "policy" helloOk) with
  | Some (JNum n) => if (0 <? n)%Z then n else current
  | _ => current
  end.

(** The runtime after [flushPending]: the timers of the entries disarmed,
    one rejection each, and the reactions of their awaiters queued. *)
Definition flushed (message : string)
    (entries : list (string * PendingRequest)) (r : Runtime) : Runtime :=
  {| timers := foldl (λ tm e, disarm (timer e.2) tm) (timers r) entries;
     nextTimer := nextTimer r;
     sockets := sockets r;
     nextSocket := nextSocket r;
     signJobs := signJobs r;
     nextJob := nextJob r;
     microtasks :=
       (microtasks r
        ++ map (λ e, (awaiter e.2, Rejected message None)) entries)%list;
     trace := (trace r ++ map (λ e, reject e.1 message None) entries)%list |}.

(** What the reactions of rejected connect calls report. *)
Definition connectErrors (message : string) (queue : list (Awaiter * Outcome))
  : list Effect :=
  flat_map (λ job : Awaiter * Outcome,
              match job.1 with
              | SendConnect _ => [onConnectError message]
              | ExternalCaller => []
              end) queue.

(** The runtime after [sock?.close(code, reason)]. *)
Definition closing (sock : option nat) (code : Z) (reason : string)
    (r : Runtime) : Runtime :=
  match sock with
  | Some s =>
    set_sockets
      (alter (λ rs, match rs with CLOSED => CLOSED | _ => CLOSING end)
             s (sockets r))
      (set_trace (trace r ++ [ws_close s (Some code) (Some reason)])%list r)
  | None => r
  end.

(** The notification of [setState st], if any. *)
Definition stateChange (cur st : WsConnectionState) : list Effect :=
  if decide (cur = st) then [] else [onStateChange st].

(** The fields after [stop()]. *)
Definition stopped (c : Client) : Client :=
  {| ws := None; pending := ∅; state := disconnected;
     connectNonce := connectNonce c; connectSent := connectSent c;
     connectTimer := None; tickTimer := None; lastTick := lastTick c;
     tickIntervalMs := tickIntervalMs c; backoffMs := backoffMs c;
     closed := true; reconnectTimer := None |}.

(** The runtime after [stop()]: the three timers of the client and those of
    the pending requests disarmed, the socket closing, every pending request
    rejected, the state change notified. *)
Definition stopped_runtime (c : Client) (r : Runtime) : Runtime :=
  let r1 :=
    flushed "client stopped" (map_to_list (pending c))
      (closing (ws c) 1000 "client stopped"
         (set_timers
            (disarm (reconnectTimer c)
               (disarm (tickTimer c) (disarm (connectTimer c) (timers r))))
            r)) in
  set_trace (trace r1 ++ stateChange (state c) disconnected)%list r1.

(** The timers the client holds a handle of. *)
Definition tracked (t : nat) (c : Client) : Prop :=
  connectTimer c = Some t ∨ tickTimer c = Some t ∨ reconnectTimer c = Some t
  ∨ ∃ id p, pending c !! id = Some p ∧ timer p = Some t.

(** A platform for the examples: a local gateway, no device identity. *)
Definition localEnv : Env :=
  {| now := 1700000000000; randomUUID := "uuid-1"; webSocketThrows := false;
     getUrl := "http://localhost:18789/"; getToken := "operator-token";
     getDeviceIdentity := None; getDeviceAuthToken := None |}.

(** A failed response frame: [{id, ok: false, error: {code?, message}}]. *)
Definition errorResponse (id : string) (code : option string)
    (message : string) : JSON :=
  JObj [ ("id", JStr id); ("ok", JBool false);
         ("error", JObj (field "code" (JStr <$> code)
                         ++ [("message", JStr message)])%list) ].

(** The world after the close event of a socket, on a client that is not
    stopped: pending requests flushed, state reconnecting, the reconnect
    timer armed with the backoff as its delay, the backoff doubled. *)
Definition after_close (c : Client) (r : Runtime) (sock : nat) : World :=
  let r1 := flushed "WebSocket closed" (map_to_list (pending c))
              (set_sockets (<[sock := CLOSED]> (sockets r)) r) in
  let t := nextTimer r in
  {| this :=
       {| ws := None; pending := ∅; state := reconnecting;
          connectNonce := connectNonce c; connectSent := connectSent c;
          connectTimer := None; tickTimer := None; lastTick := lastTick c;
          tickIntervalMs := tickIntervalMs c;
          backoffMs := Z.min (backoffMs c * 2) 30000;
          closed := false; reconnectTimer := Some t |};
     rt :=
       {| timers :=
            <[t := {| callback := Reconnect; delay := backoffMs c;
                      repeating := false |}]>
              (disarm (reconnectTimer c)
                 (disarm (tickTimer c)
                    (disarm (connectTimer c) (timers r1))));
          nextTimer := S t;
          sockets := sockets r1;
          nextSocket := nextSocket r;
          signJobs := signJobs r;
          nextJob := nextJob r;
          microtasks := [];
          trace := (trace r1 ++ stateChange (state c) reconnecting
                    ++ connectErrors "WebSocket closed" (microtasks r1))%list
       |} |}.

(** The challenge event that opens the handshake. *)
Definition challengeFrame (nonce : string) : JSON :=
  JObj [ ("event", JStr "connect.challenge");
         ("payload", JObj [("nonce", JStr nonce)]) ].

(** [localEnv] at another time. *)
Definition envAt (t : Z) : Env :=
  {| now := t; randomUUID := randomUUID localEnv;
     webSocketThrows := false; getUrl := getUrl localEnv;
     getToken := getToken localEnv; getDeviceIdentity := None;
     getDeviceAuthToken := None |}.

(** The keep-alive event. *)
Definition tickFrame : JSON := JObj [("event", JStr "tick")].

(** A hello-ok response that sets the tick interval. *)
Definition helloFrame (id : string) (tickIntervalMs : Z) : JSON :=
  JObj [ ("id", JStr id); ("ok", JBool true);
         ("payload",
          JObj [("policy", JObj [("tickIntervalMs", JNum tickIntervalMs)])]) ].

(** The effect is the sending of the request with this id. *)
Definition sends (id : string) (e : Effect) : Prop :=
  ∃ sock frame, e = ws_send sock frame ∧ req_id frame = id.

(** The bookkeeping of requests is sound: a pending request was sent and
    its promise is not settled; an armed request timeout belongs to the
    pending request it names; the promise of a request that was sent and is
    no longer pending was settled once; nothing else was settled. *)
Definition rpc_ok (w : World) : Prop :=
  let tr := trace (rt w) in
  (∀ id, is_Some (pending (this w) !! id) →
         settled id tr = 0%nat ∧ issued id tr)
  ∧ (∀ t tm id m ms aw,
       timers (rt w) !! t = Some tm → callback tm = RpcTimeout id m ms aw →
       repeating tm = false
       ∧ ∃ p, pending (this w) !! id = Some p ∧ timer p = Some t)
  ∧ (∀ id, issued id tr → pending (this w) !! id = None →
           settled id tr = 1%nat)
  ∧ (∀ id, ¬ issued id tr → settled id tr = 0%nat).

(** No request with this id was sent. *)
Definition unused (id : string) (w : World) : Prop :=
  ¬ issued id (trace (rt w)).

(** The world after the entry of [id], pending for [aw] with timer handle
    [h], was settled with outcome [o]: the entry is deleted, its timer is
    cleared, the call of [resolve] or [reject] is in the trace and the
    awaiting code is queued. *)
Definition settled_world (w : World) (id : string) (aw : Awaiter)
    (h : option nat) (o : Outcome) : World :=
  {| this := set_pending (delete id (pending (this w))) (this w);
     rt := set_microtasks (microtasks (rt w) ++ [(aw, o)])%list
             (set_trace
                (trace (rt w)
                 ++ [match o with
                     | Resolved payload => resolve id payload
                     | Rejected message code => reject id message code
                     end])%list
                (set_timers (disarm h (timers (rt w))) (rt w))) |}.

(** A successful response frame: [{id, ok: true, payload}]. *)
Definition okResponse (id : string) (payload : JSON) : JSON :=
  JObj [ ("id", JStr id); ("ok", JBool true); ("payload", payload) ].

End WsGatewayClientSpec.

(** ** Invariants of the WebSocket client *)

Module WsGatewayClientInvariants.
Import WsGatewayClient WsGatewayClientSpec.

(** Every armed timer of the client itself is the one the matching field
    holds the handle of. *)
Definition owned (w : World) : Prop :=
  ∀ t tm, timers (rt w) !! t = Some tm →
    match callback tm with
    | RpcTimeout _ _ _ _ => True
    | ConnectTimeout => connectTimer (this w) = Some t
    | TickWatch => tickTimer (this w) = Some t
    | Reconnect => reconnectTimer (this w) = Some t ∧ repeating tm = false
    end.

(** The delay a timer may have been armed with. *)
Definition timer_ok (tm : Timer) : Prop :=
  match callback tm with
  | RpcTimeout _ _ timeoutMs _ => delay tm = timeoutMs
  | ConnectTimeout => delay tm = 5000
  | TickWatch => (1000 ≤ delay tm)%Z
  | Reconnect => (1000 ≤ delay tm ≤ 30000)%Z
  end.

(** The backoff, the tick interval and the delays of the armed timers are
    within their bounds. *)
Definition bounded (w : World) : Prop :=
  (1000 ≤ backoffMs (this w) ≤ 30000)%Z
  ∧ (0 < tickIntervalMs (this w))%Z
  ∧ ∀ t tm, timers (rt w) !! t = Some tm → timer_ok tm.

End WsGatewayClientInvariants.

(** ** Notions used in the statements about single turns *)

Module WsGatewayClientTurns.
Import WsGatewayClient WsGatewayClientSpec.

(** The device token of a hello-ok payload, as [sendConnect] reports it when
    the client has a device identity. *)
Definition tokenNotice (env : Env) (hasIdentity : bool) (helloOk : option JSON)
  : list Effect :=
  let authInfo := oprop "auth" helloOk in
  if truthy (oprop "deviceToken" authInfo) && hasIdentity then
    [onDeviceTokenReceived
       (default JNull (oprop "deviceToken" authInfo))
       (nullish (oprop "role" authInfo) (JStr "operator"))
       (nullish (oprop "scopes" authInfo)
                (JArr [JStr "operator.read"; JStr "operator.write"]))
       (now env)]
  else [].

(** A frame that is neither a connect challenge, nor a tick, nor a
    response. *)
Definition other_frame (parsed : option JSON) : Prop :=
  match parsed with
  | None => True
  | Some obj =>
    match prop "event" obj with
    | Some (JStr event) => event ≠ "connect.challenge" ∧ event ≠ "tick"
    | _ =>
      ∀ id ok, ¬ (prop "id" obj = Some (JStr id)
                  ∧ prop "ok" obj = Some (JBool ok))
    end
  end.

(** A chat event frame. *)
Definition chatFrame (payload : JSON) : JSON :=
  JObj [ ("event", JStr "chat"); ("payload", payload) ].

End WsGatewayClientTurns.

(** ** Notions used in the statements about the backoff *)

Module WsGatewayClientBackoff.
Import WsGatewayClient WsGatewayClientSpec.





End WsGatewayClientBackoff.

(** * Theorems *)

(** ** Strings *)

Module StrFacts.
Import Str.

Lemma str_app_cons c s t : String c s +:+ t = String c (s +:+ t).
Proof. reflexivity. Qed.

Lemma str_app_nil_l t : "" +:+ t = t.
Proof. reflexivity. Qed.

Lemma str_app_nil_r s : s +:+ "" = s.
Proof. induction s as [|c s IH]; [done | by rewrite str_app_cons, IH]. Qed.

Lemma str_app_assoc s t u : (s +:+ t) +:+ u = s +:+ (t +:+ u).
Proof. induction s as [|c s IH]; [done | by rewrite !str_app_cons, IH]. Qed.

Lemma str_length_app s t :
  String.length (s +:+ t) = (String.length s + String.length t)%nat.
Proof.
  induction s as [|c s IH]; [done |].
  rewrite str_app_cons. cbn [String.length]. by rewrite IH.
Qed.

(** Cancellation of a common suffix. *)
Lemma str_app_inv_tail s t u : s +:+ u = t +:+ u → s = t.
Proof.
  revert t. induction s as [|c s IH]; intros [|d t] H.
  - done.
  - apply (f_equal String.length) in H.
    rewrite str_app_nil_l, str_app_cons in H. cbn [String.length] in H.
    rewrite str_length_app in H. lia.
  - apply (f_equal String.length) in H.
    rewrite str_app_nil_l, str_app_cons in H. cbn [String.length] in H.
    rewrite str_length_app in H. lia.
  - rewrite !str_app_cons in H. injection H as -> H. f_equal. by apply IH.
Qed.

Lemma prefix_app needle rest : String.prefix needle (needle +:+ rest) = true.
Proof.
  induction needle as [|c n IH].
  - by destruct rest.
  - rewrite str_app_cons. cbn [String.prefix].
    destruct (ascii_dec c c); [exact IH | done].
Qed.

Lemma includes_here needle rest : includes needle (needle +:+ rest) = true.
Proof.
  pose proof (prefix_app needle rest) as Hp.
  destruct (needle +:+ rest); cbn [includes]; by rewrite Hp.
Qed.

Lemma includes_skip needle c s :
  includes needle s = true → includes needle (String c s) = true.
Proof. intros H. cbn [includes]. rewrite H. apply orb_true_r. Qed.

Lemma includes_app needle pre rest :
  includes needle (pre +:+ needle +:+ rest) = true.
Proof.
  induction pre as [|c pre IH].
  - rewrite str_app_nil_l. apply includes_here.
  - rewrite str_app_cons. by apply includes_skip.
Qed.

Lemma includes_prefix needle pre s :
  includes needle s = true → includes needle (pre +:+ s) = true.
Proof.
  intros H. induction pre as [|c pre IH]; [done |].
  rewrite str_app_cons. by apply includes_skip.
Qed.

End StrFacts.

(** ** Device identity *)

Module DeviceIdentityFacts.
Import DeviceIdentity StrFacts.

Lemma hex_byte_shape b :
  ∃ h l, padStart 2 "0" (toString16 b) = String h (String l "")
         ∧ is_lower_hex h = true ∧ is_lower_hex l = true.
Proof. destruct b; do 2 eexists; (split; [reflexivity | by split]). Qed.

Lemma hexEncode_cons b bs :
  hexEncode (b :: bs) = padStart 2 "0" (toString16 b) +:+ hexEncode bs.
Proof.
  unfold hexEncode. cbn [map String.concat].
  destruct (map _ bs) eqn:E; [by rewrite str_app_nil_r | done].
Qed.

(** The hex encoding consists of the digits 0-9 and a-f only. *)
Lemma hexEncode_lower_hex bs : Str.all is_lower_hex (hexEncode bs) = true.
Proof.
  induction bs as [|b bs IH]; [done |].
  rewrite hexEncode_cons.
  destruct (hex_byte_shape b) as (h & l & -> & Hh & Hl).
  rewrite !str_app_cons, str_app_nil_l. cbn [Str.all].
  by rewrite Hh, Hl, IH.
Qed.

Lemma hexEncode_length bs :
  String.length (hexEncode bs) = (2 * length bs)%nat.
Proof.
  induction bs as [|b bs IH]; [done |].
  rewrite hexEncode_cons.
  destruct (hex_byte_shape b) as (h & l & -> & _ & _).
  rewrite str_length_app, IH. cbn [String.length length]. lia.
Qed.

(** Two texts that agree up to their first comma agree before and after it. *)
Lemma split_at_comma a b x y :
  comma_free a = true → comma_free b = true →
  a +:+ "," +:+ x = b +:+ "," +:+ y → a = b ∧ x = y.
Proof.
  revert b. induction a as [|c a IH]; intros [|d b] Ha Hb H.
  - rewrite !str_app_nil_l in H. by injection H.
  - rewrite str_app_nil_l, !str_app_cons in H. injection H as <- _.
    by cbn in Hb.
  - rewrite str_app_nil_l, !str_app_cons in H. injection H as -> _.
    by cbn in Ha.
  - rewrite !str_app_cons in H. injection H as -> H.
    cbn in Ha, Hb. apply andb_true_iff in Ha as [_ Ha], Hb as [_ Hb].
    destruct (IH b Ha Hb H) as [-> ->]. done.
Qed.

(** Joining with commas loses nothing on comma-free scopes. *)
Lemma join_comma_inj (s1 s2 : list string) :
  Forall (λ s, comma_free s = true) s1 →
  Forall (λ s, comma_free s = true) s2 →
  length s1 = length s2 →
  String.concat "," s1 = String.concat "," s2 → s1 = s2.
Proof.
  intros H1. revert s2.
  induction H1 as [|a l1 Ha Hl1 IH]; intros s2 H2 Hlen Heq.
  - by destruct s2.
  - destruct H2 as [|b l2 Hb Hl2]; [done |].
    cbn in Hlen. injection Hlen as Hlen.
    destruct l1 as [|c l1], l2 as [|d l2]; try done.
    + cbn in Heq. by subst.
    + change (a +:+ "," +:+ String.concat "," (c :: l1)
              = b +:+ "," +:+ String.concat "," (d :: l2)) in Heq.
      destruct (split_at_comma _ _ _ _ Ha Hb Heq) as [-> Hrest].
      f_equal. by apply IH.
Qed.

Lemma payload_format p :
  buildDeviceAuthPayload p =
    "v2" +:+ "|" +:+ ap_deviceId p +:+ "|" +:+ ap_clientId p +:+ "|"
    +:+ ap_clientMode p +:+ "|" +:+ ap_role p +:+ "|"
    +:+ String.concat "," (ap_scopes p) +:+ "|"
    +:+ Str.of_number (ap_signedAtMs p) +:+ "|"
    +:+ default "" (ap_token p) +:+ "|" +:+ ap_nonce p.
Proof. reflexivity. Qed.

(** The payloads of two parameter records that differ in their scopes only
    are equal exactly when the comma-joined scopes are. *)
Lemma payload_scopes_eq p s1 s2 :
  buildDeviceAuthPayload (with_scopes p s1)
  = buildDeviceAuthPayload (with_scopes p s2)
  ↔ String.concat "," s1 = String.concat "," s2.
Proof.
  rewrite !payload_format. cbn [with_scopes ap_deviceId ap_clientId
    ap_clientMode ap_role ap_scopes ap_signedAtMs ap_token ap_nonce].
  split; [| by intros ->].
  intros H. do 10 apply (inj (String.append _)) in H.
  by apply str_app_inv_tail in H.
Qed.

(** C6, as stated, fails: the scopes "x" and "x,x" are different, and the
    payload is the same in either order. *)
Lemma C6_swap_counterexample :
  let p := {| ap_deviceId := "dev"; ap_clientId := "webchat-ui";
              ap_clientMode := "webchat"; ap_role := "operator";
              ap_scopes := []; ap_signedAtMs := 1234567890000;
              ap_token := Some "tok"; ap_nonce := "nonce" |} in
  "x" ≠ "x,x"
  ∧ buildDeviceAuthPayload (with_scopes p ["x"; "x,x"])
    = buildDeviceAuthPayload (with_scopes p ["x,x"; "x"])
  ∧ buildDeviceAuthPayload (with_scopes p ["x"; "x,x"])
    = "v2|dev|webchat-ui|webchat|operator|x,x,x|1234567890000|tok|nonce".
Proof. split; [done | split; reflexivity]. Qed.

(** C6 (amended).  For every input whose signedAtMs is a safe integer,
    [buildDeviceAuthPayload] returns exactly the fields "v2", deviceId,
    clientId, clientMode, role, the scopes comma-joined in the given order,
    signedAtMs in decimal, the token (the empty string when it is null) and
    the nonce, joined by "|".  The comma-joined scopes occur in the payload
    as given, and two scope lists of the same length whose scopes contain no
    comma give different payloads whenever they differ, as when two distinct
    scopes are swapped. *)
Theorem C6_buildDeviceAuthPayload p :
  Str.isSafeInteger (ap_signedAtMs p) = true →
  buildDeviceAuthPayload p =
    "v2" +:+ "|" +:+ ap_deviceId p +:+ "|" +:+ ap_clientId p +:+ "|"
    +:+ ap_clientMode p +:+ "|" +:+ ap_role p +:+ "|"
    +:+ String.concat "," (ap_scopes p) +:+ "|"
    +:+ Str.of_number (ap_signedAtMs p) +:+ "|"
    +:+ default "" (ap_token p) +:+ "|" +:+ ap_nonce p
  ∧ Str.includes (String.concat "," (ap_scopes p))
                 (buildDeviceAuthPayload p) = true
  ∧ (∀ s1 s2,
       Forall (λ s, comma_free s = true) s1 →
       Forall (λ s, comma_free s = true) s2 →
       length s1 = length s2 →
       s1 ≠ s2 →
       buildDeviceAuthPayload (with_scopes p s1)
       ≠ buildDeviceAuthPayload (with_scopes p s2)).
Proof.
  intros _. split; [exact (payload_format p) | split].
  - rewrite payload_format.
    do 10 apply includes_prefix. apply includes_here.
  - intros s1 s2 H1 H2 Hlen Hne Heq. apply Hne.
    apply payload_scopes_eq in Heq. by apply join_comma_inj.
Qed.

(** Swapping "operator.read" and "operator.write", the scopes of the connect
    call, changes the payload, and each payload shows its own order. *)
Lemma C6_witness :
  let p := {| ap_deviceId := "dev"; ap_clientId := "webchat-ui";
              ap_clientMode := "webchat"; ap_role := "operator";
              ap_scopes := []; ap_signedAtMs := 1234567890000;
              ap_token := None; ap_nonce := "nonce" |} in
  buildDeviceAuthPayload (with_scopes p ["operator.read"; "operator.write"])
  ≠ buildDeviceAuthPayload (with_scopes p ["operator.write"; "operator.read"])
  ∧ buildDeviceAuthPayload (with_scopes p ["operator.read"; "operator.write"])
    = "v2|dev|webchat-ui|webchat|operator|operator.read,operator.write|1234567890000||nonce".
Proof.
  intros p. split; [| reflexivity].
  assert (Hsafe : Str.isSafeInteger (ap_signedAtMs p) = true)
    by (by vm_compute).
  apply (proj2 (proj2 (C6_buildDeviceAuthPayload p Hsafe))).
  - repeat constructor.
  - repeat constructor.
  - reflexivity.
  - discriminate.
Defined.

End DeviceIdentityFacts.

(** ** Chat events *)

Module GatewayClientFacts.
Import GatewayClient StrFacts.

Lemma concat_empty_cons x l :
  String.concat "" (x :: l) = x +:+ String.concat "" l.
Proof. destruct l; cbn [String.concat]; [by rewrite str_app_nil_r | done]. Qed.

Lemma filter_nil_iff {A} (f : A → bool) l :
  List.filter f l = [] ↔ ∀ x, x ∈ l → f x = false.
Proof.
  induction l as [|a l IH]; cbn [List.filter].
  - split; [intros _ x Hx; by apply elem_of_nil in Hx | done].
  - destruct (f a) eqn:E; split.
    + done.
    + intros H. specialize (H a (list_elem_of_here _ _)). congruence.
    + intros H x Hx. apply elem_of_cons in Hx as [-> | Hx]; [done |].
      by apply IH.
    + intros H. apply IH. intros x Hx. apply H. by apply elem_of_cons; right.
Qed.

Lemma truthy_false s : truthy s = false ↔ s = None ∨ s = Some "".
Proof.
  destruct s as [t|]; cbn [truthy].
  - rewrite negb_false_iff, String.eqb_eq. split; [intros ->; by right |].
    by intros [? | [= ->]].
  - split; [by left | done].
Qed.

(** The text extraction yields null exactly on a message without a text
    block that has text. *)
Lemma extract_None message :
  extractTextFromChatMessage message = None ↔ noText message.
Proof.
  unfold extractTextFromChatMessage, noText.
  destruct message as [m|]; [| by split].
  destruct (content m) as [blocks|] eqn:Hc.
  2: { split; [| done]. intros _ m' blocks c [= <-] Hc'. congruence. }
  destruct (List.filter _ blocks) as [|c0 rest] eqn:Hf;
    cbn [map length Nat.ltb Nat.leb].
  - split; [| done]. intros _ m' blocks' c [= <-] Hc' Hin Hty.
    rewrite Hc in Hc'. injection Hc' as <-.
    pose proof (proj1 (filter_nil_iff _ _) Hf c Hin) as Hfalse.
    cbn beta in Hfalse. rewrite Hty in Hfalse. cbn in Hfalse.
    by apply truthy_false.
  - split; [done |]. intros H. exfalso.
    assert (Hin : c0 ∈ List.filter
              (λ c, String.eqb (type c) "text" && truthy (text c)) blocks)
      by (rewrite Hf; apply list_elem_of_here).
    apply list_elem_of_In, List.filter_In in Hin as [Hin Hp].
    apply andb_true_iff in Hp as [Hty Htr]. apply String.eqb_eq in Hty.
    apply list_elem_of_In in Hin.
    pose proof (H m blocks c0 eq_refl Hc Hin Hty) as Hno.
    apply truthy_false in Hno. congruence.
Qed.

(** What it yields otherwise is the text of the blocks of type "text",
    concatenated in order. *)
Lemma extract_Some message t :
  extractTextFromChatMessage message = Some t →
  t = String.concat "" (textBlocks message).
Proof.
  unfold extractTextFromChatMessage, textBlocks.
  destruct message as [m|]; [| done].
  destruct (content m) as [blocks|]; [| done].
  change (default [] (Some blocks)) with blocks.
  destruct (0 <? _)%nat; [| done]. intros [= <-].
  induction blocks as [|c blocks IH]; [done |]. cbn [List.filter].
  destruct (String.eqb (type c) "text"); cbn [andb]; [| exact IH].
  destruct (truthy (text c)) eqn:Htr; cbn [map].
  - by rewrite !concat_empty_cons, IH.
  - rewrite concat_empty_cons, <- IH.
    apply truthy_false in Htr as [-> | ->]; reflexivity.
Qed.

Lemma handleChatEvent_unregistered ev reg :
  reg !! runId ev = None → handleChatEvent ev reg = (reg, []).
Proof. intros H. unfold handleChatEvent. by rewrite H. Qed.

(** Handling an event never adds a registration. *)
Lemma handleChatEvent_absent ev reg run :
  reg !! run = None → (handleChatEvent ev reg).1 !! run = None.
Proof.
  intros H. unfold handleChatEvent.
  destruct (reg !! runId ev) as [l|]; [| done].
  destruct (state ev), (extractTextFromChatMessage (message ev));
    cbn; try done; by apply lookup_delete_None; right.
Qed.

Lemma handleChatEvents_absent evs reg run :
  reg !! run = None → (handleChatEvents evs reg).1 !! run = None.
Proof.
  revert reg. induction evs as [|e evs IH]; intros reg H; [done |].
  cbn [handleChatEvents]. unfold andThen.
  pose proof (handleChatEvent_absent e reg run H) as H1.
  destruct (handleChatEvent e reg) as [reg1 c1]. cbn [fst] in H1.
  specialize (IH reg1 H1).
  by destruct (handleChatEvents evs reg1) as [reg2 c2].
Qed.

(** C5, as stated, fails: the run is registered, the delta event has one
    text block, whose text is empty, so the concatenated text of its text
    blocks is the empty string; no callback is invoked. *)
Lemma C5_delta_counterexample :
  let reg := registerListener "run-1" 7 ∅ in
  let ev := {| runId := "run-1"; sessionKey := "main:123:abc"; seq := 1;
               state := delta;
               message := Some {| role := "assistant";
                                  content := Some [{| type := "text";
                                                      text := Some "" |}];
                                  timestamp := 0 |};
               errorMessage := None |} in
  reg !! runId ev = Some {| owner := 7; captured := "run-1" |}
  ∧ String.concat "" (textBlocks (message ev)) = ""
  ∧ handleChatEvent ev reg = (reg, []).
Proof. split; [| split]; by vm_compute. Qed.

(** C5 (amended).  For a registered chat run: a delta event invokes onChunk
    with the concatenated text of the message's text blocks when one of them
    has non-empty text, and invokes nothing otherwise; a final event invokes
    onChunk under the same condition, then onDone, and removes the
    registration; an error event invokes onError with the gateway's message
    (or "Unknown gateway error") and removes the registration; an aborted
    event invokes onDone and removes the registration.  Once a final, error
    or aborted event was handled, no later event of that run invokes a
    callback, whatever events come in between. *)
Theorem C5_handleChatEvent reg ev l :
  registered_by_send reg →
  reg !! runId ev = Some l →
  let chunk :=
    match extractTextFromChatMessage (message ev) with
    | Some t => [onChunk (owner l) t]
    | None => []
    end in
  (∀ t, extractTextFromChatMessage (message ev) = Some t →
        t = String.concat "" (textBlocks (message ev)))
  ∧ (extractTextFromChatMessage (message ev) = None ↔ noText (message ev))
  ∧ handleChatEvent ev reg =
      match state ev with
      | delta => (reg, chunk)
      | final => (delete (runId ev) reg, (chunk ++ [onDone (owner l)])%list)
      | error =>
        (delete (runId ev) reg,
         [onError (owner l)
                  (default "Unknown gateway error" (errorMessage ev))])
      | aborted => (delete (runId ev) reg, [onDone (owner l)])
      end
  ∧ (state ev ≠ delta →
     ∀ later ev', runId ev' = runId ev →
       let reg1 := (handleChatEvents later (handleChatEvent ev reg).1).1 in
       handleChatEvent ev' reg1 = (reg1, [])).
Proof.
  intros Hwf Hl chunk.
  assert (Hrun :
    handleChatEvent ev reg =
      match state ev with
      | delta => (reg, chunk)
      | final => (delete (runId ev) reg, (chunk ++ [onDone (owner l)])%list)
      | error =>
        (delete (runId ev) reg,
         [onError (owner l)
                  (default "Unknown gateway error" (errorMessage ev))])
      | aborted => (delete (runId ev) reg, [onDone (owner l)])
      end).
  { unfold handleChatEvent, chunk. rewrite Hl, <- (Hwf _ _ Hl).
    by destruct (state ev), (extractTextFromChatMessage (message ev)). }
  split; [apply extract_Some | split; [apply extract_None | split; [exact Hrun |]]].
  intros Hterminal later ev' Hsame reg1.
  apply handleChatEvent_unregistered. rewrite Hsame.
  apply handleChatEvents_absent. rewrite Hrun.
  destruct (state ev); [done | | |]; apply lookup_delete_eq.
Qed.

(** The scenario of the spec: deltas "Hel" and "Hello", then final "Hello!",
    then a stray delta of the same run. *)
Lemma C5_witness :
  let textMessage t :=
    Some {| role := "assistant";
            content := Some [{| type := "text"; text := Some t |}];
            timestamp := 0 |} in
  let event st t :=
    {| runId := "run-1"; sessionKey := "main:123:abc"; seq := 0; state := st;
       message := textMessage t; errorMessage := None |} in
  let reg := registerListener "run-1" 7 ∅ in
  handleChatEvent (event final "Hello!") reg
  = (∅, [onChunk 7 "Hello!"; onDone 7])
  ∧ handleChatEvents [event delta "Hel"; event delta "Hello";
                      event final "Hello!"; event delta "late"] reg
    = (∅, [onChunk 7 "Hel"; onChunk 7 "Hello"; onChunk 7 "Hello!"; onDone 7]).
Proof.
  intros textMessage event reg.
  assert (Hwf : registered_by_send reg).
  { intros run l H. unfold reg, registerListener in H.
    apply lookup_insert_Some in H as [[<- <-] | [_ H]]; [done |].
    by rewrite lookup_empty in H. }
  destruct (C5_handleChatEvent reg (event final "Hello!")
              {| owner := 7; captured := "run-1" |} Hwf)
    as (_ & _ & Hrun & _); [by vm_compute |].
  split; [| by vm_compute].
  rewrite Hrun. by vm_compute.
Defined.

(** C10.  A delta or final event whose message has no content block of type
    "text" with non-empty text invokes no onChunk: the extraction yields
    null, not the empty string.  For such a final event of a registered run,
    onDone is still invoked, and the registration is removed. *)
Theorem C10_no_text_no_chunk reg ev :
  noText (message ev) →
  extractTextFromChatMessage (message ev) = None
  ∧ (state ev = delta ∨ state ev = final →
     chunkCalls (handleChatEvent ev reg).2 = [])
  ∧ (∀ l, registered_by_send reg → reg !! runId ev = Some l →
          (state ev = delta → handleChatEvent ev reg = (reg, []))
          ∧ (state ev = final →
             handleChatEvent ev reg
             = (delete (runId ev) reg, [onDone (owner l)]))).
Proof.
  intros Hno. apply extract_None in Hno as Hx.
  split; [done | split].
  - intros Hst. unfold handleChatEvent. rewrite Hx.
    destruct (reg !! runId ev) as [l|]; [| done].
    by destruct Hst as [-> | ->].
  - intros l Hwf Hl. unfold handleChatEvent.
    rewrite Hl, Hx, <- (Hwf _ _ Hl). by split; intros ->.
Qed.

(** A final event that carries an image block and a text block without text:
    completion only. *)
Lemma C10_witness :
  let ev := {| runId := "run-1"; sessionKey := "main:123:abc"; seq := 3;
               state := final;
               message := Some {| role := "assistant";
                                  content := Some [{| type := "image";
                                                      text := Some "x" |};
                                                   {| type := "text";
                                                      text := None |}];
                                  timestamp := 0 |};
               errorMessage := None |} in
  let reg := registerListener "run-1" 7 ∅ in
  chunkCalls (handleChatEvent ev reg).2 = []
  ∧ handleChatEvent ev reg = (∅, [onDone 7]).
Proof.
  intros ev reg.
  assert (Hno : noText (message ev)).
  { intros m blocks c [= <-] [= <-] Hin Hty.
    apply elem_of_cons in Hin as [-> | Hin]; [done |].
    apply elem_of_cons in Hin as [-> | Hin]; [by left |].
    by apply elem_of_nil in Hin. }
  destruct (C10_no_text_no_chunk reg ev Hno) as (_ & Hchunk & _).
  split; [apply Hchunk; by right | by vm_compute].
Defined.

End GatewayClientFacts.

(** ** The WebSocket client *)

Module WsGatewayClientFacts.
Import WsGatewayClient WsGatewayClientSpec StrFacts.

(** *** Reasoning about methods *)

Lemma hoare_bind {A B} P R Q (m : M A) (k : A → M B) :
  hoare P m R → (∀ a, hoare (R a) (k a) Q) → hoare P (m ≫= k) Q.
Proof.
  intros Hm Hk w HP. unfold mbind, M_bind.
  specialize (Hm w HP). destruct (m w) as [a w']. by apply Hk.
Qed.

Lemma hoare_weaken {A} (P P' : World → Prop) (Q Q' : A → World → Prop) m :
  hoare P' m Q' → (∀ w, P w → P' w) → (∀ a w, Q' a w → Q a w) →
  hoare P m Q.
Proof. intros H HP HQ w Hw. apply HQ, H, HP, Hw. Qed.

Lemma pres_bind {A B} I (m : M A) (k : A → M B) :
  preserves I m → (∀ a, preserves I (k a)) → preserves I (m ≫= k).
Proof. intros Hm Hk. by apply (hoare_bind _ (λ _, I)). Qed.

Lemma pres_ret {A} I (a : A) : preserves I (mret a).
Proof. by intros w H. Qed.

Lemma pres_pass I : preserves I pass.
Proof. by intros w H. Qed.

Lemma pres_get {A} I (f : Client → A) : preserves I (get f).
Proof. by intros w H. Qed.

Lemma pres_getR {A} I (f : Runtime → A) : preserves I (getR f).
Proof. by intros w H. Qed.

Lemma pres_forEach {A} I (f : A → M unit) l :
  (∀ x, preserves I (f x)) → preserves I (forEach f l).
Proof.
  intros Hf. induction l as [|x l IH]; [apply pres_pass |].
  cbn [forEach]. apply pres_bind; [apply Hf | by intros _].
Qed.

Lemma exec_bind {A B} (m : M A) (k : A → M B) w :
  exec (m ≫= k) w = exec (k (m w).1) (m w).2.
Proof. unfold exec, mbind, M_bind. by destruct (m w). Qed.

Lemma run_app t1 t2 w : run (t1 ++ t2) w = run t2 (run t1 w).
Proof.
  revert w. induction t1 as [|[env ev] t1 IH]; intros w; [done |].
  cbn [run app]. apply IH.
Qed.

(** The head constant of a method call. *)
Ltac head_of m :=
  lazymatch m with
  | ?f _ _ _ _ _ _ => f
  | ?f _ _ _ _ _ => f
  | ?f _ _ _ _ => f
  | ?f _ _ _ => f
  | ?f _ _ => f
  | ?f _ => f
  | ?f => f
  end.

(** Walks through a method: sequencing, reads, branches, loops; [leaf]
    closes the statements that matter to the invariant at hand, and any
    other method is opened. *)
Ltac pres_walk leaf :=
  repeat
    (cbv beta zeta;
     lazymatch goal with
     | |- preserves _ (mbind _ _) => apply pres_bind; [| intros ?]
     | |- preserves _ (mret _) => apply pres_ret
     | |- preserves _ pass => apply pres_pass
     | |- preserves _ (get _) => apply pres_get
     | |- preserves _ (getR _) => apply pres_getR
     | |- preserves _ (forEach _ _) => apply pres_forEach; intros ?
     | |- preserves _ (match ?x with _ => _ end) => destruct x
     | |- preserves _ ?m =>
       first [ leaf | let h := head_of m in progress unfold h ]
     end).

(** *** State-change notifications *)

Lemma no_repeat_snoc {A} (l : list A) a b :
  no_repeat l → last l = Some a → a ≠ b → no_repeat (l ++ [b]).
Proof.
  intros Hl Hlast Hne i x y Hx Hy.
  destruct (decide (S i < length l)%nat) as [Hlt | Hge].
  - rewrite lookup_app_l in Hx by lia. rewrite lookup_app_l in Hy by lia.
    by apply (Hl i).
  - assert (Hi : S i = length l).
    { apply lookup_lt_Some in Hy. rewrite length_app in Hy. cbn in Hy. lia. }
    rewrite lookup_app_l in Hx by lia.
    rewrite lookup_app_r in Hy by lia.
    replace (S i - length l)%nat with 0%nat in Hy by lia. injection Hy as <-.
    rewrite last_lookup in Hlast.
    replace (Nat.pred (length l)) with i in Hlast by lia.
    congruence.
Qed.

Lemma no_repeat_tail {A} (a : A) l : no_repeat (a :: l) → no_repeat l.
Proof. intros H i x y Hx Hy. by apply (H (S i)). Qed.

Lemma notifications_snoc tr e :
  notifications (tr ++ [e])
  = (notifications tr
     ++ match e with onStateChange st => [st] | _ => [] end)%list.
Proof. unfold notifications. rewrite omap_app. by destruct e. Qed.

Lemma notified_setState st : preserves notified (setState st).
Proof.
  intros [c r] [Hlast Hrep]. unfold setState, mbind, M_bind, get.
  cbn [this rt fst snd] in *.
  destruct (decide (state c = st)) as [Heq | Hne]; [done |].
  unfold notified. cbn. rewrite notifications_snoc.
  change (disconnected :: (?l ++ [st])%list)
    with ((disconnected :: l) ++ [st])%list.
  split; [by rewrite last_snoc |].
  by eapply no_repeat_snoc.
Qed.

Lemma notified_put f :
  (∀ c, state (f c) = state c) → preserves notified (put f).
Proof. intros Hf [c r] H. unfold notified in *. cbn in *. by rewrite Hf. Qed.

Lemma notified_putR f :
  (∀ r, trace (f r) = trace r) → preserves notified (putR f).
Proof. intros Hf [c r] H. unfold notified in *. cbn in *. by rewrite Hf. Qed.

Lemma notified_emit e :
  match e with onStateChange _ => False | _ => True end →
  preserves notified (emit e).
Proof.
  intros He [c r] H. unfold notified in *. cbn in *.
  rewrite notifications_snoc. destruct e; try done; by rewrite app_nil_r.
Qed.

Ltac notified_leaf :=
  idtac;
  lazymatch goal with
  | |- preserves _ (setState _) => apply notified_setState
  | |- preserves _ (put _) => apply notified_put; intros []; reflexivity
  | |- preserves _ (putR _) => apply notified_putR; intros []; reflexivity
  | |- preserves _ (emit (match ?o with _ => _ end)) => destruct o
  | |- preserves _ (emit _) => apply notified_emit; exact I
  end.

Lemma notified_dispatch env ev : preserves notified (dispatch env ev).
Proof. pres_walk notified_leaf. Qed.

Lemma notified_runMicrotasks env : preserves notified (runMicrotasks env).
Proof. pres_walk notified_leaf. Qed.

Lemma notified_step env ev w : notified w → notified (step env ev w).
Proof.
  intros H. unfold step, exec.
  by apply (pres_bind notified _ _ (notified_dispatch env ev)
              (λ _, notified_runMicrotasks env)).
Qed.

Lemma notified_run turns w : notified w → notified (run turns w).
Proof.
  revert w. induction turns as [|[env ev] turns IH]; intros w H; [done |].
  cbn [run]. by apply IH, notified_step.
Qed.

Lemma notified_new : notified new_World.
Proof. split; [done |]. intros [|i] a b Ha Hb; done. Qed.

(** C9.  [setState] with the current state changes nothing and invokes no
    listener; with another state it assigns it and invokes the listener once.
    Hence, whatever happens to a client, the states passed to onStateChange
    never show the same value twice in a row, and the last one is the
    current state. *)
Theorem C9_state_change_notifications :
  (∀ w st, state (this w) = st → setState st w = (tt, w))
  ∧ (∀ w st, state (this w) ≠ st →
       setState st w
       = (tt, {| this := set_state st (this w);
                 rt := set_trace (trace (rt w) ++ [onStateChange st])%list
                                 (rt w) |}))
  ∧ (∀ turns,
       let w := run turns new_World in
       no_repeat (notifications (trace (rt w)))
       ∧ last (disconnected :: notifications (trace (rt w)))
         = Some (state (this w))).
Proof.
  split; [| split].
  - intros [c r] st Hst. unfold setState, mbind, M_bind, get. cbn in *.
    by destruct (decide (state c = st)).
  - intros [c r] st Hst. unfold setState, mbind, M_bind, get. cbn in *.
    by destruct (decide (state c = st)).
  - intros turns w.
    destruct (notified_run turns new_World notified_new) as [Hlast Hrep].
    split; [by eapply no_repeat_tail | done].
Qed.

(** *** Symbolic execution of methods *)

(** Opens a world into its fields. *)
Ltac open_world w :=
  let ws0 := fresh "ws0" in
  let pend := fresh "pend" in
  let st0 := fresh "st0" in
  let nonce0 := fresh "nonce0" in
  let sent0 := fresh "sent0" in
  let ct0 := fresh "ct0" in
  let tk0 := fresh "tk0" in
  let lt0 := fresh "lt0" in
  let iv0 := fresh "iv0" in
  let bo0 := fresh "bo0" in
  let cl0 := fresh "cl0" in
  let rc0 := fresh "rc0" in
  let tm0 := fresh "tm0" in
  let nt0 := fresh "nt0" in
  let socks0 := fresh "socks0" in
  let ns0 := fresh "ns0" in
  let jobs0 := fresh "jobs0" in
  let nj0 := fresh "nj0" in
  let mt0 := fresh "mt0" in
  let tr0 := fresh "tr0" in
  destruct w as [[ws0 pend st0 nonce0 sent0 ct0 tk0 lt0 iv0 bo0 cl0 rc0]
                 [tm0 nt0 socks0 ns0 jobs0 nj0 mt0 tr0]];
  cbn [this rt ws pending state connectNonce connectSent connectTimer
       tickTimer lastTick tickIntervalMs backoffMs closed reconnectTimer
       timers nextTimer sockets nextSocket signJobs nextJob microtasks trace]
    in *.

(** Runs the monadic plumbing and the field assignments. *)
Ltac mrun :=
  cbv [exec mbind M_bind mret M_ret option_bind get put getR putR emit pass
       setTimer setTimeout setInterval clearTimeout clearInterval
       new_WebSocket readyState WebSocket_close ws_close_opt settle
       set_ws set_pending set_state set_connectNonce set_connectSent
       set_connectTimer set_tickTimer set_lastTick set_tickIntervalMs
       set_backoffMs set_closed set_reconnectTimer
       set_timers set_nextTimer set_sockets set_nextSocket set_signJobs
       set_nextJob set_microtasks set_trace
       this rt ws pending state connectNonce connectSent connectTimer
       tickTimer lastTick tickIntervalMs backoffMs closed reconnectTimer
       timers nextTimer sockets nextSocket signJobs nextJob microtasks trace
       awaiter timer callback delay repeating fst snd negb andb orb].

(** Decides the innermost test the execution is stuck on. *)
Ltac inner_case :=
  match goal with
  | |- context [match ?x with _ => _ end] =>
    lazymatch x with
    | context [match _ with _ => _ end] => fail
    | _ => destruct x eqn:?
    end
  end.

(** Runs a method to its end, branch by branch. *)
Ltac mexec := mrun; repeat (inner_case; mrun).

(** Opens the methods that have no loop. *)
Ltac mopen :=
  cbv delta [setState clearTimers scheduleReconnect connect
             queueConnectTimeout startTickWatch tickWatch connectTimeout
             start stop restart request rpcTimeout handleResponse
             sendConnect_settled sendConnect_request sendConnect
             sendConnect_signed handleEvent handleMessage onopen onclose
             runTimer dispatch runMicrotask];
  mrun.

Lemma clearTimers_spec w :
  clearTimers w
  = (tt, {| this := set_reconnectTimer None
                      (set_tickTimer None (set_connectTimer None (this w)));
            rt := set_timers
                    (disarm (reconnectTimer (this w))
                       (disarm (tickTimer (this w))
                          (disarm (connectTimer (this w)) (timers (rt w)))))
                    (rt w) |}).
Proof.
  open_world w. unfold clearTimers. mrun.
  by destruct ct0, tk0, rc0.
Qed.

Lemma scheduleReconnect_closed w :
  closed (this w) = true → scheduleReconnect w = (tt, w).
Proof. open_world w. intros ->. reflexivity. Qed.

Lemma scheduleReconnect_spec w :
  closed (this w) = false →
  let w1 := exec clearTimers w in
  let t := nextTimer (rt w) in
  scheduleReconnect w
  = (tt, {| this := set_reconnectTimer (Some t)
                      (set_backoffMs (Z.min (backoffMs (this w) * 2) 30000)
                                     (this w1));
            rt := set_nextTimer (S t)
                    (set_timers
                       (<[t := {| callback := Reconnect;
                                  delay := backoffMs (this w);
                                  repeating := false |}]> (timers (rt w1)))
                       (rt w1)) |}).
Proof.
  intros Hcl w1 t. subst w1 t. unfold exec, scheduleReconnect.
  unfold mbind at 1, M_bind at 1, get at 1. rewrite Hcl.
  unfold mbind at 1, M_bind at 1. rewrite clearTimers_spec.
  open_world w. reflexivity.
Qed.

(** *** Reconnect backoff *)

Lemma scheduleReconnect_delay w :
  closed (this w) = false →
  let w' := exec scheduleReconnect w in
  ∃ t, reconnectTimer (this w') = Some t
       ∧ timers (rt w') !! t
         = Some {| callback := Reconnect; delay := backoffMs (this w);
                   repeating := false |}
       ∧ backoffMs (this w') = Z.min (backoffMs (this w) * 2) 30000
       ∧ closed (this w') = false.
Proof.
  intros Hcl w'. subst w'. unfold exec.
  rewrite (scheduleReconnect_spec w Hcl). cbn [snd].
  eexists. split; [reflexivity |]. split; [| split].
  - cbn. apply lookup_insert_eq.
  - reflexivity.
  - unfold exec. rewrite clearTimers_spec. by open_world w.
Qed.


(** A successful connect response: backoff at its floor, the tick interval
    adopted, the watchdog armed, the state connected. *)
Lemma sendConnect_resolved env hasIdentity helloOk w :
  let w' := exec (sendConnect_settled env hasIdentity (Resolved helloOk)) w in
  backoffMs (this w') = 1000
  ∧ state (this w') = connected
  ∧ lastTick (this w') = Some (now env)
  ∧ tickIntervalMs (this w')
    = adoptedTickInterval helloOk (tickIntervalMs (this w))
  ∧ closed (this w') = closed (this w)
  ∧ ws (this w') = ws (this w)
  ∧ tickTimer (this w') = Some (nextTimer (rt w))
  ∧ timers (rt w') !! nextTimer (rt w)
    = Some {| callback := TickWatch;
              delay := Z.max (tickIntervalMs (this w')) 1000;
              repeating := true |}.
Proof.
  open_world w. unfold sendConnect_settled, adoptedTickInterval.
  unfold startTickWatch, setState. mexec;
    rewrite ?lookup_insert_eq; try done.
Qed.

(** *** Flushing the pending requests *)

Lemma flushEntry_spec message entry c r :
  flushEntry message entry {| this := c; rt := r |}
  = (tt, {| this := c; rt := flushed message [entry] r |}).
Proof. destruct entry as [id [aw [t|]]], r; reflexivity. Qed.

Lemma flushed_cons message entry entries r :
  flushed message (entry :: entries) r
  = flushed message entries (flushed message [entry] r).
Proof. destruct r. unfold flushed. cbn. by rewrite <- !app_assoc. Qed.

Lemma forEach_flush message entries c r :
  forEach (flushEntry message) entries {| this := c; rt := r |}
  = (tt, {| this := c; rt := flushed message entries r |}).
Proof.
  revert r. induction entries as [|entry entries IH]; intros r.
  - destruct r. unfold flushed. cbn. by rewrite !app_nil_r.
  - cbn [forEach]. unfold mbind, M_bind.
    by rewrite flushEntry_spec, IH, (flushed_cons _ entry entries).
Qed.

Lemma flushPending_spec message w :
  flushPending message w
  = (tt, {| this := set_pending ∅ (this w);
            rt := flushed message (map_to_list (pending (this w))) (rt w) |}).
Proof.
  destruct w as [c r]. unfold flushPending.
  unfold mbind at 1, M_bind at 1, get at 1. cbn [this].
  unfold mbind, M_bind. by rewrite forEach_flush.
Qed.

Lemma runMicrotask_rejected env message aw c r :
  isPairingRequired message None = false →
  ws c = None →
  runMicrotask env (aw, Rejected message None) {| this := c; rt := r |}
  = (tt, {| this := c;
            rt := set_trace
                    (trace r ++ connectErrors message
                                  [(aw, Rejected message None)])%list r |}).
Proof.
  intros Hnp Hws. unfold runMicrotask. cbn [fst snd].
  destruct aw as [|h].
  - destruct r. cbn. by rewrite app_nil_r.
  - unfold sendConnect_settled. rewrite Hnp.
    destruct c. cbn [ws] in Hws. subst. by destruct r.
Qed.

(** The reactions of rejected calls, none of them a pairing refusal, run
    while the client has no socket: every connect call reports its error. *)
Lemma runMicrotasks_rejected env message w :
  Forall (λ job, job.2 = Rejected message None) (microtasks (rt w)) →
  isPairingRequired message None = false →
  ws (this w) = None →
  runMicrotasks env w
  = (tt, {| this := this w;
            rt := set_trace
                    (trace (rt w)
                     ++ connectErrors message (microtasks (rt w)))%list
                    (set_microtasks [] (rt w)) |}).
Proof.
  intros Hq Hnp Hws. unfold runMicrotasks.
  unfold mbind at 1, M_bind at 1, getR at 1.
  unfold mbind at 1, M_bind at 1, putR at 1.
  destruct w as [c r]. cbn [this rt fst snd] in *.
  set (q := microtasks r) in *. clearbody q.
  assert (Hgen : ∀ r0,
    forEach (runMicrotask env) q {| this := c; rt := r0 |}
    = (tt, {| this := c;
              rt := set_trace (trace r0 ++ connectErrors message q)%list
                              r0 |})).
  { induction Hq as [|[aw o] q Ho Hq IH]; intros r0.
    - destruct r0. cbn. by rewrite app_nil_r.
    - cbn [snd] in Ho. subst o. cbn [forEach].
      unfold mbind, M_bind.
      rewrite runMicrotask_rejected, IH by done.
      destruct r0, aw; unfold connectErrors; cbn;
        by rewrite ?app_nil_r, <- ?app_assoc. }
  rewrite Hgen. by destruct r.
Qed.

(** *** Stop, start, restart *)

Lemma setState_spec st w :
  setState st w
  = (tt, {| this := set_state st (this w);
            rt := set_trace (trace (rt w) ++ stateChange (state (this w)) st)%list
                            (rt w) |}).
Proof.
  open_world w. unfold setState, stateChange. mrun.
  destruct (decide (st0 = st)) as [-> | Hne]; [| done].
  by rewrite app_nil_r.
Qed.

Lemma stop_spec w :
  stop w = (tt, {| this := stopped (this w);
                   rt := stopped_runtime (this w) (rt w) |}).
Proof.
  unfold stop.
  unfold mbind at 1, M_bind at 1, put at 1.
  unfold mbind at 1, M_bind at 1. rewrite clearTimers_spec.
  unfold mbind at 1, M_bind at 1, get at 1.
  unfold mbind at 1, M_bind at 1.
  open_world w. unfold stopped_runtime, closing.
  destruct ws0 as [sock|]; mrun; rewrite flushPending_spec; mrun;
    rewrite setState_spec; reflexivity.
Qed.

(** A statement that assigns fields the invariant does not read. *)
Ltac frame_leaf :=
  idtac;
  lazymatch goal with
  | |- preserves _ (put _) =>
    let w := fresh "w" in
    let H := fresh "H" in
    intros w H; open_world w; first [exact H | reflexivity]
  | |- preserves _ (putR _) =>
    let w := fresh "w" in
    let H := fresh "H" in
    intros w H; open_world w; first [exact H | reflexivity]
  end.

Lemma runMicrotasks_empties env w :
  microtasks (rt (exec (runMicrotasks env) w)) = [].
Proof.
  assert (H : hoare (λ _, True) (runMicrotasks env)
                    (λ _ w, microtasks (rt w) = [])).
  { unfold runMicrotasks.
    apply (hoare_bind _ (λ _ _, True)); [done | intros q].
    apply (hoare_bind _ (λ _ w, microtasks (rt w) = []));
      [by intros [c []] _ | intros _].
    change (preserves (λ w, microtasks (rt w) = [])
                      (forEach (runMicrotask env) q)).
    pres_walk frame_leaf. }
  by apply H.
Qed.

Lemma step_unfold env ev w :
  step env ev w = exec (runMicrotasks env) (exec (dispatch env ev) w).
Proof. unfold step. rewrite exec_bind. reflexivity. Qed.

(** No reaction is left over when a turn ends. *)
Lemma step_microtasks env ev w : microtasks (rt (step env ev w)) = [].
Proof. rewrite step_unfold. apply runMicrotasks_empties. Qed.

Lemma reachable_microtasks w : reachable w → microtasks (rt w) = [].
Proof. intros [|env ev w' _ _]; [done | apply step_microtasks]. Qed.

Lemma runMicrotasks_nil env w :
  microtasks (rt w) = [] → runMicrotasks env w = (tt, w).
Proof. open_world w. intros ->. reflexivity. Qed.

Lemma not_pairing_client_stopped :
  isPairingRequired "client stopped" None = false.
Proof. reflexivity. Qed.

Lemma not_pairing_closed : isPairingRequired "WebSocket closed" None = false.
Proof. reflexivity. Qed.

(** The turn in which [stop()] is called. *)
Lemma stop_step env w :
  microtasks (rt w) = [] →
  let r1 := stopped_runtime (this w) (rt w) in
  step env Stop w
  = {| this := stopped (this w);
       rt := set_trace
               (trace r1
                ++ connectErrors "client stopped"
                     (map (λ e : string * PendingRequest,
                             (awaiter e.2, Rejected "client stopped" None))
                          (map_to_list (pending (this w)))))%list
               (set_microtasks [] r1) |}.
Proof.
  intros Hmt r1. rewrite step_unfold. cbn [dispatch]. unfold exec at 2.
  rewrite stop_spec. cbn [snd]. fold r1.
  assert (Hq : microtasks r1
               = map (λ e : string * PendingRequest,
                        (awaiter e.2, Rejected "client stopped" None))
                     (map_to_list (pending (this w)))).
  { subst r1. open_world w. subst. by destruct ws0. }
  unfold exec. rewrite (runMicrotasks_rejected env "client stopped").
  - cbn [snd this rt]. by rewrite Hq.
  - cbn [rt]. rewrite Hq. apply Forall_forall. intros job Hjob.
    apply list_elem_of_fmap in Hjob as (e & -> & _). done.
  - reflexivity.
  - reflexivity.
Qed.

Lemma flushed_timers_None entries tm t id (p : PendingRequest) :
  (id, p) ∈ entries → timer p = Some t →
  foldl (λ tm (e : string * PendingRequest), disarm (timer e.2) tm) tm entries
    !! t = None.
Proof.
  revert tm. induction entries as [|e entries IH]; intros tm Hin Ht.
  - by apply elem_of_nil in Hin.
  - cbn [foldl]. apply elem_of_cons in Hin as [<- | Hin]; [| by apply IH].
    cbn [snd]. rewrite Ht. cbn [disarm].
    clear IH. generalize (lookup_delete_eq tm t).
    generalize (delete t tm). clear tm.
    induction entries as [|e entries IH]; intros tm Hnone; [done |].
    cbn [foldl]. apply IH. destruct (timer e.2) as [t'|]; [| done].
    cbn [disarm]. by apply lookup_delete_None; right.
Qed.

Lemma flushed_timers_Some entries tm t (x : Timer) :
  foldl (λ tm (e : string * PendingRequest), disarm (timer e.2) tm) tm entries
    !! t = Some x →
  tm !! t = Some x.
Proof.
  revert tm. induction entries as [|e entries IH]; intros tm H; [done |].
  cbn [foldl] in H. apply IH in H.
  destruct (timer e.2) as [t'|]; [| done].
  cbn [disarm] in H. by apply lookup_delete_Some in H as [_ H].
Qed.

Lemma disarm_lookup_Some h tm t (x : Timer) :
  disarm h tm !! t = Some x → tm !! t = Some x ∧ h ≠ Some t.
Proof.
  destruct h as [t'|]; cbn [disarm]; [| by intros ?].
  intros [Hne H]%lookup_delete_Some. split; [done | congruence].
Qed.

Lemma stopped_timers c r t :
  (tracked t c → timers (stopped_runtime c r) !! t = None)
  ∧ (∀ x, timers (stopped_runtime c r) !! t = Some x → timers r !! t = Some x).
Proof.
  assert (Hsome : ∀ x, timers (stopped_runtime c r) !! t = Some x →
    timers r !! t = Some x ∧ connectTimer c ≠ Some t
    ∧ tickTimer c ≠ Some t ∧ reconnectTimer c ≠ Some t
    ∧ ∀ id p, pending c !! id = Some p → timer p ≠ Some t).
  { intros x H. unfold stopped_runtime, closing in H.
    assert (H' : foldl (λ tm (e : string * PendingRequest),
                          disarm (timer e.2) tm)
                   (disarm (reconnectTimer c)
                      (disarm (tickTimer c)
                         (disarm (connectTimer c) (timers r))))
                   (map_to_list (pending c)) !! t = Some x)
      by (destruct (ws c); exact H).
    clear H. split_and!.
    - apply flushed_timers_Some in H'.
      by do 3 apply disarm_lookup_Some in H' as [H' _].
    - apply flushed_timers_Some in H'.
      by do 2 apply disarm_lookup_Some in H' as [H' _];
        apply disarm_lookup_Some in H' as [_ ?].
    - apply flushed_timers_Some in H'.
      by apply disarm_lookup_Some in H' as [H' _];
        apply disarm_lookup_Some in H' as [_ ?].
    - apply flushed_timers_Some in H'.
      by apply disarm_lookup_Some in H' as [_ ?].
    - intros id p Hp Ht.
      rewrite (flushed_timers_None _ _ t id p) in H'; [done | | done].
      by apply elem_of_map_to_list. }
  split; [| by intros x [? _]%Hsome].
  intros Htr. destruct (timers (stopped_runtime c r) !! t) as [x|] eqn:E;
    [| done].
  destruct (Hsome x eq_refl) as (_ & H1 & H2 & H3 & H4).
  destruct Htr as [? | [? | [? | (id & p & Hp & Ht)]]]; try done.
  by destruct (H4 id p Hp).
Qed.

(** [start()] on a stopped client does nothing. *)
Lemma start_closed env w :
  closed (this w) = true → microtasks (rt w) = [] → step env Start w = w.
Proof.
  intros Hcl Hmt. rewrite step_unfold. cbn [dispatch].
  assert (Hst : exec (start env) w = w).
  { open_world w. subst. reflexivity. }
  rewrite Hst. unfold exec. by rewrite runMicrotasks_nil.
Qed.

(** Only [restart()] takes the client out of the stopped condition. *)
Lemma closed_until_restart env ev w :
  ev ≠ Restart → closed (this w) = true →
  closed (this (step env ev w)) = true.
Proof.
  intros Hev Hcl. unfold step, exec.
  apply (pres_bind (λ w, closed (this w) = true)); [| | exact Hcl].
  - destruct ev; try done; pres_walk frame_leaf.
  - intros _. pres_walk frame_leaf.
Qed.

(** The turn in which [restart()] is called on a client at rest. *)
Lemma restart_at_rest env c r :
  ws c = None → pending c = ∅ →
  connectTimer c = None → tickTimer c = None → reconnectTimer c = None →
  state c = disconnected → microtasks r = [] →
  webSocketThrows env = false →
  step env Restart {| this := c; rt := r |}
  = {| this := set_ws (Some (nextSocket r))
                 (set_state connecting
                    (set_connectSent false
                       (set_connectNonce None (set_closed false c))));
       rt := set_trace
               (trace r ++ [onStateChange connecting;
                            ws_new (nextSocket r) (resolveWsUrl (getUrl env))])
               (set_nextSocket (S (nextSocket r))
                  (set_sockets (<[nextSocket r := CONNECTING]> (sockets r))
                     r)) |}.
Proof.
  intros Hws Hp Hct Htk Hrc Hst Hmt Hthrow.
  rewrite step_unfold. cbn [dispatch].
  destruct c, r. cbn in Hws, Hp, Hct, Htk, Hrc, Hst, Hmt. subst.
  unfold exec at 2. mopen. rewrite flushPending_spec. mopen.
  rewrite map_to_list_empty, Hthrow. unfold flushed. mopen.
  inner_case; [done |]. mrun.
  unfold exec. rewrite runMicrotasks_nil by done. cbn [snd].
  cbn [foldl map app]. rewrite app_nil_r, <- app_assoc. reflexivity.
Qed.

(** C2, as stated, fails: a client is started, its socket opens, it is
    stopped, and [start()] is called again.  The stopped world is left as it
    is: the state stays disconnected, there is no socket, and nothing is
    added to the trace, which shows one [new WebSocket] only. *)
Lemma C2_start_after_stop_counterexample :
  let w1 := run [(localEnv, Start); (localEnv, WsOpen 1); (localEnv, Stop)]
                new_World in
  let w2 := step localEnv Start w1 in
  w2 = w1
  ∧ state (this w2) = disconnected
  ∧ ws (this w2) = None
  ∧ trace (rt w2)
    = [onStateChange connecting; ws_new 1 "ws://localhost:18789";
       onStateChange authenticating;
       ws_close 1 (Some 1000) (Some "client stopped");
       onStateChange disconnected].
Proof. by vm_compute. Qed.

(** C2 (amended).  In the turn in which [stop()] is called, the client is
    marked stopped, every timer it holds a handle of is disarmed and none is
    armed, its socket is closed with code 1000, every pending request is
    rejected with "client stopped", and the state is disconnected.  The
    stopped condition ends with [restart()] only: [start()] on a stopped
    client does nothing, and no event but [restart()] clears the mark.
    [restart()] on the stopped client clears it, notifies connecting and
    opens a new socket to the resolved endpoint. *)
Theorem C2_stop_start_restart :
  (∀ env w, microtasks (rt w) = [] →
     let w1 := step env Stop w in
     closed (this w1) = true
     ∧ state (this w1) = disconnected
     ∧ ws (this w1) = None
     ∧ pending (this w1) = ∅
     ∧ connectTimer (this w1) = None
     ∧ tickTimer (this w1) = None
     ∧ reconnectTimer (this w1) = None
     ∧ microtasks (rt w1) = []
     ∧ (∀ t, tracked t (this w) → timers (rt w1) !! t = None)
     ∧ (∀ t x, timers (rt w1) !! t = Some x → timers (rt w) !! t = Some x)
     ∧ (∀ sock, ws (this w) = Some sock →
          ws_close sock (Some 1000) (Some "client stopped") ∈ trace (rt w1))
     ∧ (∀ id p, pending (this w) !! id = Some p →
          reject id "client stopped" None ∈ trace (rt w1)))
  ∧ (∀ env w, closed (this w) = true → microtasks (rt w) = [] →
       step env Start w = w)
  ∧ (∀ env ev w, ev ≠ Restart → closed (this w) = true →
       closed (this (step env ev w)) = true)
  ∧ (∀ env w,
       closed (this w) = true → state (this w) = disconnected →
       ws (this w) = None → pending (this w) = ∅ →
       connectTimer (this w) = None → tickTimer (this w) = None →
       reconnectTimer (this w) = None → microtasks (rt w) = [] →
       webSocketThrows env = false →
       let w2 := step env Restart w in
       closed (this w2) = false
       ∧ state (this w2) = connecting
       ∧ ws (this w2) = Some (nextSocket (rt w))
       ∧ sockets (rt w2) !! nextSocket (rt w) = Some CONNECTING
       ∧ trace (rt w2)
         = (trace (rt w)
            ++ [onStateChange connecting;
                ws_new (nextSocket (rt w)) (resolveWsUrl (getUrl env))])%list).
Proof.
  split; [| split; [exact start_closed | split; [exact closed_until_restart |]]].
  - intros env w Hmt w1. subst w1. rewrite (stop_step env w Hmt).
    cbn [this rt stopped closed state ws pending connectTimer tickTimer
         reconnectTimer set_trace set_microtasks microtasks timers trace].
    split_and!; try done.
    + intros t Ht. by apply stopped_timers.
    + intros t x Hx. by eapply stopped_timers.
    + intros sock Hws. unfold stopped_runtime, closing. rewrite Hws.
      cbn. rewrite !elem_of_app. do 3 left. right. apply list_elem_of_here.
    + intros id p Hp. unfold stopped_runtime. cbn.
      rewrite !elem_of_app. do 2 left. right.
      apply list_elem_of_fmap. exists (id, p).
      split; [done | by apply elem_of_map_to_list].
  - intros env [c r] Hcl Hst Hws Hp Hct Htk Hrc Hmt Hthrow w2. subst w2.
    cbn [this rt] in *. rewrite restart_at_rest by done.
    cbn. by rewrite lookup_insert_eq.
Qed.

(** A started client whose socket has opened: stopped, left alone by
    [start()], reconnected by [restart()]. *)
Lemma C2_witness :
  let w := run [(localEnv, Start); (localEnv, WsOpen 1)] new_World in
  let w1 := step localEnv Stop w in
  state (this w) = authenticating
  ∧ closed (this w1) = true
  ∧ timers (rt w1) = ∅
  ∧ step localEnv Start w1 = w1
  ∧ state (this (step localEnv Restart w1)) = connecting
  ∧ ws (this (step localEnv Restart w1)) = Some 2%nat.
Proof.
  intros w w1.
  destruct C2_stop_start_restart as (Hstop & Hstart & _ & Hrestart).
  destruct (Hstop localEnv w eq_refl)
    as (Hcl & Hst & Hws & Hp & Hct & Htk & Hrc & Hmt & _).
  fold w1 in Hcl, Hst, Hws, Hp, Hct, Htk, Hrc, Hmt.
  split; [by vm_compute | split; [exact Hcl | split; [by vm_compute |]]].
  split; [by apply Hstart |].
  destruct (Hrestart localEnv w1 Hcl Hst Hws Hp Hct Htk Hrc Hmt eq_refl)
    as (_ & Hconn & Hsock & _).
  split; [exact Hconn | by rewrite Hsock].
Defined.

(** *** Pairing required *)

Lemma isPairingRequired_cases message code :
  code = Some "PAIRING_REQUIRED" ∨ code = Some "DEVICE_IDENTITY_REQUIRED"
  ∨ Str.includes "pairing required" (Str.toLowerCase message) = true →
  isPairingRequired message code = true.
Proof.
  unfold isPairingRequired. intros [-> | [-> | ->]]; [done | done |].
  apply orb_true_r.
Qed.

Lemma alter_known (f : ReadyState → ReadyState) (m : gmap nat ReadyState) i x :
  m !! i = Some x → alter f i m = <[i := f x]> m.
Proof.
  intros H. apply map_eq. intros j. rewrite lookup_alter, lookup_insert.
  destruct (decide (i = j)) as [<- |]; [by rewrite H | done].
Qed.

Lemma error_message code message :
  asString (oprop "message"
              (Some (JObj (field "code" (JStr <$> code)
                           ++ [("message", JStr message)])%list)))
  = Some message.
Proof. by destruct code. Qed.

Lemma error_code code message :
  asString (oprop "code"
              (Some (JObj (field "code" (JStr <$> code)
                           ++ [("message", JStr message)])%list)))
  = code.
Proof. by destruct code. Qed.

(** The turn in which the refusal of the connect call arrives. *)
Lemma pairing_refused_step env w sock id h t code message :
  microtasks (rt w) = [] →
  ws (this w) = Some sock →
  sockets (rt w) !! sock = Some OPEN →
  pending (this w) = {[ id := {| awaiter := SendConnect h; timer := Some t |} ]} →
  isPairingRequired message code = true →
  step env (WsMessage sock (Some (errorResponse id code message))) w
  = {| this := set_state pairing_required (set_pending ∅ (this w));
       rt := set_sockets (<[sock := CLOSING]> (sockets (rt w)))
               (set_trace
                  (trace (rt w)
                   ++ [reject id message code]
                   ++ stateChange (state (this w)) pairing_required
                   ++ [onPairingRequired;
                       ws_close sock (Some 1000) (Some "pairing required")])
                  (set_timers (delete t (timers (rt w))) (rt w))) |}.
Proof.
  intros Hmt Hws Hsock Hp Hpair. rewrite step_unfold.
  assert (Hframe :
    handleMessage env (Some (errorResponse id code message))
    = handleResponse id false None
        (Some (JObj (field "code" (JStr <$> code)
                     ++ [("message", JStr message)])%list))) by reflexivity.
  open_world w. subst. unfold exec at 2. cbn [dispatch].
  mrun. rewrite Hsock. rewrite bool_decide_eq_true_2 by done.
  rewrite Hframe. unfold handleResponse. mrun.
  rewrite lookup_singleton_eq, delete_singleton_eq, error_message, error_code.
  mrun. unfold exec, runMicrotasks. mrun.
  change (default "unknown gateway error" (Some message)) with message.
  cbn [app forEach]. mrun.
  unfold runMicrotask, sendConnect_settled. cbn [fst snd]. rewrite Hpair.
  mrun. rewrite setState_spec. mrun.
  rewrite (alter_known _ _ _ OPEN) by done. by rewrite <- !app_assoc.
Qed.

(** *** Transport close and reconnect *)

Lemma close_event_step env w sock rs :
  microtasks (rt w) = [] →
  sockets (rt w) !! sock = Some rs → rs ≠ CLOSED →
  closed (this w) = false →
  step env (WsClosed sock) w = after_close (this w) (rt w) sock.
Proof.
  intros Hmt Hsock Hrs Hcl. rewrite step_unfold.
  assert (Hdisp :
    exec (dispatch env (WsClosed sock)) w
    = exec onclose {| this := this w;
                      rt := set_sockets (<[sock := CLOSED]> (sockets (rt w)))
                                        (rt w) |}).
  { open_world w. unfold exec. cbn [dispatch]. mrun. rewrite Hsock.
    by destruct rs. }
  rewrite Hdisp. clear Hdisp.
  open_world w. subst. unfold exec at 2, onclose. mrun.
  rewrite flushPending_spec. mrun. rewrite setState_spec. mrun.
  unfold scheduleReconnect. mrun. rewrite clearTimers_spec. mrun.
  unfold exec. rewrite (runMicrotasks_rejected env "WebSocket closed").
  - unfold after_close, flushed. cbn. by rewrite <- !app_assoc.
  - cbn. apply Forall_forall. intros job Hjob.
    apply list_elem_of_fmap in Hjob as (e & -> & _). done.
  - reflexivity.
  - reflexivity.
Qed.

(** The turn in which the reconnect timer fires, when the constructor of
    the socket does not throw. *)
Lemma reconnect_timer_step env w t d :
  microtasks (rt w) = [] →
  timers (rt w) !! t
  = Some {| callback := Reconnect; delay := d; repeating := false |} →
  closed (this w) = false →
  ws (this w) = None →
  webSocketThrows env = false →
  step env (TimerFired t) w
  = {| this := set_ws (Some (nextSocket (rt w)))
                 (set_state connecting
                    (set_connectSent false
                       (set_connectNonce None
                          (set_reconnectTimer None (this w)))));
       rt := set_trace
               (trace (rt w) ++ stateChange (state (this w)) connecting
                ++ [ws_new (nextSocket (rt w)) (resolveWsUrl (getUrl env))])
               (set_nextSocket (S (nextSocket (rt w)))
                  (set_sockets
                     (<[nextSocket (rt w) := CONNECTING]> (sockets (rt w)))
                     (set_timers (delete t (timers (rt w))) (rt w)))) |}.
Proof.
  intros Hmt Ht Hcl Hws Hthrow. rewrite step_unfold.
  open_world w. subst. unfold exec at 2. cbn [dispatch]. mrun.
  rewrite Ht. mrun. cbn [runTimer]. mrun. unfold connect. mrun.
  rewrite setState_spec, Hthrow. mrun.
  unfold exec. rewrite runMicrotasks_nil by done. cbn [snd].
  by rewrite <- !app_assoc.
Qed.

(** C1, as stated, fails.  A client is started, its socket opens, the
    challenge arrives, the connect call is refused with PAIRING_REQUIRED;
    the socket, closed by the client, reports its close; the timer armed then
    fires.  No [start()] or [restart()] was called after the first, and the
    client has left pairing_required for reconnecting, scheduled a reconnect
    after 1000 ms, and opened a second socket. *)
Lemma C1_reconnect_counterexample :
  let refusal := errorResponse "uuid-1" (Some "PAIRING_REQUIRED")
                               "pairing required" in
  let w2 := run [ (localEnv, Start);
                  (localEnv, WsOpen 1);
                  (localEnv, WsMessage 1 (Some (challengeFrame "nonce-1")));
                  (localEnv, WsMessage 1 (Some refusal));
                  (localEnv, WsClosed 1) ] new_World in
  let w3 := step localEnv (TimerFired 3) w2 in
  state (this w2) = reconnecting
  ∧ reconnectTimer (this w2) = Some 3%nat
  ∧ timers (rt w2) !! 3%nat
    = Some {| callback := Reconnect; delay := 1000; repeating := false |}
  ∧ notifications (trace (rt w3))
    = [connecting; authenticating; pairing_required; reconnecting; connecting]
  ∧ List.filter (λ e, match e with ws_new _ _ => true | _ => false end)
                (trace (rt w3))
    = [ws_new 1 "ws://localhost:18789"; ws_new 2 "ws://localhost:18789"]
  ∧ ws (this w3) = Some 2%nat.
Proof. by vm_compute. Qed.

(** C1 (amended).  The connect call is pending on an open socket, in state
    authenticating, and its refusal arrives with code PAIRING_REQUIRED or
    DEVICE_IDENTITY_REQUIRED, or with a message containing "pairing
    required".  In that turn the call is rejected, the state becomes
    pairing_required, the pairing-required notification is invoked once, the
    socket is closed with code 1000, and no timer is armed.  When the close
    event of that socket arrives, the client, not being stopped, moves to
    reconnecting and schedules a reconnect after the current backoff delay;
    when that timer fires it re-enters connecting and opens a new socket,
    without any call of [start()] or [restart()]. *)
Theorem C1_pairing_required env1 env2 env3 w sock id h t code message :
  microtasks (rt w) = [] →
  state (this w) = authenticating →
  closed (this w) = false →
  ws (this w) = Some sock →
  sockets (rt w) !! sock = Some OPEN →
  pending (this w)
  = {[ id := {| awaiter := SendConnect h; timer := Some t |} ]} →
  code = Some "PAIRING_REQUIRED" ∨ code = Some "DEVICE_IDENTITY_REQUIRED"
  ∨ Str.includes "pairing required" (Str.toLowerCase message) = true →
  webSocketThrows env3 = false →
  let w1 := step env1 (WsMessage sock (Some (errorResponse id code message)))
                 w in
  let w2 := step env2 (WsClosed sock) w1 in
  let w3 := step env3 (TimerFired (nextTimer (rt w))) w2 in
  (state (this w1) = pairing_required
   ∧ trace (rt w1)
     = (trace (rt w)
        ++ [reject id message code; onStateChange pairing_required;
            onPairingRequired;
            ws_close sock (Some 1000) (Some "pairing required")])%list
   ∧ timers (rt w1) = delete t (timers (rt w))
   ∧ reconnectTimer (this w1) = reconnectTimer (this w)
   ∧ sockets (rt w1) !! sock = Some CLOSING)
  ∧ (state (this w2) = reconnecting
     ∧ trace (rt w2) = (trace (rt w1) ++ [onStateChange reconnecting])%list
     ∧ reconnectTimer (this w2) = Some (nextTimer (rt w))
     ∧ timers (rt w2) !! nextTimer (rt w)
       = Some {| callback := Reconnect; delay := backoffMs (this w);
                 repeating := false |}
     ∧ backoffMs (this w2) = Z.min (backoffMs (this w) * 2) 30000)
  ∧ (state (this w3) = connecting
     ∧ trace (rt w3)
       = (trace (rt w2)
          ++ [onStateChange connecting;
              ws_new (nextSocket (rt w)) (resolveWsUrl (getUrl env3))])%list).
Proof.
  intros Hmt Hst Hcl Hws Hsock Hp Hpair Hthrow w1 w2 w3.
  apply isPairingRequired_cases in Hpair.
  assert (H1 := pairing_refused_step env1 w sock id h t code message
                  Hmt Hws Hsock Hp Hpair).
  fold w1 in H1. rewrite Hst in H1.
  change (stateChange authenticating pairing_required)
    with [onStateChange pairing_required] in H1.
  assert (H2 : w2 = after_close (this w1) (rt w1) sock).
  { apply (close_event_step env2 w1 sock CLOSING); try rewrite H1; cbn;
      [done | apply lookup_insert_eq | done | done]. }
  assert (H3 := reconnect_timer_step env3 w2 (nextTimer (rt w))
                  (backoffMs (this w))).
  fold w3 in H3. rewrite H2, H1 in H3.
  cbn [after_close this rt set_state set_pending set_sockets set_trace
       set_timers timers nextTimer microtasks closed ws backoffMs] in H3.
  rewrite lookup_insert_eq in H3.
  specialize (H3 eq_refl eq_refl eq_refl eq_refl Hthrow).
  split; [| split].
  - rewrite H1. cbn. split_and!; try done. apply lookup_insert_eq.
  - rewrite H2, H1. cbn. rewrite map_to_list_empty, Hmt. cbn.
    rewrite !app_nil_r, lookup_insert_eq. done.
  - rewrite H3, H2, H1. cbn. rewrite map_to_list_empty, Hmt. cbn.
    rewrite !app_nil_r. done.
Qed.

(** The connect call refused on a client that was started, whose socket
    opened and that answered the challenge. *)
Lemma C1_witness :
  let w := run [ (localEnv, Start);
                 (localEnv, WsOpen 1);
                 (localEnv, WsMessage 1 (Some (challengeFrame "nonce-1"))) ]
               new_World in
  let w1 := step localEnv
              (WsMessage 1 (Some (errorResponse "uuid-1"
                                    (Some "PAIRING_REQUIRED") "not paired")))
              w in
  let w2 := step localEnv (WsClosed 1) w1 in
  let w3 := step localEnv (TimerFired 3) w2 in
  state (this w) = authenticating
  ∧ state (this w1) = pairing_required
  ∧ state (this w2) = reconnecting
  ∧ state (this w3) = connecting.
Proof.
  intros w w1 w2 w3.
  destruct (C1_pairing_required localEnv localEnv localEnv w 1%nat "uuid-1"
              false 2%nat (Some "PAIRING_REQUIRED") "not paired")
    as ((H1 & _) & (H2 & _) & (H3 & _));
    [by vm_compute | by vm_compute | by vm_compute | by vm_compute
    | by vm_compute | by vm_compute | by left | by vm_compute |].
  split; [by vm_compute | split; [exact H1 | split; [exact H2 | exact H3]]].
Defined.

(** *** Keep-alive watchdog *)

Lemma exceeds_2_5_spec elapsed tickInterval :
  exceeds_2_5 elapsed tickInterval = true
  ↔ (inject_Z tickInterval * 2.5 < inject_Z elapsed)%Q.
Proof.
  unfold exceeds_2_5. rewrite Z.ltb_lt. unfold Qlt. cbn. lia.
Qed.

Lemma tick_event env payload w :
  exec (handleEvent env "tick" payload) w
  = {| this := set_lastTick (Some (now env)) (this w); rt := rt w |}.
Proof. by open_world w. Qed.

(** The turn in which the watchdog's interval fires. *)
Lemma tickWatch_step env w t d sock last :
  microtasks (rt w) = [] →
  timers (rt w) !! t
  = Some {| callback := TickWatch; delay := d; repeating := true |} →
  closed (this w) = false →
  ws (this w) = Some sock →
  lastTick (this w) = Some last → last ≠ 0 →
  step env (TimerFired t) w
  = if exceeds_2_5 (now env - last) (tickIntervalMs (this w)) then
      {| this := this w;
         rt := closing (Some sock) 4000 "tick timeout" (rt w) |}
    else w.
Proof.
  intros Hmt Ht Hcl Hws Hlt Hlast. rewrite step_unfold.
  open_world w. subst. unfold exec at 2. cbn [dispatch]. mrun.
  rewrite Ht. mrun. cbn [runTimer]. unfold tickWatch. mrun.
  apply Z.eqb_neq in Hlast. rewrite Hlast.
  destruct (exceeds_2_5 (now env - last) iv0); mrun;
    unfold exec; by rewrite runMicrotasks_nil.
Qed.

(** C8, as stated, fails: a silence of more than 2.5 tick intervals does
    not by itself close the socket.  A connected client with a tick interval
    of 1000 ms gets a tick 500 ms after the connect and the next one
    2900 ms later.  The checks 1000, 2000 and 3000 ms after the connect
    find 2.5 intervals not exceeded (the last one finds exactly 2500 ms),
    and the checks after 4000 and 5000 ms find the second tick recent.  The
    socket is never closed. *)
Lemma C8_late_tick_counterexample :
  let t0 := now localEnv in
  let w := run [ (localEnv, Start);
                 (localEnv, WsOpen 1);
                 (localEnv, WsMessage 1 (Some (challengeFrame "nonce-1")));
                 (localEnv, WsMessage 1 (Some (helloFrame "uuid-1" 1000))) ]
               new_World in
  let w1 := step (envAt (t0 + 500)) (WsMessage 1 (Some tickFrame)) w in
  let w' := run [ (envAt (t0 + 1000), TimerFired 3);
                  (envAt (t0 + 2000), TimerFired 3);
                  (envAt (t0 + 3000), TimerFired 3);
                  (envAt (t0 + 3400), WsMessage 1 (Some tickFrame));
                  (envAt (t0 + 4000), TimerFired 3);
                  (envAt (t0 + 5000), TimerFired 3) ] w1 in
  state (this w) = connected
  ∧ tickIntervalMs (this w) = 1000
  ∧ timers (rt w) !! 3%nat
    = Some {| callback := TickWatch; delay := 1000; repeating := true |}
  ∧ lastTick (this w1) = Some (t0 + 500)
  ∧ lastTick (this w') = Some (t0 + 3400)
  ∧ state (this w') = connected
  ∧ sockets (rt w') !! 1%nat = Some OPEN
  ∧ trace (rt w') = trace (rt w).
Proof. by vm_compute. Qed.

(** C8 (amended).  A successful connect response arms the watchdog: an
    interval of period max(tickIntervalMs, 1000) ms, with the tick interval
    the server gave if it gave one, and the connect time as the last tick; a
    tick event records its time as the last tick.  Each time the interval
    fires on a client that is not stopped, the socket is closed with code
    4000 if the time since the last tick then exceeds 2.5 times the tick
    interval, and nothing happens otherwise.  With a tick interval of
    1000 ms, a check more than 2500 ms after the last tick closes the socket,
    and the close event of the socket puts the client into the state
    reconnecting, with a reconnect scheduled. *)
Theorem C8_keepalive_watchdog :
  (∀ env hasIdentity helloOk w,
     let w' := exec (sendConnect_settled env hasIdentity (Resolved helloOk))
                    w in
     state (this w') = connected
     ∧ lastTick (this w') = Some (now env)
     ∧ tickIntervalMs (this w')
       = adoptedTickInterval helloOk (tickIntervalMs (this w))
     ∧ tickTimer (this w') = Some (nextTimer (rt w))
     ∧ timers (rt w') !! nextTimer (rt w)
       = Some {| callback := TickWatch;
                 delay := Z.max (tickIntervalMs (this w')) 1000;
                 repeating := true |})
  ∧ (∀ env payload w,
       exec (handleEvent env "tick" payload) w
       = {| this := set_lastTick (Some (now env)) (this w); rt := rt w |})
  ∧ (∀ env w t d sock seen,
       microtasks (rt w) = [] →
       timers (rt w) !! t
       = Some {| callback := TickWatch; delay := d; repeating := true |} →
       closed (this w) = false →
       ws (this w) = Some sock →
       lastTick (this w) = Some seen → seen ≠ 0 →
       let w1 := step env (TimerFired t) w in
       ((inject_Z (tickIntervalMs (this w)) * 2.5
         < inject_Z (now env - seen))%Q →
        this w1 = this w
        ∧ timers (rt w1) = timers (rt w)
        ∧ trace (rt w1)
          = (trace (rt w)
             ++ [ws_close sock (Some 4000) (Some "tick timeout")])%list)
       ∧ (¬ (inject_Z (tickIntervalMs (this w)) * 2.5
             < inject_Z (now env - seen))%Q →
          w1 = w))
  ∧ (∀ env env' w t d sock seen,
       microtasks (rt w) = [] →
       timers (rt w) !! t
       = Some {| callback := TickWatch; delay := d; repeating := true |} →
       closed (this w) = false →
       ws (this w) = Some sock →
       sockets (rt w) !! sock = Some OPEN →
       lastTick (this w) = Some seen → seen ≠ 0 →
       state (this w) = connected →
       tickIntervalMs (this w) = 1000 →
       let w1 := step env (TimerFired t) w in
       let w2 := step env' (WsClosed sock) w1 in
       (now env - seen > 2500 →
        last (trace (rt w1))
        = Some (ws_close sock (Some 4000) (Some "tick timeout"))
        ∧ state (this w2) = reconnecting
        ∧ onStateChange reconnecting ∈ trace (rt w2)
        ∧ reconnectTimer (this w2) = Some (nextTimer (rt w))
        ∧ timers (rt w2) !! nextTimer (rt w)
          = Some {| callback := Reconnect; delay := backoffMs (this w);
                    repeating := false |})
       ∧ (now env - seen <= 2500 → w1 = w)).
Proof.
  split; [| split; [exact tick_event | split]].
  - intros env hasIdentity helloOk w w'.
    destruct (sendConnect_resolved env hasIdentity helloOk w)
      as (_ & ? & ? & ? & _ & _ & ? & ?).
    done.
  - intros env w t d sock seen Hmt Ht Hcl Hws Hlt Hlast w1. subst w1.
    rewrite (tickWatch_step env w t d sock seen) by done.
    split; intros Hq.
    + apply exceeds_2_5_spec in Hq. rewrite Hq. by destruct w as [c []].
    + destruct (exceeds_2_5 _ _) eqn:E; [| done].
      by apply exceeds_2_5_spec in E.
  - intros env env' w t d sock seen Hmt Ht Hcl Hws Hsock Hlt Hlast Hst Hiv
      w1 w2.
    assert (H1 := tickWatch_step env w t d sock seen Hmt Ht Hcl Hws Hlt Hlast).
    fold w1 in H1. rewrite Hiv in H1. unfold exceeds_2_5 in H1.
    split; intros Hel.
    + assert (Hb : (5 * 1000 <? 2 * (now env - seen))%Z = true)
        by (apply Z.ltb_lt; lia).
      rewrite Hb in H1.
      assert (H2 : w2 = after_close (this w1) (rt w1) sock).
      { apply (close_event_step env' w1 sock CLOSING); try rewrite H1.
        - by destruct w as [c []].
        - destruct w as [c []]. cbn in *.
          rewrite (alter_known _ _ _ OPEN) by done. apply lookup_insert_eq.
        - done.
        - done. }
      assert (Hnt : nextTimer (rt w1) = nextTimer (rt w))
        by (rewrite H1; by destruct w as [c []]).
      rewrite H2. unfold after_close.
      cbn [this rt state reconnectTimer timers trace]. rewrite Hnt.
      split_and!.
      * rewrite H1. destruct w as [c []]. cbn. by rewrite last_snoc.
      * done.
      * apply elem_of_app. right. apply elem_of_app. left.
        rewrite H1. cbn [this]. rewrite Hst. apply list_elem_of_here.
      * done.
      * rewrite H1. cbn [this]. apply lookup_insert_eq.
    + assert (Hb : (5 * 1000 <? 2 * (now env - seen))%Z = false)
        by (apply Z.ltb_ge; lia).
      by rewrite Hb in H1.
Qed.

(** A connected client with a tick interval of 1000 ms that hears nothing:
    the checks after 1000 and 2000 ms do nothing, the one after 3000 ms
    closes the socket, and the close event leads to reconnecting. *)
Lemma C8_witness :
  let t0 := now localEnv in
  let w := run [ (localEnv, Start);
                 (localEnv, WsOpen 1);
                 (localEnv, WsMessage 1 (Some (challengeFrame "nonce-1")));
                 (localEnv, WsMessage 1 (Some (helloFrame "uuid-1" 1000))) ]
               new_World in
  let w1 := step (envAt (t0 + 3000)) (TimerFired 3) w in
  let w2 := step (envAt (t0 + 3001)) (WsClosed 1) w1 in
  state (this w) = connected
  ∧ timers (rt w) !! 3%nat
    = Some {| callback := TickWatch; delay := 1000; repeating := true |}
  ∧ step (envAt (t0 + 1000)) (TimerFired 3) w = w
  ∧ step (envAt (t0 + 2000)) (TimerFired 3) w = w
  ∧ last (trace (rt w1)) = Some (ws_close 1 (Some 4000) (Some "tick timeout"))
  ∧ state (this w2) = reconnecting.
Proof.
  intros t0 w w1 w2.
  destruct C8_keepalive_watchdog as (_ & _ & _ & Hinst).
  assert (Hw : ∀ env,
    (now env - t0 > 2500 →
     last (trace (rt (step env (TimerFired 3) w)))
     = Some (ws_close 1 (Some 4000) (Some "tick timeout"))
     ∧ state (this (step (envAt (t0 + 3001)) (WsClosed 1)
                         (step env (TimerFired 3) w))) = reconnecting)
    ∧ (now env - t0 <= 2500 → step env (TimerFired 3) w = w)).
  { intros env.
    assert (Hmt : microtasks (rt w) = []) by (by vm_compute).
    assert (Ht : timers (rt w) !! 3%nat
                 = Some {| callback := TickWatch; delay := 1000;
                           repeating := true |}) by (by vm_compute).
    assert (Hcl : closed (this w) = false) by (by vm_compute).
    assert (Hws : ws (this w) = Some 1%nat) by (by vm_compute).
    assert (Hsock : sockets (rt w) !! 1%nat = Some OPEN) by (by vm_compute).
    assert (Hlt : lastTick (this w) = Some t0) by (by vm_compute).
    assert (Hne : t0 ≠ 0) by (by vm_compute).
    assert (Hst : state (this w) = connected) by (by vm_compute).
    assert (Hiv : tickIntervalMs (this w) = 1000) by (by vm_compute).
    destruct (Hinst env (envAt (t0 + 3001)) w 3%nat 1000 1%nat t0
                Hmt Ht Hcl Hws Hsock Hlt Hne Hst Hiv) as [Hfar Hnear].
    split; [| exact Hnear].
    intros Hel. destruct (Hfar Hel) as (? & ? & _). done. }
  split; [by vm_compute | split; [by vm_compute |]].
  split; [apply Hw; by vm_compute | split; [apply Hw; by vm_compute |]].
  apply (Hw (envAt (t0 + 3000))). by vm_compute.
Defined.

(** *** Exactly-once settlement of requests *)

Lemma settled_snoc id tr e :
  settled id (tr ++ [e])
  = (settled id tr + if settles id e then 1 else 0)%nat.
Proof.
  unfold settled. rewrite List.filter_app, length_app. cbn.
  by destruct (settles id e).
Qed.

Lemma settled_snoc_other id tr e :
  settles id e = false → settled id (tr ++ [e]) = settled id tr.
Proof. intros H. rewrite settled_snoc, H. lia. Qed.

Lemma settled_snoc_same id tr e :
  settles id e = true → settled id (tr ++ [e]) = S (settled id tr).
Proof. intros H. rewrite settled_snoc, H. lia. Qed.

Lemma settled_cons id e tr :
  settled id (e :: tr)
  = ((if settles id e then 1 else 0) + settled id tr)%nat.
Proof. unfold settled. cbn [List.filter]. by destruct (settles id e). Qed.

Lemma settled_app id tr1 tr2 :
  settled id (tr1 ++ tr2) = (settled id tr1 + settled id tr2)%nat.
Proof. unfold settled. by rewrite List.filter_app, length_app. Qed.

Lemma issued_snoc id tr e :
  issued id (tr ++ [e]) ↔ issued id tr ∨ sends id e.
Proof.
  unfold issued, sends. split.
  - intros (sock & frame & Hin & Hid).
    apply elem_of_app in Hin as [Hin | Hin]; [left; eauto |].
    apply list_elem_of_singleton in Hin. right. eauto.
  - intros [(sock & frame & Hin & Hid) | (sock & frame & -> & Hid)];
      exists sock, frame; (split; [| done]); apply elem_of_app;
      [by left | right; apply list_elem_of_here].
Qed.

Lemma rpc_ok_new : rpc_ok new_World.
Proof.
  unfold rpc_ok. cbn. split_and!.
  - intros id [p Hp]. by rewrite lookup_empty in Hp.
  - intros t tm id m ms aw Ht. by rewrite lookup_empty in Ht.
  - intros id (sock & frame & Hin & _). by apply elem_of_nil in Hin.
  - done.
Qed.

Lemma rpc_ok_put f :
  (∀ c, pending (f c) = pending c) → preserves rpc_ok (put f).
Proof. intros Hf [c r] H. unfold rpc_ok in *. cbn in *. by rewrite Hf. Qed.

Lemma rpc_ok_putR f :
  (∀ r, timers (f r) = timers r ∧ trace (f r) = trace r) →
  preserves rpc_ok (putR f).
Proof.
  intros Hf [c r] H. unfold rpc_ok in *. cbn in *.
  destruct (Hf r) as [-> ->]. done.
Qed.

Lemma rpc_ok_clearTimeout t : preserves rpc_ok (clearTimeout t).
Proof.
  intros [c r] (H1 & H2 & H3 & H4). destruct r. cbn in H1, H2, H3, H4.
  unfold rpc_ok. mrun. split_and!; [done | | done | done].
  intros t' tm id m ms aw [_ Ht]%lookup_delete_Some Hcb. by eapply H2.
Qed.

Lemma rpc_ok_setTimer cb ms rep :
  match cb with RpcTimeout _ _ _ _ => False | _ => True end →
  preserves rpc_ok (setTimer cb ms rep).
Proof.
  intros Hcb [c r] (H1 & H2 & H3 & H4). destruct r. cbn in H1, H2, H3, H4.
  unfold rpc_ok, setTimer. mrun. split_and!; [done | | done | done].
  intros t' tm id m ms' aw Ht Hcb'.
  apply lookup_insert_Some in Ht as [[<- <-] | [_ Ht]]; [| by eapply H2].
  cbn in Hcb'. by subst cb.
Qed.

Lemma rpc_ok_emit e :
  match e with
  | resolve _ _ | reject _ _ _ | ws_send _ _ => False
  | _ => True
  end →
  preserves rpc_ok (emit e).
Proof.
  intros He [c r] (H1 & H2 & H3 & H4). destruct r.
  assert (Hs : ∀ id, settles id e = false) by (intros id; by destruct e).
  assert (Hi : ∀ id, ¬ sends id e)
    by (intros id (sock & frame & -> & _); done).
  cbn in H1, H2, H3, H4. unfold rpc_ok. mrun. split_and!.
  - intros id Hp. rewrite settled_snoc_other, issued_snoc by done.
    destruct (H1 id Hp). split; [done | by left].
  - done.
  - intros id [Hiss | Hsend]%issued_snoc Hp; [| by destruct (Hi id)].
    rewrite settled_snoc_other by done. by apply H3.
  - intros id Hiss. rewrite settled_snoc_other by done. apply H4.
    intros Hiss'. apply Hiss, issued_snoc. by left.
Qed.

(** The invariant reads the pending map, the timers and the trace only. *)
Lemma rpc_ok_view w w' :
  pending (this w') = pending (this w) →
  timers (rt w') = timers (rt w) →
  trace (rt w') = trace (rt w) →
  rpc_ok w → rpc_ok w'.
Proof. unfold rpc_ok. by intros -> -> ->. Qed.

(** The entry of [id] is removed, its promise settled by [e], and no timer
    that names [id] stays armed. *)
Lemma rpc_ok_settled w w' id e :
  rpc_ok w →
  is_Some (pending (this w) !! id) →
  pending (this w') = delete id (pending (this w)) →
  trace (rt w') = (trace (rt w) ++ [e])%list →
  (∀ id', settles id' e = bool_decide (id' = id)) →
  (∀ id', ¬ sends id' e) →
  (∀ t tm, timers (rt w') !! t = Some tm →
     timers (rt w) !! t = Some tm
     ∧ ∀ m ms aw, callback tm ≠ RpcTimeout id m ms aw) →
  rpc_ok w'.
Proof.
  intros (H1 & H2 & H3 & H4) Hp Hpend Htr Hsettles Hsends Htm.
  unfold rpc_ok. rewrite Hpend, Htr. split_and!.
  - intros id' [p' Hp']. apply lookup_delete_Some in Hp' as [Hne Hp'].
    destruct (H1 id' (mk_is_Some _ _ Hp')) as [Hs Hi].
    rewrite settled_snoc_other, issued_snoc.
    + split; [done | by left].
    + rewrite Hsettles. by apply bool_decide_eq_false.
  - intros t tm id' m ms aw Ht Hcb. destruct (Htm t tm Ht) as [Ht' Hnot].
    destruct (H2 t tm id' m ms aw Ht' Hcb) as (Hrep & p & Hp' & Htp).
    split; [done |]. exists p. split; [| done].
    apply lookup_delete_Some. split; [| done].
    intros <-. by eapply Hnot.
  - intros id' [Hiss | Hs]%issued_snoc Hnone; [| by destruct (Hsends id')].
    destruct (decide (id' = id)) as [-> | Hne].
    + rewrite settled_snoc_same.
      * f_equal. by apply H1.
      * rewrite Hsettles. by apply bool_decide_eq_true.
    + rewrite settled_snoc_other.
      * apply H3; [done |]. apply lookup_delete_None in Hnone as [? | ?];
          [congruence | done].
      * rewrite Hsettles. by apply bool_decide_eq_false.
  - intros id' Hiss.
    assert (Hiss' : ¬ issued id' (trace (rt w)))
      by (intros ?; apply Hiss, issued_snoc; by left).
    rewrite settled_snoc_other; [by apply H4 |].
    rewrite Hsettles. apply bool_decide_eq_false. intros ->.
    destruct Hiss'. by apply H1.
Qed.

Lemma settles_resolve id id' payload :
  settles id' (resolve id payload) = bool_decide (id' = id).
Proof.
  cbn. destruct (String.eqb id id') eqn:E.
  - apply String.eqb_eq in E as ->. by rewrite bool_decide_eq_true_2.
  - apply String.eqb_neq in E. by rewrite bool_decide_eq_false_2.
Qed.

Lemma settles_reject id id' message code :
  settles id' (reject id message code) = bool_decide (id' = id).
Proof.
  cbn. destruct (String.eqb id id') eqn:E.
  - apply String.eqb_eq in E as ->. by rewrite bool_decide_eq_true_2.
  - apply String.eqb_neq in E. by rewrite bool_decide_eq_false_2.
Qed.

Lemma disarm_not_named (w : World) id entry t tm :
  rpc_ok w →
  pending (this w) !! id = Some entry →
  disarm (timer entry) (timers (rt w)) !! t = Some tm →
  timers (rt w) !! t = Some tm
  ∧ ∀ m ms aw, callback tm ≠ RpcTimeout id m ms aw.
Proof.
  intros (_ & H2 & _) Hp Ht.
  apply disarm_lookup_Some in Ht as [Ht Hne]. split; [done |].
  intros m ms aw Hcb.
  destruct (H2 t tm id m ms aw Ht Hcb) as (_ & p & Hp' & Htp). congruence.
Qed.

Lemma rpc_ok_handleResponse id ok payload error :
  preserves rpc_ok (handleResponse id ok payload error).
Proof.
  intros w Hok. unfold handleResponse.
  unfold mbind at 1, M_bind at 1, get at 1. cbn [fst snd].
  destruct (pending (this w) !! id) as [entry|] eqn:Hp; [| done].
  set (e := if ok then resolve id payload
            else reject id
                   (default "unknown gateway error"
                      (asString (oprop "message" error)))
                   (asString (oprop "code" error))).
  apply (rpc_ok_settled w _ id e Hok (mk_is_Some _ _ Hp)).
  - open_world w. by destruct entry as [aw [t|]], ok.
  - open_world w. by destruct entry as [aw [t|]], ok.
  - intros id'. subst e. destruct ok;
      [apply settles_resolve | apply settles_reject].
  - intros id' (sock & frame & He & _). subst e. by destruct ok.
  - intros t tm Ht. apply (disarm_not_named w id entry); [done | done |].
    open_world w. by destruct entry as [aw [t'|]], ok.
Qed.

(** The timeout of a request fires. *)
Lemma rpc_ok_rpcTimeout t tm id m ms aw :
  callback tm = RpcTimeout id m ms aw →
  hoare (λ w, rpc_ok w ∧ timers (rt w) !! t = Some tm)
        (clearTimeout t;; rpcTimeout id m ms aw) (λ _, rpc_ok).
Proof.
  intros Hcb w [Hok Ht].
  destruct Hok as (H1 & H2 & H3 & H4).
  destruct (H2 t tm id m ms aw Ht Hcb) as (_ & p & Hp & Htp).
  apply (rpc_ok_settled w _ id
           (reject id (rpcTimeoutMessage m ms) None)
           (conj H1 (conj H2 (conj H3 H4))) (mk_is_Some _ _ Hp)).
  - by open_world w.
  - by open_world w.
  - intros id'. apply settles_reject.
  - by intros id' (sock & frame & He & _).
  - intros t' tm' Ht'.
    assert (Ht'' : delete t (timers (rt w)) !! t' = Some tm')
      by (by open_world w).
    apply lookup_delete_Some in Ht'' as [Hne Ht'']. split; [done |].
    intros m' ms' aw' Hcb'.
    destruct (H2 t' tm' id m' ms' aw' Ht'' Hcb') as (_ & p' & Hp' & Htp').
    congruence.
Qed.

Lemma settled_rejects id message (l : list (string * PendingRequest)) :
  NoDup l.*1 →
  settled id (map (λ e, reject e.1 message None) l)
  = if bool_decide (id ∈ l.*1) then 1%nat else 0%nat.
Proof.
  induction l as [|[id' p] l IH]; intros Hnd; [done |].
  apply NoDup_cons in Hnd as [Hnotin Hnd].
  cbn [map fst]. rewrite settled_cons, IH by done.
  rewrite settles_reject. cbn [fmap list_fmap fst].
  destruct (decide (id = id')) as [-> | Hne].
  - rewrite bool_decide_eq_true_2 by done.
    rewrite (bool_decide_eq_false_2 (id' ∈ l.*1)) by done.
    rewrite bool_decide_eq_true_2; [done | apply list_elem_of_here].
  - rewrite bool_decide_eq_false_2 by done. cbn [Nat.add].
    destruct (decide (id ∈ l.*1)) as [Hin | Hnin].
    + rewrite (bool_decide_eq_true_2 (id ∈ l.*1)) by done.
      rewrite bool_decide_eq_true_2; [done | by apply elem_of_cons; right].
    + rewrite (bool_decide_eq_false_2 (id ∈ l.*1)) by done.
      rewrite bool_decide_eq_false_2; [done |].
      rewrite elem_of_cons. by intros [? | ?].
Qed.

Lemma issued_rejects id tr message (l : list (string * PendingRequest)) :
  issued id (tr ++ map (λ e, reject e.1 message None) l) ↔ issued id tr.
Proof.
  unfold issued. split.
  - intros (sock & frame & Hin & Hid). exists sock, frame. split; [| done].
    apply elem_of_app in Hin as [Hin | Hin]; [done |].
    apply list_elem_of_fmap in Hin as (e & He & _). done.
  - intros (sock & frame & Hin & Hid). exists sock, frame. split; [| done].
    apply elem_of_app. by left.
Qed.

Lemma rpc_ok_flushPending message : preserves rpc_ok (flushPending message).
Proof.
  intros w (H1 & H2 & H3 & H4). rewrite flushPending_spec. cbn [snd].
  unfold rpc_ok, flushed.
  cbn [this rt set_pending pending timers trace].
  set (entries := map_to_list (pending (this w))).
  assert (Hcount : ∀ id,
    settled id (map (λ e : string * PendingRequest,
                       reject e.1 message None) entries)
    = if bool_decide (is_Some (pending (this w) !! id))
      then 1%nat else 0%nat).
  { intros id. subst entries.
    rewrite settled_rejects by apply NoDup_fst_map_to_list.
    erewrite bool_decide_ext; [reflexivity |].
    rewrite list_elem_of_fmap. split.
    - intros ([id' p] & -> & Hin). apply elem_of_map_to_list in Hin. eauto.
    - intros [p Hp]. exists (id, p). split; [done |].
      by apply elem_of_map_to_list. }
  split_and!.
  - intros id [p Hp]. by rewrite lookup_empty in Hp.
  - intros t tm id m ms aw Ht Hcb. exfalso.
    pose proof (flushed_timers_Some _ _ _ _ Ht) as Ht'.
    destruct (H2 t tm id m ms aw Ht' Hcb) as (_ & p & Hp & Htp).
    rewrite (flushed_timers_None entries _ t id p) in Ht; [done | | done].
    by apply elem_of_map_to_list.
  - intros id Hiss%issued_rejects _. rewrite settled_app, Hcount.
    destruct (pending (this w) !! id) as [p|] eqn:Hp.
    + rewrite bool_decide_eq_true_2 by done.
      destruct (H1 id (mk_is_Some _ _ Hp)) as [-> _]. done.
    + rewrite bool_decide_eq_false_2 by (by intros [? ?]).
      rewrite H3 by done. done.
  - intros id Hiss. rewrite settled_app, Hcount.
    assert (Hiss' : ¬ issued id (trace (rt w)))
      by (intros ?; by apply Hiss, issued_rejects).
    rewrite H4 by done.
    rewrite bool_decide_eq_false_2; [done |].
    intros Hp. destruct Hiss'. by apply H1.
Qed.

(** A request with an id that no request has used. *)
Lemma rpc_ok_request env method params timeoutMs aw :
  hoare (λ w, rpc_ok w ∧ ¬ issued (randomUUID env) (trace (rt w)))
        (request env method params timeoutMs aw) (λ _, rpc_ok).
Proof.
  intros w [(H1 & H2 & H3 & H4) Hfresh]. unfold request.
  unfold mbind at 1, M_bind at 1, get at 1. cbn [fst snd].
  unfold mbind at 1, M_bind at 1. unfold readyState at 1, getR at 1.
  cbn [fst snd].
  assert (Hnotpending : pending (this w) !! randomUUID env = None).
  { destruct (pending (this w) !! randomUUID env) eqn:E; [| done].
    destruct Hfresh. by apply H1. }
  destruct (ws (this w)) as [sock|] eqn:Hws.
  2: { open_world w. unfold rpc_ok. mrun. cbn in H1, H2, H3, H4.
       split_and!.
       - intros id Hp. destruct (H1 id Hp).
         rewrite settled_snoc_other, issued_snoc by done. by split; [| left].
       - done.
       - intros id [Hi | (? & ? & ? & _)]%issued_snoc Hp; [| done].
         rewrite settled_snoc_other by done. by apply H3.
       - intros id Hi. rewrite settled_snoc_other by done. apply H4.
         intros ?. apply Hi, issued_snoc. by left. }
  cbn [mbind option_bind].
  destruct (sockets (rt w) !! sock) as [[]|] eqn:Hs.
  2: { open_world w. subst. unfold rpc_ok. mrun. cbn in H1, H2, H3, H4.
       set (id0 := randomUUID env) in *.
       assert (Hsend : sends id0
                 (ws_send sock {| req_id := id0; req_method := method;
                                  req_params := params |}))
         by (by eexists _, _).
       split_and!.
       - intros id Hp. rewrite settled_snoc_other, issued_snoc by done.
         destruct (decide (id = id0)) as [-> | Hne].
         + split; [by apply H4 | by right].
         + rewrite lookup_insert_ne in Hp by done.
           destruct (H1 id Hp). by split; [| left].
       - intros t tm id m ms aw' Ht Hcb.
         apply lookup_insert_Some in Ht as [[<- <-] | [Hne Ht]].
         + cbn in Hcb. injection Hcb as <- <- <- <-. split; [done |].
           eexists. by rewrite lookup_insert_eq.
         + destruct (H2 t tm id m ms aw' Ht Hcb) as (Hrep & p & Hp & Htp).
           split; [done |]. exists p. split; [| done].
           rewrite lookup_insert_ne; [done |]. intros <-. congruence.
       - intros id Hiss Hp.
         apply lookup_insert_None in Hp as [Hp Hne].
         apply issued_snoc in Hiss as [Hiss | (? & ? & [= <- <-] & Hid)];
           [| by cbn in Hid].
         rewrite settled_snoc_other by done. by apply H3.
       - intros id Hi. rewrite settled_snoc_other by done. apply H4.
         intros ?. apply Hi, issued_snoc. by left. }
  all: open_world w; subst; unfold rpc_ok; mrun; cbn in H1, H2, H3, H4;
    (split_and!;
     [ intros id Hp; destruct (H1 id Hp);
       rewrite settled_snoc_other, issued_snoc by done; by split; [| left]
     | done
     | intros id [Hi | (? & ? & ? & _)]%issued_snoc Hp; [| done];
       rewrite settled_snoc_other by done; by apply H3
     | intros id Hi; rewrite settled_snoc_other by done; apply H4;
       intros ?; apply Hi, issued_snoc; by left ]).
Qed.

Ltac rpc_leaf :=
  idtac;
  lazymatch goal with
  | |- preserves _ (handleResponse _ _ _ _) => apply rpc_ok_handleResponse
  | |- preserves _ (flushPending _) => apply rpc_ok_flushPending
  | |- preserves _ (put _) => apply rpc_ok_put; intros []; reflexivity
  | |- preserves _ (putR _) =>
    apply rpc_ok_putR; intros []; split; reflexivity
  | |- preserves _ (clearTimeout _) => apply rpc_ok_clearTimeout
  | |- preserves _ (setTimer _ _ _) => apply rpc_ok_setTimer; exact I
  | |- preserves _ (emit _) => apply rpc_ok_emit; exact I
  end.

Lemma unused_emit id e :
  match e with ws_send _ _ => False | _ => True end →
  preserves (unused id) (emit e).
Proof.
  intros He [c r] H. destruct r. unfold unused in *. mrun. cbn in H.
  intros [? | (sock & frame & -> & _)]%issued_snoc; done.
Qed.

Ltac unused_leaf :=
  idtac;
  lazymatch goal with
  | |- preserves _ (emit (match ?o with _ => _ end)) => destruct o
  | |- preserves _ (emit (if ?b then _ else _)) => destruct b
  | |- preserves _ (emit _) => apply unused_emit; exact I
  | |- preserves _ (put _) =>
    let w := fresh "w" in
    let H := fresh "H" in
    intros w H; open_world w; exact H
  | |- preserves _ (putR _) =>
    let w := fresh "w" in
    let H := fresh "H" in
    intros w H; open_world w; exact H
  end.

Lemma pres_conj {A} (P Q : World → Prop) (m : M A) :
  preserves P m → preserves Q m → preserves (λ w, P w ∧ Q w) m.
Proof. intros HP HQ w [? ?]. split; [by apply HP | by apply HQ]. Qed.

Lemma hoare_seq_pres {A B} (P : World → Prop) Q (m : M A) (k : A → M B) :
  preserves P m → (∀ a, hoare P (k a) Q) → hoare P (m ≫= k) Q.
Proof. intros Hm Hk. by apply (hoare_bind _ (λ _, P)). Qed.

Lemma hoare_tail {A} id (m : M A) :
  preserves rpc_ok m →
  hoare (λ w, rpc_ok w ∧ unused id w) m (λ _, rpc_ok).
Proof. intros H w [Hok _]. by apply H. Qed.

(** Walks through a handler that may end in a request. *)
Ltac request_walk :=
  repeat
    (cbv beta zeta;
     lazymatch goal with
     | |- hoare _ (mbind _ _) _ =>
       apply hoare_seq_pres;
       [ apply pres_conj; [pres_walk rpc_leaf | pres_walk unused_leaf]
       | intros ? ]
     | |- hoare _ (match ?x with _ => _ end) _ => destruct x
     | |- hoare _ (request _ _ _ _ _) _ => apply rpc_ok_request
     | |- hoare _ ?m _ =>
       first [ apply hoare_tail; solve [pres_walk rpc_leaf]
             | let h := head_of m in progress unfold h ]
     end).

Lemma rpc_ok_timer env t :
  preserves rpc_ok (dispatch env (TimerFired t)).
Proof.
  intros w Hok. cbn [dispatch].
  unfold mbind at 1, M_bind at 1, getR at 1. cbn [fst snd].
  destruct (timers (rt w) !! t) as [[cb d rep]|] eqn:Ht; [| done].
  cbn [repeating callback].
  destruct cb as [id m ms aw | | |].
  - destruct Hok as (H1 & H2 & H3 & H4).
    destruct (H2 t (Build_Timer (RpcTimeout id m ms aw) d rep)
                 id m ms aw Ht eq_refl) as [Hrep _].
    cbn in Hrep. subst rep. cbn [runTimer].
    apply (rpc_ok_rpcTimeout t (Build_Timer (RpcTimeout id m ms aw) d false)
             id m ms aw eq_refl w).
    exact (conj (conj H1 (conj H2 (conj H3 H4))) Ht).
  - revert w Hok Ht.
    assert (H : preserves rpc_ok
                  ((if rep then pass else clearTimeout t);;
                   runTimer env ConnectTimeout)) by pres_walk rpc_leaf.
    intros w Hok _. by apply H.
  - revert w Hok Ht.
    assert (H : preserves rpc_ok
                  ((if rep then pass else clearTimeout t);;
                   runTimer env TickWatch)) by pres_walk rpc_leaf.
    intros w Hok _. by apply H.
  - revert w Hok Ht.
    assert (H : preserves rpc_ok
                  ((if rep then pass else clearTimeout t);;
                   runTimer env Reconnect)) by pres_walk rpc_leaf.
    intros w Hok _. by apply H.
Qed.

Lemma rpc_ok_dispatch env ev :
  hoare (λ w, rpc_ok w ∧ unused (randomUUID env) w) (dispatch env ev)
        (λ _, rpc_ok).
Proof.
  destruct ev.
  - apply hoare_tail. pres_walk rpc_leaf.
  - apply hoare_tail. pres_walk rpc_leaf.
  - apply hoare_tail. pres_walk rpc_leaf.
  - cbn [dispatch]. apply rpc_ok_request.
  - apply hoare_tail. pres_walk rpc_leaf.
  - request_walk.
  - apply hoare_tail. pres_walk rpc_leaf.
  - apply hoare_tail. apply rpc_ok_timer.
  - request_walk.
Qed.

Lemma rpc_ok_runMicrotasks env : preserves rpc_ok (runMicrotasks env).
Proof. pres_walk rpc_leaf. Qed.

Lemma rpc_ok_step env ev w :
  rpc_ok w → ¬ issued (randomUUID env) (trace (rt w)) →
  rpc_ok (step env ev w).
Proof.
  intros Hok Hfresh. unfold step, exec.
  apply (hoare_bind (λ w, rpc_ok w ∧ unused (randomUUID env) w)
                    (λ _, rpc_ok) (λ _, rpc_ok)).
  - apply rpc_ok_dispatch.
  - intros _. apply rpc_ok_runMicrotasks.
  - by split.
Qed.

Lemma reachable_rpc_ok w : reachable w → rpc_ok w.
Proof.
  induction 1 as [|env ev w Hw IH Hfresh]; [apply rpc_ok_new |].
  by apply rpc_ok_step.
Qed.

Lemma handleResponse_unknown w id ok payload error :
  pending (this w) !! id = None →
  handleResponse id ok payload error w = (tt, w).
Proof.
  intros Hp. unfold handleResponse.
  unfold mbind at 1, M_bind at 1, get at 1. cbn [fst snd].
  by rewrite Hp.
Qed.

Lemma handleResponse_resolves w id p payload error :
  pending (this w) !! id = Some p →
  exec (handleResponse id true payload error) w
  = settled_world w id (awaiter p) (timer p) (Resolved payload).
Proof.
  intros Hp. unfold handleResponse, exec.
  unfold mbind at 1, M_bind at 1, get at 1. cbn [fst snd].
  rewrite Hp. open_world w. by destruct p as [aw [t|]].
Qed.

Lemma okResponse_frame env id payload :
  handleMessage env (Some (okResponse id payload))
  = handleResponse id true (Some payload) None.
Proof. reflexivity. Qed.

Lemma rpcTimeout_fires env w t d id m ms aw :
  timers (rt w) !! t
  = Some {| callback := RpcTimeout id m ms aw; delay := d;
            repeating := false |} →
  exec (dispatch env (TimerFired t)) w
  = settled_world w id aw (Some t) (Rejected (rpcTimeoutMessage m ms) None).
Proof.
  intros Ht. unfold exec. cbn [dispatch].
  unfold mbind at 1, M_bind at 1, getR at 1. cbn [fst snd].
  rewrite Ht. by open_world w.
Qed.

Lemma settled_split id tr1 e tr2 :
  settled id (tr1 ++ e :: tr2)
  = (settled id tr1 + (if settles id e then 1 else 0) + settled id tr2)%nat.
Proof.
  unfold settled. rewrite List.filter_app, length_app. cbn.
  destruct (settles id e); cbn; lia.
Qed.

Lemma settled_elem id e tr :
  e ∈ tr → settles id e = true → (1 ≤ settled id tr)%nat.
Proof.
  intros (tr1 & tr2 & ->)%list_elem_of_split He.
  rewrite settled_split, He. lia.
Qed.

Lemma settled_both id payload message code tr :
  resolve id payload ∈ tr → reject id message code ∈ tr →
  (2 ≤ settled id tr)%nat.
Proof.
  intros (tr1 & tr2 & ->)%list_elem_of_split Hrej.
  rewrite settled_split. cbn [settles]. rewrite String.eqb_refl.
  apply elem_of_app in Hrej as [Hrej | Hrej].
  - apply (settled_elem id) in Hrej; [lia | cbn; apply String.eqb_refl].
  - apply elem_of_cons in Hrej as [Hrej | Hrej]; [done |].
    apply (settled_elem id) in Hrej; [lia | cbn; apply String.eqb_refl].
Qed.

Lemma not_issued id tr :
  Forall (λ e, match e with
               | ws_send _ frame => req_id frame ≠ id
               | _ => True
               end) tr →
  ¬ issued id tr.
Proof.
  intros Hall (sock & frame & Hin & Hid).
  rewrite Forall_forall in Hall. by apply (Hall _ Hin).
Qed.

Lemma issued_or_not id tr : issued id tr ∨ ¬ issued id tr.
Proof.
  induction tr as [|e tr IH].
  - right. intros (s & f & Hin & _). by apply elem_of_nil in Hin.
  - destruct IH as [(s & f & Hin & Hid) | Hn].
    { left. exists s, f. split; [by apply elem_of_cons; right | done]. }
    destruct e as [| | | | | | sock frame | | | | |];
      try (right; intros (s' & f' & [Heq | Hin]%elem_of_cons & Hid);
           [discriminate | apply Hn; by exists s', f']).
    destruct (decide (req_id frame = id)) as [Heq | Hne].
    + left. exists sock, frame. split; [by apply elem_of_cons; left | done].
    + right. intros (s' & f' & [Heq | Hin]%elem_of_cons & Hid).
      * injection Heq as <- <-. done.
      * apply Hn. by exists s', f'.
Qed.

(** C3.  In every world the client can reach, for every request id: the
    calls of [resolve] and [reject] for that id number at most one, none
    while the entry is pending, exactly one once the request was sent and its
    entry is gone, and never one of each.  A response with that id and
    [ok = true], arriving while the entry is pending, deletes the entry,
    clears its timer and resolves the call with the payload of the response.
    A response whose id has no entry changes nothing.  When the timeout of a
    request fires, the entry is deleted and the call is rejected with
    "RPC timeout: <method> (<timeoutMs>ms)"; a response for that id arriving
    afterwards changes nothing. *)
Theorem C3_pending_settled_once w id :
  reachable w →
  let tr := trace (rt w) in
  ((settled id tr ≤ 1)%nat
   ∧ (is_Some (pending (this w) !! id) → settled id tr = 0%nat)
   ∧ (issued id tr → pending (this w) !! id = None → settled id tr = 1%nat)
   ∧ (∀ payload message code,
        ¬ (resolve id payload ∈ tr ∧ reject id message code ∈ tr)))
  ∧ (∀ env p payload,
       pending (this w) !! id = Some p →
       exec (handleMessage env (Some (okResponse id payload))) w
       = settled_world w id (awaiter p) (timer p) (Resolved (Some payload)))
  ∧ (∀ ok payload error,
       pending (this w) !! id = None →
       exec (handleResponse id ok payload error) w = w)
  ∧ (∀ env t tm method timeoutMs aw,
       timers (rt w) !! t = Some tm →
       callback tm = RpcTimeout id method timeoutMs aw →
       let w' := exec (dispatch env (TimerFired t)) w in
       w' = settled_world w id aw (Some t)
              (Rejected ("RPC timeout: " +:+ method +:+ " ("
                         +:+ Str.of_number timeoutMs +:+ "ms)") None)
       ∧ pending (this w') !! id = None
       ∧ ∀ ok payload error,
           exec (handleResponse id ok payload error) w' = w').
Proof.
  intros Hw tr. assert (Hok := reachable_rpc_ok w Hw).
  destruct Hok as (H1 & H2 & H3 & H4). fold tr in H1, H3, H4.
  assert (Hle : (settled id tr ≤ 1)%nat).
  { destruct (pending (this w) !! id) as [p|] eqn:Hp.
    - destruct (H1 id) as [-> _]; [by rewrite Hp | lia].
    - destruct (issued_or_not id tr) as [Hi | Hi].
      + rewrite (H3 id Hi Hp). lia.
      + rewrite (H4 id Hi). lia. }
  split; [split_and! |split_and!].
  - exact Hle.
  - intros Hp. by destruct (H1 id Hp).
  - exact (H3 id).
  - intros payload message code [Hres Hrej].
    pose proof (settled_both id payload message code tr Hres Hrej). lia.
  - intros env p payload Hp. rewrite okResponse_frame.
    by apply handleResponse_resolves.
  - intros ok payload error Hp. unfold exec.
    by rewrite handleResponse_unknown.
  - intros env t [cb d rep] method timeoutMs aw Ht Hcb w'.
    cbn in Hcb. subst cb.
    destruct (H2 t _ id method timeoutMs aw Ht eq_refl) as [Hrep _].
    cbn in Hrep. subst rep.
    assert (Hw' : w' = settled_world w id aw (Some t)
                         (Rejected (rpcTimeoutMessage method timeoutMs) None))
      by (by apply (rpcTimeout_fires env w t d)).
    assert (Hgone : pending (this w') !! id = None).
    { rewrite Hw'. destruct w as [[] []]. cbn. apply lookup_delete_eq. }
    split_and!; [exact Hw' | exact Hgone |].
    intros ok payload error. unfold exec.
    by rewrite handleResponse_unknown.
Qed.

Lemma C3_witness :
  let w := run [ (localEnv, Start); (localEnv, WsOpen 1);
                 (localEnv, Request "chat.history" JNull 15000) ]
               new_World in
  let w' := exec (dispatch localEnv (TimerFired 2)) w in
  reachable w
  ∧ pending (this w) !! "uuid-1"
    = Some {| awaiter := ExternalCaller; timer := Some 2%nat |}
  ∧ settled "uuid-1" (trace (rt w)) = 0%nat
  ∧ last (trace (rt w'))
    = Some (reject "uuid-1" "RPC timeout: chat.history (15000ms)" None)
  ∧ settled "uuid-1" (trace (rt w')) = 1%nat
  ∧ exec (handleResponse "uuid-1" true (Some JNull) None) w' = w'.
Proof.
  intros w w'.
  assert (Hw : reachable w).
  { repeat apply reachable_step; [apply reachable_new | ..];
      apply not_issued; vm_compute; repeat constructor. }
  assert (Hp : pending (this w) !! "uuid-1"
               = Some {| awaiter := ExternalCaller; timer := Some 2%nat |})
    by (by vm_compute).
  assert (Ht : timers (rt w) !! 2%nat
               = Some {| callback := RpcTimeout "uuid-1" "chat.history" 15000
                                       ExternalCaller;
                         delay := 15000; repeating := false |})
    by (by vm_compute).
  destruct (C3_pending_settled_once w "uuid-1" Hw)
    as ((_ & Hnone & _) & _ & _ & Htimeout).
  destruct (Htimeout localEnv 2%nat _ _ _ _ Ht eq_refl) as (Heq & _ & Hlate).
  fold w' in Heq, Hlate.
  split_and!.
  - exact Hw.
  - exact Hp.
  - apply Hnone. by rewrite Hp.
  - rewrite Heq. by vm_compute.
  - rewrite Heq. by vm_compute.
  - apply Hlate.
Defined.

End WsGatewayClientFacts.

(** ** Device identity: encoding, generation, signing *)

Module DeviceIdentityKeysFacts.
Import DeviceIdentity DeviceIdentityKeys Plugin StrFacts DeviceIdentityFacts.

Lemma charCodes_fromCharCodes bytes : charCodes (fromCharCodes bytes) = bytes.
Proof.
  induction bytes as [|b bytes IH]; [done |].
  cbn [fromCharCodes charCodes]. by rewrite byte_of_ascii_of_byte, IH.
Qed.

Lemma map_length f s : String.length (Str.map f s) = String.length s.
Proof. induction s as [|c s IH]; [done | cbn; by rewrite IH]. Qed.

Lemma map_map f g s : Str.map g (Str.map f s) = Str.map (λ c, g (f c)) s.
Proof. induction s as [|c s IH]; [done | cbn; by rewrite IH]. Qed.

Lemma map_id_on (p : ascii → bool) f s :
  (∀ c, p c = true → f c = c) → Str.all p s = true → Str.map f s = s.
Proof.
  intros Hf. induction s as [|c s IH]; [done |].
  cbn. intros [Hc Hs]%andb_true_iff. by rewrite (Hf c Hc), IH.
Qed.

Lemma map_app f s t : Str.map f (s +:+ t) = Str.map f s +:+ Str.map f t.
Proof.
  induction s as [|c s IH]; [done |].
  rewrite str_app_cons. cbn. by rewrite IH.
Qed.

Lemma all_map p f s : Str.all p (Str.map f s) = Str.all (λ c, p (f c)) s.
Proof. induction s as [|c s IH]; [done | cbn; by rewrite IH]. Qed.

Lemma all_impl (p q : ascii → bool) s :
  (∀ c, p c = true → q c = true) → Str.all p s = true → Str.all q s = true.
Proof.
  intros Hpq. induction s as [|c s IH]; [done |].
  cbn. intros [Hc Hs]%andb_true_iff. by rewrite (Hpq c Hc), IH.
Qed.

(** Stripping and a character map that keeps the stripped character apart
    commute. *)
Lemma stripTrailing_map c f s :
  (∀ d, Ascii.eqb (f d) c = Ascii.eqb d c) →
  Str.stripTrailing c (Str.map f s) = Str.map f (Str.stripTrailing c s).
Proof.
  intros Hf. induction s as [|d s IH]; [done |].
  change (Str.map f (String d s)) with (String (f d) (Str.map f s)).
  cbn [Str.stripTrailing]. rewrite IH, Hf.
  destruct (Str.stripTrailing c s) as [|e rest]; cbn.
  - by destruct (Ascii.eqb d c).
  - done.
Qed.

(** What [stripTrailing] removes is a run of the character. *)
Lemma stripTrailing_split c s :
  s = Str.stripTrailing c s
      +:+ Str.repeat (String c "")
            (String.length s - String.length (Str.stripTrailing c s)).
Proof.
  induction s as [|d s IH]; [done |].
  cbn [Str.stripTrailing].
  destruct (Str.stripTrailing c s) as [|e rest] eqn:E.
  - destruct (Ascii.eqb_spec d c) as [-> | Hne].
    + cbn [String.length] in *. rewrite Nat.sub_0_r in *.
      cbn [Str.repeat]. rewrite str_app_nil_l in *.
      rewrite str_app_cons, str_app_nil_l. by rewrite <- IH.
    + cbn [String.length] in *. rewrite Nat.sub_0_r in IH.
      rewrite str_app_nil_l in IH. rewrite str_app_cons, str_app_nil_l.
      replace (S (String.length s) - 1)%nat with (String.length s) by lia.
      by rewrite <- IH.
  - rewrite str_app_cons. cbn [String.length] in *.
    replace (S (String.length s) - S (S (String.length rest)))%nat
      with (String.length s - S (String.length rest))%nat by lia.
    by rewrite <- IH.
Qed.

Lemma stripTrailing_length c s :
  (String.length (Str.stripTrailing c s) ≤ String.length s)%nat.
Proof.
  pose proof (stripTrailing_split c s) as H.
  apply (f_equal String.length) in H. rewrite str_length_app in H. lia.
Qed.

(** The padding that [base64UrlDecode] adds is the one [base64UrlEncode]
    stripped. *)
Lemma padding_restored n k :
  ((n + k) mod 4 = 0 → k ≤ 2 → (4 - n mod 4) mod 4 = k)%nat.
Proof.
  intros H Hk.
  pose proof (Nat.div_mod_eq (n + k) 4) as E. rewrite H in E.
  pose proof (Nat.div_mod_eq n 4) as En.
  pose proof (Nat.mod_upper_bound n 4 ltac:(done)) as Hn.
  destruct k as [|[|[|k]]]; [| | | lia].
  - assert (n mod 4 = 0)%nat as -> by lia. done.
  - assert (n mod 4 = 3)%nat as -> by lia. done.
  - assert (n mod 4 = 2)%nat as -> by lia. done.
Qed.

Lemma all_stripTrailing p c s :
  Str.all p s = true → Str.all p (Str.stripTrailing c s) = true.
Proof.
  induction s as [|d s IH]; [done |].
  cbn [Str.all Str.stripTrailing]. intros [Hd Hs]%andb_true_iff.
  specialize (IH Hs).
  destruct (Str.stripTrailing c s) as [|e rest].
  - destruct (Ascii.eqb d c); [done |]. cbn. by rewrite Hd.
  - cbn [Str.all] in *. by rewrite Hd, IH.
Qed.

Lemma all_true (p : ascii → bool) s : (∀ c, p c = true) → Str.all p s = true.
Proof.
  intros Hp. induction s as [|c s IH]; [done | cbn; by rewrite Hp, IH].
Qed.

Lemma stripTrailing_no_run c s t : Str.stripTrailing c s ≠ t +:+ String c "".
Proof.
  revert t. induction s as [|d s IH]; intros t.
  - by destruct t.
  - cbn [Str.stripTrailing].
    destruct (Str.stripTrailing c s) as [|e rest] eqn:E.
    + destruct (Ascii.eqb_spec d c) as [-> | Hne]; [by destruct t |].
      destruct t as [|a [|b t]]; rewrite ?str_app_cons, ?str_app_nil_l;
        [congruence | done | done].
    + destruct t as [|a t]; rewrite ?str_app_cons, ?str_app_nil_l; [done |].
      intros H. injection H as _ H. by apply (IH t).
Qed.

(** The two replacements of [base64UrlEncode], and those of
    [base64UrlDecode], on one character. *)
Lemma url_alphabet_round_trip c :
  is_base64_char c = true →
  (let c1 := if Ascii.eqb c "+" then "-"%char else c in
   let c2 := if Ascii.eqb c1 "/" then "_"%char else c1 in
   let c3 := if Ascii.eqb c2 "-" then "+"%char else c2 in
   if Ascii.eqb c3 "_" then "/"%char else c3) = c.
Proof. destruct c as [[] [] [] [] [] [] [] []]; by vm_compute. Qed.

Lemma url_alphabet_keeps_pad c :
  Ascii.eqb (if Ascii.eqb c "+" then "-"%char else c) "=" = Ascii.eqb c "="
  ∧ Ascii.eqb (if Ascii.eqb c "/" then "_"%char else c) "=" = Ascii.eqb c "=".
Proof. destruct c as [[] [] [] [] [] [] [] []]; by vm_compute. Qed.

Lemma url_alphabet_safe c :
  let c1 := if Ascii.eqb c "+" then "-"%char else c in
  let c2 := if Ascii.eqb c1 "/" then "_"%char else c1 in
  negb (Ascii.eqb c2 "+") = true ∧ negb (Ascii.eqb c2 "/") = true.
Proof. destruct c as [[] [] [] [] [] [] [] []]; by vm_compute. Qed.

Lemma base64UrlEncode_body btoa bytes :
  base64UrlEncode btoa bytes
  = Str.replaceAll "/" "_"
      (Str.replaceAll "+" "-"
         (Str.stripTrailing "=" (btoa (fromCharCodes bytes)))).
Proof.
  unfold base64UrlEncode, Str.replaceAll.
  rewrite !stripTrailing_map; [done | |]; intros d;
    by destruct (url_alphabet_keeps_pad d).
Qed.

Lemma decode_encode btoa atob bytes :
  decodable btoa atob bytes →
  base64UrlDecode atob (base64UrlEncode btoa bytes) = Some bytes.
Proof.
  intros [Hatob Hshape]. unfold standard_base64 in Hshape.
  set (enc := btoa (fromCharCodes bytes)) in *.
  set (body := Str.stripTrailing "=" enc) in *.
  apply andb_true_iff in Hshape as [[Hmod Hpad]%andb_true_iff Hall].
  apply Nat.eqb_eq in Hmod. apply Nat.leb_le in Hpad.
  rewrite base64UrlEncode_body. fold enc body.
  unfold base64UrlDecode, Str.replaceAll.
  rewrite !map_length, !map_map.
  rewrite (map_id_on is_base64_char _ body);
    [| exact url_alphabet_round_trip | exact Hall].
  pose proof (stripTrailing_length "=" enc) as Hlen. fold body in Hlen.
  rewrite (padding_restored (String.length body)
             (String.length enc - String.length body));
    [| by replace (String.length body
                   + (String.length enc - String.length body))%nat
         with (String.length enc) by lia | done].
  unfold body. rewrite <- (stripTrailing_split "=" enc).
  rewrite Hatob. cbn. by rewrite charCodes_fromCharCodes.
Qed.

(** X1.  Round trip of the key encoding: when [atob] gives back what [btoa]
    encoded for these bytes, and [btoa] gave base64 of the standard shape,
    decoding the base64url text of the bytes yields the bytes. *)
Theorem base64url_round_trip btoa atob bytes :
  decodable btoa atob bytes →
  base64UrlDecode atob (base64UrlEncode btoa bytes) = Some bytes.
Proof. apply decode_encode. Qed.

Lemma base64url_round_trip_witness :
  let bytes := [xfb; xff; xbe; x6b]%byte in
  base64UrlEncode Base64.btoa bytes = "-_--aw"
  ∧ base64UrlDecode Base64.atob "-_--aw" = Some bytes.
Proof.
  intros bytes.
  assert (H : decodable Base64.btoa Base64.atob bytes) by (by vm_compute).
  assert (E : base64UrlEncode Base64.btoa bytes = "-_--aw") by (by vm_compute).
  split; [exact E |].
  rewrite <- E. exact (base64url_round_trip Base64.btoa Base64.atob bytes H).
Defined.

(** X2.  Whatever [btoa] returns, the base64url text has no "+" and no "/",
    and does not end with "=". *)
Theorem base64UrlEncode_url_safe btoa bytes :
  free_of "+" (base64UrlEncode btoa bytes) = true
  ∧ free_of "/" (base64UrlEncode btoa bytes) = true
  ∧ ∀ s, base64UrlEncode btoa bytes ≠ s +:+ "=".
Proof.
  split_and!; [| | apply stripTrailing_no_run];
    unfold free_of, base64UrlEncode, Str.replaceAll;
    apply all_stripTrailing; rewrite map_map, all_map; apply all_true;
    intros c; by destruct (url_alphabet_safe c).
Qed.

Lemma hex_byte_digits b :
  padStart 2 "0" (toString16 b)
  = String (hexDigit (Byte.to_N b / 16))
           (String (hexDigit (Byte.to_N b mod 16)) "").
Proof. by destruct b. Qed.

Lemma hexDigit_inj m n : (m < 16 → n < 16 → hexDigit m = hexDigit n → m = n)%N.
Proof.
  pose (g := λ c : ascii,
          let v := N_of_ascii c in if (v <? 58)%N then (v - 48)%N
                                   else (v - 87)%N).
  assert (Hg : ∀ k, (k < 16)%N → g (hexDigit k) = k).
  { intros k Hk.
    assert (k = 0 ∨ k = 1 ∨ k = 2 ∨ k = 3 ∨ k = 4 ∨ k = 5 ∨ k = 6 ∨ k = 7
            ∨ k = 8 ∨ k = 9 ∨ k = 10 ∨ k = 11 ∨ k = 12 ∨ k = 13 ∨ k = 14
            ∨ k = 15)%N as Hcases by lia.
    repeat (destruct Hcases as [-> | Hcases]; [reflexivity |]).
    by subst. }
  intros Hm Hn H. by rewrite <- (Hg m Hm), <- (Hg n Hn), H.
Qed.

Lemma hex_byte_inj x y :
  padStart 2 "0" (toString16 x) = padStart 2 "0" (toString16 y) → x = y.
Proof.
  rewrite !hex_byte_digits. intros H. injection H as Hh Hl.
  pose proof (Byte.to_N_bounded x) as Hx.
  pose proof (Byte.to_N_bounded y) as Hy.
  apply hexDigit_inj in Hh;
    [| apply N.Div0.div_lt_upper_bound; lia
     | apply N.Div0.div_lt_upper_bound; lia].
  apply hexDigit_inj in Hl; [| by apply N.mod_lt | by apply N.mod_lt].
  assert (E : Byte.to_N x = Byte.to_N y).
  { rewrite (N.div_mod (Byte.to_N x) 16), (N.div_mod (Byte.to_N y) 16);
      [| done | done].
    by rewrite Hh, Hl. }
  apply (f_equal Byte.of_N) in E. rewrite !Byte.of_to_N in E.
  by injection E.
Qed.

(** X3.  The hex encoding loses nothing: byte sequences with the same hex
    text are equal, so the device id determines the digest it prints. *)
Theorem hexEncode_inj a b : hexEncode a = hexEncode b → a = b.
Proof.
  revert b. induction a as [|x a IH]; intros [|y b] H.
  - done.
  - apply (f_equal String.length) in H. rewrite !hexEncode_length in H.
    cbn in H. lia.
  - apply (f_equal String.length) in H. rewrite !hexEncode_length in H.
    cbn in H. lia.
  - rewrite !hexEncode_cons, !hex_byte_digits in H.
    rewrite !str_app_cons, !str_app_nil_l in H.
    injection H as Hh Hl Hrest.
    f_equal; [| by apply IH].
    apply hex_byte_inj. rewrite !hex_byte_digits. by rewrite Hh, Hl.
Qed.

Lemma hexEncode_inj_witness :
  hexEncode [x0f; xa0]%byte = "0fa0"
  ∧ ∀ b, hexEncode b = "0fa0" → b = [x0f; xa0]%byte.
Proof.
  split; [reflexivity |].
  intros b H. symmetry. by apply (hexEncode_inj [x0f; xa0]%byte b).
Defined.

Section Platform.

Variable btoa : string → string.
Variable atob : string → option string.
Variable sha256 : list byte → list byte.
Variable getPublicKey : list byte → list byte.
Variable sign : list byte → list byte → option (list byte).

Lemma validate_result data result warnings :
  validateDeviceIdentity atob sha256 data = Some (result, warnings) →
  ∃ raw, base64UrlDecode atob (publicKey data) = Some raw
         ∧ publicKey result = publicKey data
         ∧ deviceId result = sha256Hex sha256 raw
         ∧ (deviceId data = sha256Hex sha256 raw → result = data).
Proof.
  unfold validateDeviceIdentity.
  destruct (base64UrlDecode atob (publicKey data)) as [raw|] eqn:Hraw;
    [| done].
  cbn [mbind option_bind].
  destruct (String.eqb_spec (sha256Hex sha256 raw) (deviceId data))
    as [Heq | Hne]; cbn [negb]; intros H; injection H as <- <-;
    exists raw; split_and!; try done.
Qed.

Lemma validate_consistent data raw :
  base64UrlDecode atob (publicKey data) = Some raw →
  deviceId data = sha256Hex sha256 raw →
  validateDeviceIdentity atob sha256 data = Some (data, []).
Proof.
  intros Hraw Hid. unfold validateDeviceIdentity.
  rewrite Hraw. cbn [mbind option_bind]. by rewrite Hid, String.eqb_refl.
Qed.

(** C7.  For an identity whose stored public key is the base64url text of
    the raw key bytes, [validateDeviceIdentity] decodes those bytes and
    recomputes the device id as the lowercase-hex SHA-256 of them; it returns
    the identity unchanged when the stored deviceId is that value, and
    otherwise a copy in which only deviceId is replaced by it: version,
    publicKey, privateKey and createdAtMs are those of the input, whatever
    the stored deviceId was. *)
Theorem C7_validateDeviceIdentity (data : DeviceIdentityData)
    (bytes : list byte) :
  decodable btoa atob bytes →
  publicKey data = base64UrlEncode btoa bytes →
  let derived := hexEncode (sha256 bytes) in
  base64UrlDecode atob (publicKey data) = Some bytes
  ∧ Str.all is_lower_hex derived = true
  ∧ String.length derived = (2 * length (sha256 bytes))%nat
  ∧ ∃ result warnings,
      validateDeviceIdentity atob sha256 data = Some (result, warnings)
      ∧ deviceId result = derived
      ∧ version result = version data
      ∧ publicKey result = publicKey data
      ∧ privateKey result = privateKey data
      ∧ createdAtMs result = createdAtMs data
      ∧ (deviceId data = derived → result = data ∧ warnings = [])
      ∧ (deviceId data ≠ derived →
           result = {| version := version data; deviceId := derived;
                       publicKey := publicKey data;
                       privateKey := privateKey data;
                       createdAtMs := createdAtMs data |}
           ∧ warnings = [deviceIdMismatchWarning]).
Proof.
  intros Hplat Hpk derived.
  assert (Hdec : base64UrlDecode atob (publicKey data) = Some bytes)
    by (rewrite Hpk; by apply decode_encode).
  split; [exact Hdec |].
  split; [apply hexEncode_lower_hex | split; [apply hexEncode_length |]].
  unfold validateDeviceIdentity. rewrite Hdec. cbn [mbind option_bind].
  fold derived. unfold sha256Hex. fold derived.
  destruct (String.eqb derived (deviceId data)) eqn:E; cbn [negb].
  - apply String.eqb_eq in E. eexists _, _. split; [reflexivity |].
    repeat split; try done; intros ?; congruence.
  - apply String.eqb_neq in E. eexists _, _. split; [reflexivity |].
    repeat split; try done; intros ?; congruence.
Qed.

(** X4.  Validation settles: the identity that [validateDeviceIdentity]
    returns carries the id derived from its public key, and validating it
    again returns it as it is, without a warning. *)
Theorem validateDeviceIdentity_idempotent data result warnings :
  validateDeviceIdentity atob sha256 data = Some (result, warnings) →
  (∃ raw, base64UrlDecode atob (publicKey result) = Some raw
          ∧ deviceId result = sha256Hex sha256 raw)
  ∧ validateDeviceIdentity atob sha256 result = Some (result, []).
Proof.
  intros (raw & Hraw & Hpk & Hid & _)%validate_result.
  rewrite <- Hpk in Hraw.
  split; [by exists raw | by apply (validate_consistent result raw)].
Qed.

(** X5.  [ensureDeviceIdentity] leaves an identity whose id is the one
    derived from its public key; it hands to [saveSettings] exactly the
    identity it changed, and nothing when the stored one was consistent;
    run again on its result, whatever seed and time the platform would
    give, it changes nothing and saves nothing. *)
Theorem ensureDeviceIdentity_settles seed now stored d saved :
  (stored = None → decodable btoa atob (getPublicKey seed)) →
  ensureDeviceIdentity btoa atob sha256 seed getPublicKey now stored
  = Some (d, saved) →
  (∃ raw, base64UrlDecode atob (publicKey d) = Some raw
          ∧ deviceId d = sha256Hex sha256 raw)
  ∧ (stored = Some d ∧ saved = [] ∨ stored ≠ Some d ∧ saved = [d])
  ∧ ∀ seed' now',
      ensureDeviceIdentity btoa atob sha256 seed' getPublicKey now' (Some d)
      = Some (d, []).
Proof.
  intros Hdec Hrun.
  assert (Hok : ∃ raw, base64UrlDecode atob (publicKey d) = Some raw
                       ∧ deviceId d = sha256Hex sha256 raw).
  { destruct stored as [s|]; cbn [ensureDeviceIdentity] in Hrun.
    - destruct (validateDeviceIdentity atob sha256 s) as [[r w]|] eqn:Hv;
        [| done].
      cbn [mbind option_bind fst] in Hrun.
      destruct (validate_result s r w Hv) as (raw & Hraw & Hpk & Hid & Hsame).
      exists raw.
      destruct (String.eqb_spec (deviceId r) (deviceId s)) as [E | E];
        cbn [negb] in Hrun; injection Hrun as <- <-.
      + split; [done | by rewrite <- E].
      + by rewrite Hpk.
    - injection Hrun as <- <-. exists (getPublicKey seed).
      cbn [generateDeviceIdentity publicKey deviceId].
      split; [by apply decode_encode, Hdec | done]. }
  split; [exact Hok | split].
  - destruct stored as [s|]; cbn [ensureDeviceIdentity] in Hrun.
    + destruct (validateDeviceIdentity atob sha256 s) as [[r w]|] eqn:Hv;
        [| done].
      cbn [mbind option_bind fst] in Hrun.
      destruct (validate_result s r w Hv) as (raw & Hraw & Hpk & Hid & Hsame).
      destruct (String.eqb_spec (deviceId r) (deviceId s)) as [E | E];
        cbn [negb] in Hrun; injection Hrun as <- <-.
      * by left.
      * right. split; [| done]. intros H. injection H as ->. done.
    + injection Hrun as <- <-. by right.
  - intros seed' now'. destruct Hok as (raw & Hraw & Hid).
    cbn [ensureDeviceIdentity].
    rewrite (validate_consistent d raw Hraw Hid).
    cbn [mbind option_bind fst]. by rewrite String.eqb_refl.
Qed.

(** X6.  Signing with the stored private key of a generated identity signs
    the UTF-8 bytes of the payload with the seed that was generated, and
    returns the base64url text of the signature; it is rejected when
    signing rejects. *)
Theorem signPayload_generated seed now payload :
  decodable btoa atob seed →
  signPayload btoa atob sign
    (privateKey (generateDeviceIdentity btoa sha256 seed getPublicKey now))
    payload
  = base64UrlEncode btoa <$> sign (utf8 payload) seed.
Proof.
  intros Hdec. unfold signPayload. cbn [generateDeviceIdentity privateKey].
  rewrite (decode_encode btoa atob seed Hdec). cbn [mbind option_bind].
  by destruct (sign (utf8 payload) seed).
Qed.

End Platform.

(** A tampered identity is repaired from its public key: "a2V5" is the
    base64url text of the three bytes "key"; with the reference base64 and
    a digest that reverses its input, the stored id of sixty-four zeros is
    replaced by the hex text of "yek". *)
Lemma C7_witness :
  let sha256 := λ l : list byte, rev l in
  let data := {| version := 1; deviceId := Str.repeat "0" 64;
                 publicKey := "a2V5"; privateKey := "c2VlZA";
                 createdAtMs := 1700000000000 |} in
  base64UrlDecode Base64.atob "a2V5" = Some (charCodes "key")
  ∧ validateDeviceIdentity Base64.atob sha256 data
    = Some ({| version := 1; deviceId := "79656b"; publicKey := "a2V5";
               privateKey := "c2VlZA"; createdAtMs := 1700000000000 |},
            [deviceIdMismatchWarning]).
Proof.
  intros sha256 data.
  assert (Hplat : decodable Base64.btoa Base64.atob (charCodes "key"))
    by (by vm_compute).
  assert (Hpk : publicKey data
                = base64UrlEncode Base64.btoa (charCodes "key"))
    by (by vm_compute).
  destruct (C7_validateDeviceIdentity Base64.btoa Base64.atob sha256 data
              (charCodes "key") Hplat Hpk)
    as (Hdec & _ & _ & result & warnings & Hrun & _ & _ & _ & _ & _ & _
        & Hrepair).
  split; [exact Hdec |].
  rewrite Hrun. destruct Hrepair as [-> ->]; [by vm_compute |].
  by vm_compute.
Defined.

Lemma validateDeviceIdentity_idempotent_witness :
  let sha256 := λ l : list byte, rev l in
  let data := {| version := 1; deviceId := "00"; publicKey := "a2V5";
                 privateKey := "c2VlZA"; createdAtMs := 1700000000000 |} in
  let repaired := {| version := 1; deviceId := "79656b"; publicKey := "a2V5";
                     privateKey := "c2VlZA";
                     createdAtMs := 1700000000000 |} in
  validateDeviceIdentity Base64.atob sha256 data
  = Some (repaired, [deviceIdMismatchWarning])
  ∧ validateDeviceIdentity Base64.atob sha256 repaired = Some (repaired, []).
Proof.
  intros sha256 data repaired.
  assert (H : validateDeviceIdentity Base64.atob sha256 data
              = Some (repaired, [deviceIdMismatchWarning]))
    by (by vm_compute).
  split; [exact H |].
  exact (proj2 (validateDeviceIdentity_idempotent Base64.atob sha256 data
                  repaired _ H)).
Defined.

Lemma ensureDeviceIdentity_settles_witness :
  let sha256 := λ l : list byte, rev l in
  let getPublicKey := λ l : list byte, (l ++ [xfb; xff])%list in
  let seed := [x01; x02; x03]%byte in
  let d := {| version := 1; deviceId := "fffb030201"; publicKey := "AQID-_8";
              privateKey := "AQID"; createdAtMs := 1700000000000 |} in
  ensureDeviceIdentity Base64.btoa Base64.atob sha256 seed getPublicKey
    1700000000000 None
  = Some (d, [d])
  ∧ ensureDeviceIdentity Base64.btoa Base64.atob sha256 [x09]%byte
      getPublicKey 1800000000000 (Some d)
    = Some (d, []).
Proof.
  intros sha256 getPublicKey seed d.
  assert (H : ensureDeviceIdentity Base64.btoa Base64.atob sha256 seed
                getPublicKey 1700000000000 None = Some (d, [d]))
    by (by vm_compute).
  split; [exact H |].
  apply (ensureDeviceIdentity_settles Base64.btoa Base64.atob sha256
           getPublicKey seed 1700000000000 None d [d]); [| exact H].
  intros _. by vm_compute.
Defined.

Lemma signPayload_generated_witness :
  let sha256 := λ l : list byte, rev l in
  let getPublicKey := λ l : list byte, (l ++ [xfb; xff])%list in
  let sign := λ msg key : list byte, Some (key ++ take 2 msg)%list in
  let seed := [x01; x02; x03]%byte in
  signPayload Base64.btoa Base64.atob sign
    (privateKey (generateDeviceIdentity Base64.btoa sha256 seed getPublicKey
                   1700000000000))
    "v2|dev"
  = Some "AQIDdjI".
Proof.
  intros sha256 getPublicKey sign seed.
  rewrite (signPayload_generated Base64.btoa Base64.atob sha256 getPublicKey
             sign seed 1700000000000 "v2|dev"); [| by vm_compute].
  by vm_compute.
Defined.

End DeviceIdentityKeysFacts.

(** ** device-identity.ts: what the signed payload determines *)

Module AuthPayloadFacts.
Import DeviceIdentity DeviceIdentityKeys StrFacts DeviceIdentityFacts.

(** Two texts that agree up to their first separator agree before and
    after it. *)
Lemma split_at c a b x y :
  free_of c a = true → free_of c b = true →
  a +:+ String c x = b +:+ String c y → a = b ∧ x = y.
Proof.
  revert b. induction a as [|d a IH]; intros [|e b] Ha Hb H.
  - rewrite !str_app_nil_l in H. by injection H.
  - rewrite str_app_nil_l, str_app_cons in H. injection H as <- _.
    cbn in Hb. by rewrite Ascii.eqb_refl in Hb.
  - rewrite str_app_nil_l, str_app_cons in H. injection H as -> _.
    cbn in Ha. by rewrite Ascii.eqb_refl in Ha.
  - rewrite !str_app_cons in H. injection H as -> H.
    cbn in Ha, Hb. apply andb_true_iff in Ha as [_ Ha], Hb as [_ Hb].
    destruct (IH b Ha Hb H) as [-> ->]. done.
Qed.

Lemma split_at_pipe a b x y :
  free_of "|" a = true → free_of "|" b = true →
  a +:+ "|" +:+ x = b +:+ "|" +:+ y → a = b ∧ x = y.
Proof. apply split_at. Qed.

Lemma digits_pipe_free d : free_of "|" (NilEmpty.string_of_uint d) = true.
Proof. induction d; cbn; done. Qed.

(** A number in decimal holds no separator. *)
Lemma of_number_pipe_free n : free_of "|" (Str.of_number n) = true.
Proof.
  unfold Str.of_number.
  destruct (Z.to_int n) as [d | d]; cbn;
    destruct d; try done; apply (digits_pipe_free (_ d)) || apply digits_pipe_free.
Qed.

(** A number is read back from its decimal form. *)
Lemma of_number_inj n m : Str.of_number n = Str.of_number m → n = m.
Proof.
  unfold Str.of_number. intros H.
  assert (Hnz : ∀ z, Z.to_int z ≠ Decimal.Pos Decimal.Nil
                     ∧ Z.to_int z ≠ Decimal.Neg Decimal.Nil).
  { intros [|p|p]; cbn; split; try done; intros E; injection E as E;
      by apply DecimalPos.Unsigned.to_uint_nonnil in E. }
  assert (E : Some (Z.to_int n) = Some (Z.to_int m)).
  { rewrite <- (NilZero.isi (Z.to_int n)) by apply Hnz.
    rewrite <- (NilZero.isi (Z.to_int m)) by apply Hnz. by rewrite H. }
  injection E as E.
  by rewrite <- (DecimalZ.of_to n), <- (DecimalZ.of_to m), E.
Qed.

(** X22.  The payload that gets signed determines what was signed: when no
    field before the nonce holds the separator, two parameter records with
    the same payload have the same device id, client id, client mode, role,
    comma-joined scopes, signing time, token (null counting as the empty
    token) and nonce. *)
Theorem payload_determines_fields p q :
  pipe_free_fields p = true → pipe_free_fields q = true →
  buildDeviceAuthPayload p = buildDeviceAuthPayload q →
  ap_deviceId p = ap_deviceId q ∧ ap_clientId p = ap_clientId q
  ∧ ap_clientMode p = ap_clientMode q ∧ ap_role p = ap_role q
  ∧ String.concat "," (ap_scopes p) = String.concat "," (ap_scopes q)
  ∧ ap_signedAtMs p = ap_signedAtMs q
  ∧ default "" (ap_token p) = default "" (ap_token q)
  ∧ ap_nonce p = ap_nonce q.
Proof.
  unfold pipe_free_fields. rewrite !andb_true_iff.
  intros [[[[[Hp1 Hp2] Hp3] Hp4] Hp5] Hp6] [[[[[Hq1 Hq2] Hq3] Hq4] Hq5] Hq6].
  rewrite !payload_format. intros H.
  apply split_at_pipe in H as [_ H]; [| done | done].
  apply split_at_pipe in H as [E1 H]; [| done | done].
  apply split_at_pipe in H as [E2 H]; [| done | done].
  apply split_at_pipe in H as [E3 H]; [| done | done].
  apply split_at_pipe in H as [E4 H]; [| done | done].
  apply split_at_pipe in H as [E5 H]; [| done | done].
  apply split_at_pipe in H as [E6 H]; [| apply of_number_pipe_free ..].
  apply split_at_pipe in H as [E7 H]; [| done | done].
  apply of_number_inj in E6. done.
Qed.

(** A null token and an empty token sign the same payload, and nothing else
    of the two records differs. *)
Lemma payload_determines_fields_witness :
  let p := {| ap_deviceId := "79656b"; ap_clientId := "webchat-ui";
              ap_clientMode := "webchat"; ap_role := "operator";
              ap_scopes := ["operator.read"; "operator.write"];
              ap_signedAtMs := 1700000000500; ap_token := None;
              ap_nonce := "nonce|1" |} in
  let q := {| ap_deviceId := "79656b"; ap_clientId := "webchat-ui";
              ap_clientMode := "webchat"; ap_role := "operator";
              ap_scopes := ["operator.read"; "operator.write"];
              ap_signedAtMs := 1700000000500; ap_token := Some "";
              ap_nonce := "nonce|1" |} in
  buildDeviceAuthPayload p = buildDeviceAuthPayload q
  ∧ ap_signedAtMs p = ap_signedAtMs q
  ∧ default "" (ap_token p) = default "" (ap_token q)
  ∧ ap_nonce p = ap_nonce q.
Proof.
  intros p q.
  assert (Hp : pipe_free_fields p = true) by (by vm_compute).
  assert (Hq : pipe_free_fields q = true) by (by vm_compute).
  assert (H : buildDeviceAuthPayload p = buildDeviceAuthPayload q)
    by (by vm_compute).
  destruct (payload_determines_fields p q Hp Hq H)
    as (_ & _ & _ & _ & _ & E1 & E2 & E3).
  done.
Defined.

End AuthPayloadFacts.

(** ** gateway-client.ts: conversation, session key, listeners, abort *)

Module GatewayFacadeFacts.
Import GatewayClient GatewayFacade StrFacts GatewayClientFacts.

Lemma str_app_nonempty s t : t ≠ "" → s +:+ t ≠ "".
Proof.
  intros Ht. destruct s as [|c s]; [by rewrite str_app_nil_l |].
  by rewrite str_app_cons.
Qed.

Lemma str_app_nonempty_l s t : s ≠ "" → s +:+ t ≠ "".
Proof. destruct s as [|c s]; [done |]. by rewrite str_app_cons. Qed.

Lemma eqb_empty s : String.eqb s "" = false ↔ s ≠ "".
Proof. by rewrite String.eqb_neq. Qed.

Lemma freshSessionKey_nonempty agent now uuid :
  freshSessionKey agent now uuid ≠ "".
Proof. unfold freshSessionKey. by apply str_app_nonempty, str_app_nonempty_l. Qed.

Lemma extractLastUserMessage_last messages content :
  extractLastUserMessage
    (messages ++ [{| am_role := "user"; am_content := content |}])
  = Some content.
Proof. unfold extractLastUserMessage. by rewrite rev_app_distr. Qed.

(** Events of a run that is not registered change nothing: they can be
    left out. *)
Lemma handleChatEvents_skip run evs reg :
  reg !! run = None →
  handleChatEvents evs reg
  = handleChatEvents
      (List.filter (λ ev, negb (String.eqb (runId ev) run)) evs) reg.
Proof.
  revert reg. induction evs as [|e evs IH]; intros reg H; [done |].
  cbn [List.filter handleChatEvents].
  destruct (String.eqb_spec (runId e) run) as [He | He]; cbn [negb].
  - unfold andThen at 1.
    rewrite handleChatEvent_unregistered by (by rewrite He).
    rewrite <- IH by done. by destruct (handleChatEvents evs reg).
  - cbn [handleChatEvents]. unfold andThen.
    pose proof (handleChatEvent_absent e reg run H) as H1.
    destruct (handleChatEvent e reg) as [reg1 c1]. cbn [fst] in H1.
    by rewrite <- IH.
Qed.

Lemma registered_delete reg run :
  registered_by_send reg → registered_by_send (delete run reg).
Proof.
  intros H r l Hl. apply lookup_delete_Some in Hl as [_ Hl]. by apply H.
Qed.

Lemma registered_register reg run caller :
  registered_by_send reg → registered_by_send (registerListener run caller reg).
Proof.
  intros H r l Hl. unfold registerListener in Hl.
  apply lookup_insert_Some in Hl as [[<- <-] | [_ Hl]]; [done | by apply H].
Qed.

(** One event of a registered run: the registrations stay well formed, only
    the entry of its run can go, and the callbacks are those of its
    listener. *)
Lemma handleChatEvent_isolated ev reg :
  registered_by_send reg →
  registered_by_send (handleChatEvent ev reg).1
  ∧ (∀ r, r ≠ runId ev → (handleChatEvent ev reg).1 !! r = reg !! r)
  ∧ (∀ c, c ∈ (handleChatEvent ev reg).2 →
       ∃ l, reg !! runId ev = Some l ∧ call_owner c = owner l).
Proof.
  intros Hwf. unfold handleChatEvent.
  destruct (reg !! runId ev) as [l|] eqn:Hl; cbn;
    [| split_and!; [done | done | by intros c Hc%elem_of_nil]].
  pose proof (Hwf _ _ Hl) as Hcap.
  assert (Hdel : ∀ r, r ≠ runId ev → delete (captured l) reg !! r = reg !! r).
  { intros r Hr. rewrite Hcap. by apply lookup_delete_ne. }
  destruct (state ev), (extractTextFromChatMessage (message ev)); cbn;
    (split_and!;
     [ by (try apply registered_delete)
     | by (try exact Hdel)
     | intros c Hc; exists l; split; [done |];
       repeat (apply elem_of_cons in Hc as [-> | Hc]; [done |]);
       by apply elem_of_nil in Hc ]).
Qed.

(** X19.  Unsubscribing a connection-state listener removes every
    registration of that function: after subscribing and unsubscribing it the
    listeners are the earlier ones without it, in their order; they are
    exactly the earlier ones when it was not registered before, and the
    function is never notified again. *)
Theorem unsubscribe_subscribe (listener : nat) (listeners : list nat) :
  unsubscribe listener (subscribe listener listeners)
  = unsubscribe listener listeners
  ∧ (listener ∉ listeners → unsubscribe listener listeners = listeners)
  ∧ ∀ (A : Type) (state : A) call,
      call ∈ notify state (unsubscribe listener listeners) →
      call.1 ≠ listener ∧ call.1 ∈ listeners.
Proof.
  unfold unsubscribe, subscribe, notify. split_and!.
  - rewrite List.filter_app. cbn. rewrite Nat.eqb_refl. cbn.
    by rewrite app_nil_r.
  - induction listeners as [|l ls IH]; intros Hnot; [done |].
    apply not_elem_of_cons in Hnot as [Hne Hnot]. cbn.
    destruct (Nat.eqb_spec l listener) as [-> | _]; [done |]. cbn.
    by rewrite IH.
  - intros A state call Hc.
    apply list_elem_of_fmap in Hc as (l & -> & Hl). cbn.
    apply list_elem_of_In, filter_In in Hl as [Hl Hne].
    apply list_elem_of_In in Hl. split; [| done].
    intros ->. by rewrite Nat.eqb_refl in Hne.
Qed.

(** A function registered twice is gone after one unsubscription; one that
    was not registered leaves the listeners as they were. *)
Lemma unsubscribe_subscribe_witness :
  unsubscribe 1 (subscribe 1 [1; 2; 1]%nat) = [2%nat]
  ∧ unsubscribe 3 (subscribe 3 [1; 2]%nat) = [1; 2]%nat.
Proof.
  split.
  - by rewrite (proj1 (unsubscribe_subscribe 1 [1; 2; 1]%nat)).
  - destruct (unsubscribe_subscribe 3 [1; 2]%nat) as (-> & H & _).
    apply H. by intros [? | [? | ?%elem_of_nil]%elem_of_cons]%elem_of_cons.
Defined.

(** X18.  A session key, once resolved, stays: every later call of
    [resolveSessionKey] returns the same key and persists nothing, whatever
    the clock and the random UUID are; and after [newSession] of the chat
    view the client resolves to the key that the view stored. *)
Theorem session_key_stable now uuid settings :
  let r := resolveSessionKey now uuid settings in
  r.1.1 ≠ ""
  ∧ currentSessionKey r.1.2 = Some r.1.1
  ∧ (∀ now' uuid', resolveSessionKey now' uuid' r.1.2 = (r.1.1, r.1.2, false))
  ∧ ∀ view now' uuid',
      let stored := (ChatView.newSession now uuid view settings).2 in
      resolveSessionKey now' uuid' stored
      = (freshSessionKey (agentIdOrMain settings) now uuid, stored, false).
Proof.
  assert (Hfresh : ∀ key s a,
    key ≠ "" →
    resolveSessionKey now uuid
      {| agentId := a; currentSessionKey := Some key |} = s →
    s = (key, {| agentId := a; currentSessionKey := Some key |}, false)).
  { intros key s a Hk <-. unfold resolveSessionKey. cbn.
    by apply eqb_empty in Hk as ->. }
  assert (Hany : ∀ key a now' uuid',
    key ≠ "" →
    resolveSessionKey now' uuid'
      {| agentId := a; currentSessionKey := Some key |}
    = (key, {| agentId := a; currentSessionKey := Some key |}, false)).
  { intros key a now' uuid' Hk. unfold resolveSessionKey. cbn.
    by apply eqb_empty in Hk as ->. }
  pose proof (freshSessionKey_nonempty (agentIdOrMain settings) now uuid) as Hne.
  destruct settings as [a [key|]]; unfold resolveSessionKey; cbn;
    [destruct (String.eqb_spec key "") as [-> | Hk] |]; cbn;
    (split_and!;
     [ done | done | intros; by apply Hany
     | intros view now' uuid'; by apply Hany ]).
Qed.

(** X20.  Aborting a run removes its registration and nothing else; when
    a client is there it asks the gateway to abort that run of that session,
    and when there is none it asks nothing; either way it then calls
    [onDone], once.  From then on the events of that run invoke nothing: the
    callbacks and registrations that any later events produce are those of
    the events of the other runs. *)
Theorem abort_silences_run sessionKey run caller hasClient reg evs :
  let r := abortHandler sessionKey run caller hasClient reg in
  r.1 = delete run reg
  ∧ r.1 !! run = None
  ∧ (hasClient = true →
     r.2 = [chatAbort sessionKey run; invoke (onDone caller)])
  ∧ (hasClient = false → r.2 = [invoke (onDone caller)])
  ∧ List.filter (λ a, match a with invoke _ => true | _ => false end) r.2
    = [invoke (onDone caller)]
  ∧ handleChatEvents evs r.1
    = handleChatEvents
        (List.filter (λ ev, negb (String.eqb (runId ev) run)) evs) r.1
  ∧ ((∀ ev, ev ∈ evs → runId ev = run) →
     handleChatEvents evs r.1 = (r.1, [])).
Proof.
  cbn. assert (H : delete run reg !! run = None) by apply lookup_delete_eq.
  split_and!;
    [ done | done | by intros -> | by intros -> | by destruct hasClient
    | by apply handleChatEvents_skip |].
  intros Hall. rewrite (handleChatEvents_skip run) by done.
  replace (List.filter _ evs) with (@nil ChatEventPayload); [done |].
  symmetry. induction evs as [|e evs IH]; [done |]. cbn.
  rewrite (Hall e) by (by apply elem_of_cons; left).
  rewrite String.eqb_refl. cbn. apply IH.
  intros ev Hev. apply Hall. by apply elem_of_cons; right.
Qed.

(** A run is aborted; the delta and the final event that still arrive for
    it invoke nothing. *)
Lemma abort_silences_run_witness :
  let reg := registerListener "run-1" 7 ∅ in
  let ev st t :=
    {| runId := "run-1"; GatewayClient.sessionKey := "main:1:u"; seq := 1;
       state := st;
       message := Some {| role := "assistant";
                          content := Some [{| type := "text";
                                              text := Some t |}];
                          timestamp := 0 |};
       errorMessage := None |} in
  abortHandler "main:1:u" "run-1" 7 true reg
  = (∅, [chatAbort "main:1:u" "run-1"; invoke (onDone 7)])
  ∧ handleChatEvents [ev delta "Hel"; ev final "Hello"] ∅ = (∅, []).
Proof.
  intros reg ev. split; [by vm_compute |].
  assert (E : (abortHandler "main:1:u" "run-1" 7 true reg).1 = ∅)
    by (by vm_compute).
  destruct (abort_silences_run "main:1:u" "run-1" 7 true reg
              [ev delta "Hel"; ev final "Hello"])
    as (_ & _ & _ & _ & _ & _ & H).
  cbv zeta in H. rewrite E in H. apply H.
  intros e [-> | [-> | ?%elem_of_nil]%elem_of_cons]%elem_of_cons; done.
Defined.

(** X21.  Runs do not interfere.  When every registration is the one that
    [sendMessageStreaming] stored, handling any events keeps it so, leaves
    the registration of every run that none of the events names as it was,
    and invokes callbacks only of callers that had a run of one of the
    events registered. *)
Theorem runs_isolated evs reg :
  registered_by_send reg →
  registered_by_send (handleChatEvents evs reg).1
  ∧ (∀ r, r ∉ runId <$> evs → (handleChatEvents evs reg).1 !! r = reg !! r)
  ∧ (∀ c, c ∈ (handleChatEvents evs reg).2 →
       ∃ ev l, ev ∈ evs ∧ reg !! runId ev = Some l ∧ call_owner c = owner l).
Proof.
  revert reg. induction evs as [|e evs IH]; intros reg Hwf.
  { cbn. split_and!; [done | done | by intros c Hc%elem_of_nil]. }
  destruct (handleChatEvent_isolated e reg Hwf) as (Hwf1 & Hkeep1 & Hown1).
  cbn [handleChatEvents]. unfold andThen.
  destruct (handleChatEvent e reg) as [reg1 c1] eqn:He. cbn [fst snd] in *.
  destruct (IH reg1 Hwf1) as (Hwf2 & Hkeep2 & Hown2).
  destruct (handleChatEvents evs reg1) as [reg2 c2] eqn:Hevs.
  cbn [fst snd] in *. split_and!; [done | |].
  - intros r Hr. rewrite fmap_cons in Hr.
    apply not_elem_of_cons in Hr as [Hne Hr].
    rewrite Hkeep2 by done. by apply Hkeep1.
  - intros c Hc. apply elem_of_app in Hc as [Hc | Hc].
    + destruct (Hown1 c Hc) as (l & Hl & Ho).
      exists e, l. split_and!; [by apply elem_of_cons; left | done | done].
    + destruct (Hown2 c Hc) as (ev & l & Hev & Hl & Ho).
      destruct (decide (runId ev = runId e)) as [Hsame | Hdiff].
      * destruct (reg !! runId e) as [l0|] eqn:Hl0.
        -- (* the run was registered before [e] and is still *)
           assert (reg1 !! runId e = Some l ∨ reg1 !! runId e = None)
             as [Hl1 | Hl1] by (rewrite <- Hsame, Hl; by left).
           ++ exists e, l0. split_and!; [by apply elem_of_cons; left | done |].
              rewrite Ho. f_equal.
              assert (Hreg1 : reg1 = reg ∨ reg1 = delete (captured l0) reg).
              { unfold handleChatEvent in He. rewrite Hl0 in He.
                destruct (state e), (extractTextFromChatMessage (message e));
                  cbn in He; injection He as <- _; auto. }
              destruct Hreg1 as [-> | ->]; [congruence |].
              rewrite (Hwf _ _ Hl0), lookup_delete_eq in Hl1. done.
           ++ rewrite <- Hsame, Hl in Hl1. done.
        -- rewrite handleChatEvent_unregistered in He by done.
           injection He as <- <-. rewrite Hsame, Hl0 in Hl. done.
      * exists ev, l. split_and!; [by apply elem_of_cons; right | | done].
        rewrite <- Hl. symmetry. by apply Hkeep1.
Qed.

(** The runs of two callers; the final event of the first leaves the second
    registered and calls the first caller only. *)
Lemma runs_isolated_witness :
  let reg := registerListener "run-1" 7 (registerListener "run-2" 8 ∅) in
  let ev := {| runId := "run-1"; GatewayClient.sessionKey := "main:1:u";
               seq := 1;
               state := final;
               message := Some {| role := "assistant";
                                  content := Some [{| type := "text";
                                                      text := Some "Hi" |}];
                                  timestamp := 0 |};
               errorMessage := None |} in
  (handleChatEvents [ev] reg).2 = [onChunk 7 "Hi"; onDone 7]
  ∧ (handleChatEvents [ev] reg).1 !! "run-2" = reg !! "run-2"
  ∧ registered_by_send (handleChatEvents [ev] reg).1.
Proof.
  intros reg ev.
  assert (Hwf : registered_by_send reg).
  { by apply registered_register, registered_register. }
  destruct (runs_isolated [ev] reg Hwf) as (H1 & H2 & _).
  split_and!; [by vm_compute | | exact H1].
  apply H2. cbn. by intros [? | ?%elem_of_nil]%elem_of_cons.
Defined.

End GatewayFacadeFacts.

(** ** chat-view.ts: what the view sends *)

Module ChatViewFacts.
Import GatewayFacade ChatView StrFacts GatewayFacadeFacts.

(** The earlier messages are handed on as they are, the system ones left
    out. *)
Lemma apiMessages_history (history : list ChatMessage) prefix :
  (λ im : nat * ChatMessage,
     if (im.1 =? length history)%nat && negb (String.eqb prefix "") then
       {| am_role := cm_role im.2; am_content := prefix +:+ cm_content im.2 |}
     else {| am_role := cm_role im.2; am_content := cm_content im.2 |})
  <$> List.filter (λ im : nat * ChatMessage,
                     negb (String.eqb (cm_role im.2) "system"))
                  (imap pair history)
  = plain <$> List.filter (λ m, negb (String.eqb (cm_role m) "system")) history.
Proof.
  assert (H : ∀ n l,
    (n + length l ≤ length history)%nat →
    (λ im : nat * ChatMessage,
       if (im.1 =? length history)%nat && negb (String.eqb prefix "") then
         {| am_role := cm_role im.2;
            am_content := prefix +:+ cm_content im.2 |}
       else {| am_role := cm_role im.2; am_content := cm_content im.2 |})
    <$> List.filter (λ im : nat * ChatMessage,
                       negb (String.eqb (cm_role im.2) "system"))
                    (imap (λ i, pair (n + i)%nat) l)
    = plain <$> List.filter (λ m, negb (String.eqb (cm_role m) "system")) l).
  { intros n l. revert n. induction l as [|m l IH]; intros n Hn; [done |].
    cbn in Hn. cbn [imap List.filter snd].
    assert (Htail : imap ((λ i, pair (n + i)%nat) ∘ S) l
                    = imap (λ i, pair (S n + i)%nat) l).
    { apply imap_ext. intros i y _. cbn. f_equal. lia. }
    rewrite Htail.
    destruct (negb (String.eqb (cm_role m) "system")); cbn [fmap list_fmap].
    - cbn [fst snd].
      destruct (Nat.eqb_spec (n + 0)%nat (length history)) as [E | _]; [lia |].
      cbn [andb]. f_equal. apply IH. lia.
    - apply IH. lia. }
  specialize (H 0%nat history). cbn in H. apply H. lia.
Qed.

(** The conversation after the push: the history, and the new message
    with the prefix. *)
Lemma apiMessages_pushed history id text time prefix :
  apiMessages
    (history ++ [{| cm_id := id; cm_role := "user"; cm_content := text;
                    cm_timestamp := time; cm_streaming := false |}])
    (length history) prefix
  = ((plain <$> List.filter (λ m, negb (String.eqb (cm_role m) "system"))
                            history)
     ++ [{| am_role := "user"; am_content := prefix +:+ text |}])%list.
Proof.
  unfold apiMessages. rewrite imap_app, List.filter_app, fmap_app.
  rewrite apiMessages_history. f_equal. cbn.
  rewrite Nat.add_0_r, Nat.eqb_refl. cbn.
  destruct (String.eqb_spec prefix "") as [-> | _]; cbn; [| done].
  by rewrite str_app_nil_l.
Qed.

(** X17.  What the gateway gets from a message typed in the view.  A blank
    input sends nothing.  Otherwise the conversation handed to the client is
    the displayed history without the system messages, each entry unchanged,
    followed by the trimmed input with the context prefix in front of it;
    and the streaming client sends exactly that last entry, so the gateway
    receives the context prefix and the trimmed input and nothing of the
    history. *)
Theorem handleSend_text env v :
  match handleSend env v with
  | None => Str.trim (inputValue v) = ""
  | Some (v', api) =>
    let sent := contextPrefix env (capturedSelection v)
                +:+ Str.trim (inputValue v) in
    Str.trim (inputValue v) ≠ ""
    ∧ api = ((plain <$> List.filter
                          (λ m, negb (String.eqb (cm_role m) "system"))
                          (messages v))
             ++ [{| am_role := "user"; am_content := sent |}])%list
    ∧ textToSend api = inl sent
    ∧ inputValue v' = "" ∧ capturedSelection v' = ""
  end.
Proof.
  unfold handleSend.
  destruct (String.eqb_spec (Str.trim (inputValue v)) "") as [E | Hne];
    [done |].
  cbv zeta. rewrite apiMessages_pushed. split_and!; try done.
  unfold textToSend. rewrite extractLastUserMessage_last.
  pose proof (str_app_nonempty (contextPrefix env (capturedSelection v)) _ Hne)
    as Hsent.
  by apply eqb_empty in Hsent as ->.
Qed.

End ChatViewFacts.

(** ** The endpoint *)

Module WsUrlFacts.
Import WsGatewayClient StrFacts.

Lemma str_app_inv_head s t u : s +:+ t = s +:+ u → t = u.
Proof.
  induction s as [|c s IH]; [done |].
  rewrite !str_app_cons. intros H. injection H as H. by apply IH.
Qed.

Lemma stripTrailing_cons c d s :
  Str.stripTrailing c (String d s)
  = match Str.stripTrailing c s with
    | EmptyString => if Ascii.eqb d c then "" else String d ""
    | rest => String d rest
    end.
Proof. reflexivity. Qed.

Lemma stripTrailing_app_keep c a b :
  Str.stripTrailing c b ≠ "" →
  Str.stripTrailing c (a +:+ b) = a +:+ Str.stripTrailing c b.
Proof.
  intros Hb. induction a as [|d a IH]; [done |].
  rewrite !str_app_cons, stripTrailing_cons, IH.
  destruct a as [|e a']; rewrite ?str_app_nil_l, ?str_app_cons.
  - by destruct (Str.stripTrailing c b).
  - done.
Qed.

Lemma stripTrailing_app_drop c a b :
  Str.stripTrailing c b = "" →
  Str.stripTrailing c (a +:+ b) = Str.stripTrailing c a.
Proof.
  intros Hb. induction a as [|d a IH]; [done |].
  by rewrite !str_app_cons, !stripTrailing_cons, IH.
Qed.

Lemma stripTrailing_idem c s :
  Str.stripTrailing c (Str.stripTrailing c s) = Str.stripTrailing c s.
Proof.
  induction s as [|d s IH]; [done |].
  rewrite stripTrailing_cons.
  destruct (Str.stripTrailing c s) as [|e rest] eqn:E.
  - destruct (Ascii.eqb d c) eqn:Hd; [done |].
    rewrite stripTrailing_cons. cbn. by rewrite Hd.
  - by rewrite stripTrailing_cons, IH.
Qed.

(** A stripped text that starts with a prefix ending in the stripped
    character goes on after it, and stays stripped under another prefix. *)
Lemma stripped_after_prefix c a a' b :
  (String.length (Str.stripTrailing c a) < String.length a)%nat →
  Str.stripTrailing c (a +:+ b) = a +:+ b →
  Str.stripTrailing c (a' +:+ b) = a' +:+ b.
Proof.
  intros Ha Hfix.
  destruct (Str.stripTrailing c b) as [|e rest] eqn:Hb.
  - rewrite stripTrailing_app_drop in Hfix by done.
    apply (f_equal String.length) in Hfix. rewrite str_length_app in Hfix.
    lia.
  - rewrite stripTrailing_app_keep in Hfix by (by rewrite Hb).
    apply str_app_inv_head in Hfix.
    rewrite stripTrailing_app_keep by (by rewrite Hb). by rewrite Hfix.
Qed.

Lemma prefix_match a s t :
  String.prefix (String a s) (String a t) = String.prefix s t.
Proof. cbn. by destruct (ascii_dec a a). Qed.

Lemma prefix_mismatch a s b t :
  a ≠ b → String.prefix (String a s) (String b t) = false.
Proof. intros Hne. cbn. by destruct (ascii_dec a b). Qed.

Lemma prefix_split needle s :
  String.prefix needle s = true →
  s = needle +:+ Str.drop (String.length needle) s.
Proof.
  revert s. induction needle as [|a n IH]; intros s H; [by destruct s |].
  destruct s as [|b t]; [done |]. cbn in H.
  destruct (ascii_dec a b) as [<- |]; [| done].
  rewrite str_app_cons. cbn [String.length Str.drop]. f_equal. by apply IH.
Qed.

Lemma prefix_nil s : String.prefix "" s = true.
Proof. by destruct s. Qed.

(** Decides a prefix test on texts that start with known characters. *)
Ltac prefix_test :=
  rewrite ?str_app_cons, ?str_app_nil_l;
  repeat first [ rewrite prefix_match
               | rewrite prefix_mismatch by discriminate
               | rewrite prefix_nil ].

(** X16.  The endpoint that [resolveWsUrl] yields always has the scheme
    ws or wss: an http URL becomes a ws URL and an https URL a wss URL with
    the same rest, trailing slashes dropped; and unless the configured URL
    consists of slashes only, resolving the result again gives the result. *)
Theorem resolveWsUrl_scheme url :
  let r := resolveWsUrl url in
  String.prefix "ws://" r || String.prefix "wss://" r = true
  ∧ (∀ rest, Str.stripTrailing "/" url = "http://" +:+ rest →
             r = "ws://" +:+ rest)
  ∧ (∀ rest, Str.stripTrailing "/" url = "https://" +:+ rest →
             r = "wss://" +:+ rest)
  ∧ (Str.stripTrailing "/" url ≠ "" → resolveWsUrl r = r).
Proof.
  intros r. subst r. unfold resolveWsUrl.
  set (raw := Str.stripTrailing "/" url).
  assert (Hraw : Str.stripTrailing "/" raw = raw) by apply stripTrailing_idem.
  clearbody raw. split_and!.
  - destruct (String.prefix "http://" raw) eqn:H1; [by prefix_test |].
    destruct (String.prefix "https://" raw) eqn:H2; [by prefix_test |].
    destruct (String.prefix "ws://" raw) eqn:H3;
      [cbn [orb]; by rewrite H3 |].
    destruct (String.prefix "wss://" raw) eqn:H4;
      [cbn [orb]; by rewrite H3, H4 | cbn [orb]; by prefix_test].
  - intros rest ->. by rewrite prefix_app.
  - intros rest ->.
    assert (String.prefix "http://" ("https://" +:+ rest) = false) as ->
      by (by prefix_test).
    by rewrite prefix_app.
  - intros Hne.
    destruct (String.prefix "http://" raw) eqn:H1.
    { assert (E := prefix_split _ _ H1). cbn [String.length] in E.
      rewrite E in Hraw.
      rewrite (stripped_after_prefix "/" "http://" "ws://" (Str.drop 7 raw));
        [by prefix_test | cbn; lia | exact Hraw]. }
    destruct (String.prefix "https://" raw) eqn:H2.
    { assert (E := prefix_split _ _ H2). cbn [String.length] in E.
      rewrite E in Hraw.
      rewrite (stripped_after_prefix "/" "https://" "wss://"
                 (Str.drop 8 raw));
        [by prefix_test | cbn; lia | exact Hraw]. }
    destruct (String.prefix "ws://" raw || String.prefix "wss://" raw)
      eqn:H3.
    { by rewrite Hraw, H1, H2, H3. }
    rewrite stripTrailing_app_keep by (by rewrite Hraw).
    rewrite Hraw. by prefix_test.
Qed.

Lemma resolveWsUrl_scheme_witness :
  resolveWsUrl "https://gateway.example:18789//" = "wss://gateway.example:18789"
  ∧ resolveWsUrl "wss://gateway.example:18789" = "wss://gateway.example:18789".
Proof.
  destruct (resolveWsUrl_scheme "https://gateway.example:18789//")
    as (_ & _ & Hs & Hidem).
  assert (E : resolveWsUrl "https://gateway.example:18789//"
              = "wss://gateway.example:18789")
    by (apply Hs; by vm_compute).
  cbv zeta in Hidem. rewrite E in Hidem.
  split; [exact E | apply Hidem; by vm_compute].
Defined.

End WsUrlFacts.

(** ** Invariants of the WebSocket client *)

Module WsGatewayClientInvariantsFacts.
Import WsGatewayClient WsGatewayClientSpec WsGatewayClientInvariants.
Import StrFacts WsGatewayClientFacts.

(** *** No timer is leaked *)

(** Uses the invariant at a timer that was armed before. *)
Ltac owned_old H t cb d rep Ht :=
  specialize (H t (Build_Timer cb d rep) Ht); cbn in H;
  destruct cb; cbn in *; try done; try congruence;
  try (by destruct H); try (destruct H; congruence).

Lemma owned_clearTimeout t : preserves owned (clearTimeout t).
Proof.
  intros w H. open_world w. unfold owned in *. mrun.
  intros t' tm [_ Ht']%lookup_delete_Some. exact (H t' tm Ht').
Qed.

Lemma owned_put f :
  (∀ c, connectTimer (f c) = connectTimer c
        ∧ tickTimer (f c) = tickTimer c
        ∧ reconnectTimer (f c) = reconnectTimer c) →
  preserves owned (put f).
Proof.
  intros Hf [c r] H t tm Ht. cbn in *.
  destruct (Hf c) as (-> & -> & ->). exact (H t tm Ht).
Qed.

Lemma owned_putR f :
  (∀ r, timers (f r) = timers r) → preserves owned (putR f).
Proof.
  intros Hf [c r] H t tm Ht. cbn in *. rewrite Hf in Ht. exact (H t tm Ht).
Qed.

Lemma owned_setTimer_rpc id m ms aw d rep :
  preserves owned (setTimer (RpcTimeout id m ms aw) d rep).
Proof.
  intros w H. open_world w. unfold owned, setTimer in *. mrun.
  intros t tm [[<- <-] | [_ Ht]]%lookup_insert_Some; [done |].
  exact (H t tm Ht).
Qed.

Lemma owned_clearTimers : preserves owned clearTimers.
Proof.
  intros w H. rewrite clearTimers_spec. cbn [snd fst].
  open_world w. unfold owned in *. mrun. intros t [cb d rep] Ht.
  do 3 apply disarm_lookup_Some in Ht as [Ht ?].
  owned_old H t cb d rep Ht.
Qed.

Lemma owned_queueConnectTimeout : preserves owned queueConnectTimeout.
Proof.
  intros w H. open_world w. unfold owned, queueConnectTimeout in *.
  destruct ct0 as [t0|]; mrun; intros t [cb d rep];
    intros [[<- Heq] | [Hne Ht]]%lookup_insert_Some;
    try (by injection Heq as <- <- <-).
  - apply lookup_delete_Some in Ht as [Hne0 Ht]. owned_old H t cb d rep Ht.
  - owned_old H t cb d rep Ht.
Qed.

Lemma owned_startTickWatch : preserves owned startTickWatch.
Proof.
  intros w H. open_world w. unfold owned, startTickWatch in *.
  destruct tk0 as [t0|]; mrun; intros t [cb d rep];
    intros [[<- Heq] | [Hne Ht]]%lookup_insert_Some;
    try (by injection Heq as <- <- <-).
  - apply lookup_delete_Some in Ht as [Hne0 Ht]. owned_old H t cb d rep Ht.
  - owned_old H t cb d rep Ht.
Qed.

Lemma owned_scheduleReconnect : preserves owned scheduleReconnect.
Proof.
  intros w H.
  destruct (closed (this w)) eqn:Hcl.
  { by rewrite scheduleReconnect_closed. }
  rewrite (scheduleReconnect_spec w Hcl). cbn [fst snd].
  pose proof (owned_clearTimers w H) as H1. unfold exec.
  rewrite clearTimers_spec in *. cbn [fst snd] in *.
  open_world w. unfold owned in *. revert H1. mrun. intros H1 t [cb d rep].
  intros [[<- Heq] | [Hne Ht]]%lookup_insert_Some;
    [by injection Heq as <- <- <- |].
  owned_old H1 t cb d rep Ht.
Qed.

Lemma hoare_get {A B} (f : Client → A) (k : A → M B) P Q :
  (∀ a, hoare (λ w, P w ∧ f (this w) = a) (k a) Q) →
  hoare P (get f ≫= k) Q.
Proof. intros Hk [c r] HP. by apply (Hk (f c)). Qed.

Lemma owned_clear_connect t :
  hoare (λ w, owned w ∧ connectTimer (this w) = Some t)
        (clearTimeout t;; put (set_connectTimer None)) (λ _, owned).
Proof.
  intros w [H Hct]. open_world w. subst. unfold owned in *. mrun.
  intros t' [cb d rep] [Hne Ht]%lookup_delete_Some.
  owned_old H t' cb d rep Ht.
Qed.

Lemma owned_clear_reconnect t :
  hoare (λ w, owned w ∧ reconnectTimer (this w) = Some t)
        (clearTimeout t;; put (set_reconnectTimer None)) (λ _, owned).
Proof.
  intros w [H Hct]. open_world w. subst. unfold owned in *. mrun.
  intros t' [cb d rep] [Hne Ht]%lookup_delete_Some.
  owned_old H t' cb d rep Ht.
Qed.

Ltac owned_leaf :=
  idtac;
  lazymatch goal with
  | |- preserves _ clearTimers => apply owned_clearTimers
  | |- preserves _ queueConnectTimeout => apply owned_queueConnectTimeout
  | |- preserves _ startTickWatch => apply owned_startTickWatch
  | |- preserves _ scheduleReconnect => apply owned_scheduleReconnect
  | |- preserves _ (clearTimeout _) => apply owned_clearTimeout
  | |- preserves _ (setTimer (RpcTimeout _ _ _ _) _ _) =>
    apply owned_setTimer_rpc
  | |- preserves _ (put _) => apply owned_put; intros []; by split_and!
  | |- preserves _ (putR _) => apply owned_putR; intros []; reflexivity
  end.

Lemma owned_sendConnect env : preserves owned (sendConnect env).
Proof.
  unfold sendConnect.
  apply pres_bind; [apply pres_get | intros sent].
  destruct sent; [apply pres_pass |].
  apply pres_bind; [apply pres_get | intros [nonce|]]; [| apply pres_pass].
  destruct (String.eqb nonce ""); [apply pres_pass |].
  apply pres_bind; [owned_leaf | intros _].
  apply hoare_get. intros ct.
  apply (hoare_bind _ (λ _, owned)).
  - destruct ct as [t|]; [apply owned_clear_connect | by intros w [H _]].
  - intros _. change (preserves owned
      (match getDeviceIdentity env with
       | Some dev =>
         let signedAtMs := now env in
         let payload :=
           DeviceIdentity.buildDeviceAuthPayload
             {| DeviceIdentity.ap_deviceId := DeviceIdentity.deviceId dev;
                DeviceIdentity.ap_clientId := CLIENT_ID;
                DeviceIdentity.ap_clientMode := CLIENT_MODE;
                DeviceIdentity.ap_role := role;
                DeviceIdentity.ap_scopes := scopes;
                DeviceIdentity.ap_signedAtMs := signedAtMs;
                DeviceIdentity.ap_token :=
                  resolveToken (getToken env) (getDeviceAuthToken env);
                DeviceIdentity.ap_nonce := nonce |} in
         job ← getR nextJob;
         putR (λ r, set_nextJob (S job)
                      (set_signJobs
                         (<[job := {| sj_nonce := nonce;
                                      sj_resolvedToken :=
                                        resolveToken (getToken env)
                                          (getDeviceAuthToken env);
                                      sj_identity := dev;
                                      sj_storedDeviceToken :=
                                        getDeviceAuthToken env;
                                      sj_signedAtMs := signedAtMs;
                                      sj_payload := payload |}]> (signJobs r))
                         r))
       | None =>
         sendConnect_request env
           (resolveToken (getToken env) (getDeviceAuthToken env))
           (getDeviceAuthToken env) None false
       end)).
    pres_walk owned_leaf.
Qed.

Ltac owned_methods :=
  idtac;
  lazymatch goal with
  | |- preserves _ (sendConnect _) => apply owned_sendConnect
  | _ => owned_leaf
  end.

Lemma owned_timer env t : preserves owned (dispatch env (TimerFired t)).
Proof.
  intros w H. cbn [dispatch].
  unfold mbind at 1, M_bind at 1, getR at 1. cbn [fst snd].
  destruct (timers (rt w) !! t) as [[cb d rep]|] eqn:Ht; [| done].
  cbn [repeating callback].
  destruct cb as [id m ms aw | | |].
  - revert w H Ht.
    assert (Hp : preserves owned
                   ((if rep then pass else clearTimeout t);;
                    runTimer env (RpcTimeout id m ms aw)))
      by pres_walk owned_methods.
    intros w H _. by apply Hp.
  - revert w H Ht.
    assert (Hp : preserves owned
                   ((if rep then pass else clearTimeout t);;
                    runTimer env ConnectTimeout))
      by pres_walk owned_methods.
    intros w H _. by apply Hp.
  - revert w H Ht.
    assert (Hp : preserves owned
                   ((if rep then pass else clearTimeout t);;
                    runTimer env TickWatch))
      by pres_walk owned_methods.
    intros w H _. by apply Hp.
  - destruct (H t _ Ht) as [Hrc Hrep]. cbn in Hrc, Hrep. subst rep.
    cbn [runTimer].
    assert (Hp : hoare (λ w, owned w ∧ reconnectTimer (this w) = Some t)
                   (clearTimeout t;;
                    (put (set_reconnectTimer None);;
                     c ← get closed;
                     if negb c then connect env else pass))
                   (λ _, owned)).
    { intros w' Hw'.
      assert (Hq : hoare (λ w, owned w ∧ reconnectTimer (this w) = Some t)
                     ((clearTimeout t;; put (set_reconnectTimer None));;
                      c ← get closed;
                      if negb c then connect env else pass)
                     (λ _, owned)).
      { apply (hoare_bind _ (λ _, owned)); [apply owned_clear_reconnect |].
        intros _. change (preserves owned
                            (c ← get closed;
                             if negb c then connect env else pass)).
        pres_walk owned_methods. }
      specialize (Hq w' Hw'). revert Hq.
      unfold mbind, M_bind. by destruct (clearTimeout t w') as [[] w1]. }
    by apply Hp.
Qed.

Lemma owned_dispatch env ev : preserves owned (dispatch env ev).
Proof.
  destruct ev; try apply owned_timer; pres_walk owned_methods.
Qed.

Lemma owned_runMicrotasks env : preserves owned (runMicrotasks env).
Proof. pres_walk owned_methods. Qed.

Lemma owned_step env ev w : owned w → owned (step env ev w).
Proof.
  intros H. unfold step, exec.
  by apply (pres_bind owned _ _ (owned_dispatch env ev)
              (λ _, owned_runMicrotasks env)).
Qed.

Lemma owned_new : owned new_World.
Proof. intros t tm Ht. cbn in Ht. by rewrite lookup_empty in Ht. Qed.

Lemma reachable_owned w : reachable w → owned w.
Proof.
  induction 1 as [|env ev w Hw IH _]; [apply owned_new |].
  by apply owned_step.
Qed.

Lemma reachable_tracked w t tm :
  reachable w → timers (rt w) !! t = Some tm → tracked t (this w).
Proof.
  intros Hw Ht.
  pose proof (reachable_owned w Hw t tm Ht) as Ho.
  destruct (reachable_rpc_ok w Hw) as (_ & H2 & _).
  destruct tm as [cb d rep]. cbn in Ho.
  destruct cb as [id m ms aw | | |].
  - destruct (H2 t _ id m ms aw Ht eq_refl) as (_ & p & Hp & Htp).
    do 3 right. by exists id, p.
  - by left.
  - by right; left.
  - destruct Ho as [Ho _]. by right; right; left.
Qed.

(** X7.  No timer is leaked.  In every world the client can reach, each
    armed timer is one the client holds the handle of: the connect timeout,
    the watchdog, the reconnect timer, or the timeout of a pending request.
    Hence after the turn of [stop()] no timer is armed at all. *)
Theorem no_timer_leaked w :
  reachable w →
  (∀ t tm, timers (rt w) !! t = Some tm → tracked t (this w))
  ∧ ∀ env, timers (rt (step env Stop w)) = ∅.
Proof.
  intros Hw. split; [intros t tm; by apply reachable_tracked |].
  intros env. rewrite (stop_step env w (reachable_microtasks w Hw)).
  cbn [rt set_trace set_microtasks timers].
  apply map_eq. intros t. rewrite lookup_empty.
  destruct (timers (stopped_runtime (this w) (rt w)) !! t) as [x|] eqn:E;
    [| done].
  destruct (stopped_timers (this w) (rt w) t) as [Hgone Hold].
  rewrite Hgone in E; [done |].
  by apply (reachable_tracked w t x Hw), Hold.
Qed.

Lemma no_timer_leaked_witness :
  let w := run [ (localEnv, Start); (localEnv, WsOpen 1);
                 (localEnv, Request "chat.history" JNull 15000) ]
               new_World in
  reachable w
  ∧ timers (rt w)
    = {[ 1%nat := {| callback := ConnectTimeout; delay := 5000;
                     repeating := false |};
         2%nat := {| callback := RpcTimeout "uuid-1" "chat.history" 15000
                                   ExternalCaller;
                     delay := 15000; repeating := false |} ]}
  ∧ timers (rt (step localEnv Stop w)) = ∅.
Proof.
  intros w.
  assert (Hw : reachable w).
  { repeat apply reachable_step; [apply reachable_new | ..];
      apply not_issued; vm_compute; repeat constructor. }
  split; [exact Hw | split; [by vm_compute |]].
  exact (proj2 (no_timer_leaked w Hw) localEnv).
Defined.

(** *** Bounds of the backoff, the tick interval and the delays *)

Lemma bounded_put f :
  (∀ c, backoffMs (f c) = backoffMs c
        ∧ tickIntervalMs (f c) = tickIntervalMs c) →
  preserves bounded (put f).
Proof.
  intros Hf [c r] H. unfold bounded in *. cbn in *.
  by destruct (Hf c) as (-> & ->).
Qed.

Lemma bounded_putR f :
  (∀ r, timers (f r) = timers r) → preserves bounded (putR f).
Proof. intros Hf [c r] H. unfold bounded in *. cbn in *. by rewrite Hf. Qed.

Lemma bounded_reset : preserves bounded (put (set_backoffMs 1000)).
Proof.
  intros w (Hb & Hi & Ht). open_world w. unfold bounded. mrun.
  split_and!; [lia.. | done].
Qed.

Lemma bounded_tickInterval n :
  0 < n → preserves bounded (put (set_tickIntervalMs n)).
Proof.
  intros Hn w (Hb & Hi & Ht). open_world w. unfold bounded. mrun.
  split_and!; [lia.. | done].
Qed.

Lemma bounded_clearTimeout t : preserves bounded (clearTimeout t).
Proof.
  intros w (Hb & Hi & Ht). open_world w. unfold bounded. mrun.
  split_and!; [lia.. |].
  intros t' tm [_ H]%lookup_delete_Some. by apply (Ht t').
Qed.

Lemma bounded_setTimer cb d rep :
  timer_ok {| callback := cb; delay := d; repeating := rep |} →
  preserves bounded (setTimer cb d rep).
Proof.
  intros Hok w (Hb & Hi & Ht). open_world w. unfold bounded, setTimer. mrun.
  split_and!; [lia.. |].
  intros t' tm [[<- <-] | [_ H]]%lookup_insert_Some; [done |].
  by apply (Ht t').
Qed.

Lemma bounded_scheduleReconnect : preserves bounded scheduleReconnect.
Proof.
  intros w H.
  destruct (closed (this w)) eqn:Hcl.
  { by rewrite scheduleReconnect_closed. }
  rewrite (scheduleReconnect_spec w Hcl). cbn [fst snd].
  unfold exec. rewrite clearTimers_spec. cbn [fst snd].
  destruct H as (Hb & Hi & Ht). open_world w. unfold bounded. mrun.
  split_and!; [lia.. |].
  intros t' tm [[<- <-] | [_ H]]%lookup_insert_Some;
    [unfold timer_ok; cbn; lia |].
  do 3 apply disarm_lookup_Some in H as [H _]. by apply (Ht t').
Qed.

Ltac bounded_leaf :=
  idtac;
  lazymatch goal with
  | |- preserves _ scheduleReconnect => apply bounded_scheduleReconnect
  | |- preserves _ (clearTimeout _) => apply bounded_clearTimeout
  | |- preserves _ (setTimer _ _ _) =>
    apply bounded_setTimer; unfold timer_ok; cbn; lia
  | |- preserves _ (put (set_backoffMs 1000)) => apply bounded_reset
  | |- preserves _ (put _) => apply bounded_put; intros []; by split
  | |- preserves _ (putR _) => apply bounded_putR; intros []; reflexivity
  end.

Lemma bounded_sendConnect_settled env hasIdentity o :
  preserves bounded (sendConnect_settled env hasIdentity o).
Proof.
  unfold sendConnect_settled. destruct o as [helloOk | message code];
    [| pres_walk bounded_leaf].
  apply pres_bind; [bounded_leaf | intros _].
  apply pres_bind; [pres_walk bounded_leaf | intros _].
  apply pres_bind; [| intros _; pres_walk bounded_leaf].
  destruct (oprop "tickIntervalMs" (oprop "policy" helloOk)) as [[]|];
    try apply pres_pass.
  destruct (0 <? n)%Z eqn:Hn; [| apply pres_pass].
  apply bounded_tickInterval. lia.
Qed.

Ltac bounded_methods :=
  idtac;
  lazymatch goal with
  | |- preserves _ (sendConnect_settled _ _ _) =>
    apply bounded_sendConnect_settled
  | _ => bounded_leaf
  end.

Lemma bounded_dispatch env ev : preserves bounded (dispatch env ev).
Proof. pres_walk bounded_methods. Qed.

Lemma bounded_runMicrotasks env : preserves bounded (runMicrotasks env).
Proof. pres_walk bounded_methods. Qed.

Lemma bounded_new : bounded new_World.
Proof.
  split_and!; cbn; [lia.. |]. intros t tm Ht. by rewrite lookup_empty in Ht.
Qed.

Lemma bounded_run turns w : bounded w → bounded (run turns w).
Proof.
  revert w. induction turns as [|[env ev] turns IH]; intros w H; [done |].
  cbn [run]. apply IH. unfold step, exec.
  by apply (pres_bind bounded _ _ (bounded_dispatch env ev)
              (λ _, bounded_runMicrotasks env)).
Qed.

(** X8.  Whatever happens to a client, and whatever the gateway sends, the
    backoff stays between 1000 and 30000 ms and the tick interval stays
    positive; every armed reconnect timer waits between 1000 and 30000 ms,
    the watchdog fires at most once per second, the connect timeout waits
    5000 ms and the timeout of a request waits the time the request was
    given. *)
Theorem delays_bounded turns :
  let w := run turns new_World in
  (1000 ≤ backoffMs (this w) ≤ 30000)%Z
  ∧ (0 < tickIntervalMs (this w))%Z
  ∧ ∀ t tm, timers (rt w) !! t = Some tm →
      match callback tm with
      | RpcTimeout _ _ timeoutMs _ => delay tm = timeoutMs
      | ConnectTimeout => delay tm = 5000
      | TickWatch => (1000 ≤ delay tm)%Z
      | Reconnect => (1000 ≤ delay tm ≤ 30000)%Z
      end.
Proof. exact (bounded_run turns new_World bounded_new). Qed.

(** A client that waits for the challenge while a request is out: the
    connect timeout waits 5000 ms, the timeout of the request the 15000 ms
    it was given. *)
Lemma delays_bounded_witness :
  let turns := [ (localEnv, Start); (localEnv, WsOpen 1);
                 (localEnv, Request "chat.history" JNull 15000) ] in
  let w := run turns new_World in
  let connectTimeout := {| callback := ConnectTimeout; delay := 5000;
                           repeating := false |} in
  let rpcTimeout := {| callback := RpcTimeout "uuid-1" "chat.history" 15000
                                     ExternalCaller;
                       delay := 15000; repeating := false |} in
  timers (rt w) !! 1%nat = Some connectTimeout
  ∧ timers (rt w) !! 2%nat = Some rpcTimeout
  ∧ delay connectTimeout = 5000 ∧ delay rpcTimeout = 15000.
Proof.
  intros turns w connectTimeout rpcTimeout.
  assert (H1 : timers (rt w) !! 1%nat = Some connectTimeout) by (by vm_compute).
  assert (H2 : timers (rt w) !! 2%nat = Some rpcTimeout) by (by vm_compute).
  split_and!; [exact H1 | exact H2 | |].
  - exact (proj2 (proj2 (delays_bounded turns)) 1%nat connectTimeout H1).
  - exact (proj2 (proj2 (delays_bounded turns)) 2%nat rpcTimeout H2).
Defined.

End WsGatewayClientInvariantsFacts.

(** ** The WebSocket client, turn by turn *)

Module WsGatewayClientTurnsFacts.
Import WsGatewayClient WsGatewayClientSpec WsGatewayClientTurns.
Import StrFacts WsGatewayClientFacts.

(** *** The close event of a socket that was replaced *)

(** X9.  The close handler does not look at which socket closed.  When a
    socket other than the current one reports its close on a client that is
    not stopped (as the old socket does after [restart()]), the client
    forgets its current socket without closing it, moves to reconnecting and
    arms the reconnect timer; when that timer fires it opens one more
    socket, and the forgotten one is still in the ready state it had. *)
Theorem close_of_replaced_socket env1 env2 w old cur rs rs' :
  microtasks (rt w) = [] →
  closed (this w) = false →
  ws (this w) = Some cur →
  old ≠ cur →
  sockets (rt w) !! old = Some rs → rs ≠ CLOSED →
  sockets (rt w) !! cur = Some rs' →
  cur ≠ nextSocket (rt w) →
  webSocketThrows env2 = false →
  let w1 := step env1 (WsClosed old) w in
  let w2 := step env2 (TimerFired (nextTimer (rt w))) w1 in
  (ws (this w1) = None
   ∧ state (this w1) = reconnecting
   ∧ reconnectTimer (this w1) = Some (nextTimer (rt w))
   ∧ sockets (rt w1) !! cur = Some rs')
  ∧ (ws (this w2) = Some (nextSocket (rt w))
     ∧ sockets (rt w2) !! cur = Some rs'
     ∧ trace (rt w2)
       = (trace (rt w1) ++ stateChange reconnecting connecting
          ++ [ws_new (nextSocket (rt w)) (resolveWsUrl (getUrl env2))])%list).
Proof.
  intros Hmt Hcl Hws Hne Hold Hrs Hcur Hfresh Hthrow w1 w2.
  assert (H1 : w1 = after_close (this w) (rt w) old)
    by (by apply (close_event_step env1 w old rs)).
  assert (H2 := reconnect_timer_step env2 w1 (nextTimer (rt w))
                  (backoffMs (this w))).
  fold w2 in H2. rewrite H1 in H2.
  cbn [after_close this rt set_state set_pending set_sockets set_trace
       set_timers timers nextTimer microtasks closed ws backoffMs] in H2.
  rewrite lookup_insert_eq in H2.
  specialize (H2 eq_refl eq_refl eq_refl eq_refl Hthrow).
  split.
  - rewrite H1. cbn. split_and!; try done.
    by rewrite lookup_insert_ne.
  - rewrite H2, H1. cbn. split_and!; try done.
    by rewrite !lookup_insert_ne.
Qed.

Lemma close_of_replaced_socket_witness :
  let w := run [ (localEnv, Start); (localEnv, WsOpen 1);
                 (localEnv, Restart) ] new_World in
  let w1 := step localEnv (WsClosed 1) w in
  let w2 := step localEnv (TimerFired 2) w1 in
  ws (this w) = Some 2%nat
  ∧ ws (this w1) = None
  ∧ ws (this w2) = Some 3%nat
  ∧ sockets (rt w2) !! 2%nat = Some CONNECTING
  ∧ List.filter (λ e, match e with ws_close _ _ _ => true | _ => false end)
                (trace (rt w2))
    = [ws_close 1 (Some 1000) (Some "client restarting")].
Proof.
  intros w w1 w2.
  assert (Hmt : microtasks (rt w) = []) by (by vm_compute).
  assert (Hcl : closed (this w) = false) by (by vm_compute).
  assert (Hws : ws (this w) = Some 2%nat) by (by vm_compute).
  assert (Hold : sockets (rt w) !! 1%nat = Some CLOSING) by (by vm_compute).
  assert (Hcur : sockets (rt w) !! 2%nat = Some CONNECTING)
    by (by vm_compute).
  assert (Hns : 2%nat ≠ nextSocket (rt w)) by (by vm_compute).
  assert (Hnt : nextTimer (rt w) = 2%nat) by (by vm_compute).
  destruct (close_of_replaced_socket localEnv localEnv w 1 2 CLOSING
              CONNECTING Hmt Hcl Hws ltac:(done) Hold ltac:(done) Hcur Hns
              eq_refl)
    as ((H1 & _ & _ & _) & (H2 & H3 & _)).
  rewrite Hnt in H2, H3.
  split_and!; [exact Hws | exact H1 | exact H2 | exact H3 | by vm_compute].
Defined.

(** *** Stopping twice *)

Lemma stopped_again c r :
  microtasks r = [] →
  stopped_runtime (stopped c) r = r.
Proof.
  intros Hmt. destruct r. cbn in Hmt. subst.
  unfold stopped_runtime, stopped, closing, flushed, stateChange.
  cbn. rewrite map_to_list_empty. cbn. by rewrite !app_nil_r.
Qed.

(** X10.  [stop()] on a client that is stopped changes nothing and notifies
    nobody: stopping twice is stopping once. *)
Theorem stop_idempotent env1 env2 w :
  microtasks (rt w) = [] →
  step env2 Stop (step env1 Stop w) = step env1 Stop w.
Proof.
  intros Hmt.
  rewrite (stop_step env2 (step env1 Stop w)) by apply step_microtasks.
  rewrite (stop_step env1 w Hmt).
  cbn [this rt pending stopped].
  rewrite stopped_again by done.
  rewrite map_to_list_empty. cbn [map connectErrors flat_map].
  rewrite app_nil_r.
  by destruct (stopped_runtime (this w) (rt w)).
Qed.

Lemma stop_idempotent_witness :
  let w := run [ (localEnv, Start); (localEnv, WsOpen 1);
                 (localEnv, Request "chat.history" JNull 15000) ]
               new_World in
  microtasks (rt w) = []
  ∧ trace (rt (step localEnv Stop (step localEnv Stop w)))
    = [ onStateChange connecting; ws_new 1 "ws://localhost:18789";
        onStateChange authenticating;
        ws_send 1 {| req_id := "uuid-1"; req_method := "chat.history";
                     req_params := JNull |};
        ws_close 1 (Some 1000) (Some "client stopped");
        reject "uuid-1" "client stopped" None;
        onStateChange disconnected ].
Proof.
  intros w.
  assert (Hmt : microtasks (rt w) = []) by (by vm_compute).
  split; [exact Hmt |].
  rewrite (stop_idempotent localEnv localEnv w Hmt). by vm_compute.
Defined.

(** *** The handshake *)

Lemma challenge_frame env nonce :
  handleMessage env (Some (challengeFrame nonce))
  = if String.eqb nonce "" then
      ws_close_opt (Some 3008) (Some "missing nonce in connect challenge")
    else
      put (set_connectNonce (Some (Str.trim nonce)));;
      sendConnect env.
Proof. reflexivity. Qed.

Lemma message_dispatch env w sock parsed :
  sockets (rt w) !! sock = Some OPEN →
  exec (dispatch env (WsMessage sock parsed)) w
  = exec (handleMessage env parsed) w.
Proof.
  intros Hsock. open_world w. unfold exec. cbn [dispatch]. mrun.
  rewrite Hsock. by rewrite bool_decide_eq_true_2.
Qed.

(** The turn in which the challenge arrives, on a client without device
    identity. *)
Lemma challenge_step env w sock nonce :
  microtasks (rt w) = [] →
  ws (this w) = Some sock →
  sockets (rt w) !! sock = Some OPEN →
  connectSent (this w) = false →
  getDeviceIdentity env = None →
  Str.trim nonce ≠ "" →
  let t := nextTimer (rt w) in
  let stored := getDeviceAuthToken env in
  let resolvedToken := resolveToken (getToken env) stored in
  step env (WsMessage sock (Some (challengeFrame nonce))) w
  = {| this :=
         set_pending
           (<[randomUUID env := {| awaiter := SendConnect false;
                                   timer := Some t |}]> (pending (this w)))
           (set_connectTimer None
              (set_connectSent true
                 (set_connectNonce (Some (Str.trim nonce)) (this w))));
       rt :=
         set_trace
           (trace (rt w)
            ++ [ws_send sock
                  {| req_id := randomUUID env; req_method := "connect";
                     req_params := connectParams resolvedToken stored None |}])
           (set_nextTimer (S t)
              (set_timers
                 (<[t := {| callback := RpcTimeout (randomUUID env) "connect"
                                          15000 (SendConnect false);
                            delay := 15000; repeating := false |}]>
                    (disarm (connectTimer (this w)) (timers (rt w))))
                 (rt w))) |}.
Proof.
  intros Hmt Hws Hsock Hsent Hid Hnonce t stored resolvedToken.
  subst t stored resolvedToken.
  rewrite step_unfold, message_dispatch, challenge_frame by done.
  assert (Hne : String.eqb nonce "" = false).
  { apply String.eqb_neq. intros ->. by apply Hnonce. }
  rewrite Hne. apply String.eqb_neq in Hnonce.
  open_world w. subst. unfold exec at 2, sendConnect. mrun.
  rewrite Hnonce, Hid. unfold sendConnect_request, request.
  destruct ct0 as [t0|]; mrun; rewrite Hsock; mrun;
    unfold exec; by rewrite runMicrotasks_nil.
Qed.

(** The turn in which the challenge arrives, on a client with a device
    identity: the payload to sign is handed to [signPayload]. *)
Lemma challenge_step_identity env w sock nonce dev :
  microtasks (rt w) = [] →
  sockets (rt w) !! sock = Some OPEN →
  connectSent (this w) = false →
  getDeviceIdentity env = Some dev →
  Str.trim nonce ≠ "" →
  let stored := getDeviceAuthToken env in
  let resolvedToken := resolveToken (getToken env) stored in
  let payload :=
    DeviceIdentity.buildDeviceAuthPayload
      {| DeviceIdentity.ap_deviceId := DeviceIdentity.deviceId dev;
         DeviceIdentity.ap_clientId := "webchat-ui";
         DeviceIdentity.ap_clientMode := "webchat";
         DeviceIdentity.ap_role := "operator";
         DeviceIdentity.ap_scopes := ["operator.read"; "operator.write"];
         DeviceIdentity.ap_signedAtMs := now env;
         DeviceIdentity.ap_token := resolvedToken;
         DeviceIdentity.ap_nonce := Str.trim nonce |} in
  step env (WsMessage sock (Some (challengeFrame nonce))) w
  = {| this :=
         set_connectTimer None
           (set_connectSent true
              (set_connectNonce (Some (Str.trim nonce)) (this w)));
       rt :=
         set_nextJob (S (nextJob (rt w)))
           (set_signJobs
              (<[nextJob (rt w) :=
                   {| sj_nonce := Str.trim nonce;
                      sj_resolvedToken := resolvedToken;
                      sj_identity := dev;
                      sj_storedDeviceToken := stored;
                      sj_signedAtMs := now env;
                      sj_payload := payload |}]> (signJobs (rt w)))
              (set_timers (disarm (connectTimer (this w)) (timers (rt w)))
                          (rt w))) |}.
Proof.
  intros Hmt Hsock Hsent Hid Hnonce stored resolvedToken payload.
  subst stored resolvedToken payload.
  rewrite step_unfold, message_dispatch, challenge_frame by done.
  assert (Hne : String.eqb nonce "" = false).
  { apply String.eqb_neq. intros ->. by apply Hnonce. }
  rewrite Hne. apply String.eqb_neq in Hnonce.
  open_world w. subst. unfold exec at 2, sendConnect. mrun.
  rewrite Hnonce, Hid.
  destruct ct0 as [t0|]; mrun;
    unfold exec; by rewrite runMicrotasks_nil.
Qed.

(** The turn in which [signPayload] settles. *)
Lemma sign_settled_step env w sock job sj signature :
  microtasks (rt w) = [] →
  ws (this w) = Some sock →
  sockets (rt w) !! sock = Some OPEN →
  signJobs (rt w) !! job = Some sj →
  let t := nextTimer (rt w) in
  let dev := sj_identity sj in
  let device :=
    (λ sig, JObj [ ("id", JStr (DeviceIdentity.deviceId dev));
                   ("publicKey", JStr (DeviceIdentity.publicKey dev));
                   ("signature", JStr sig);
                   ("signedAt", JNum (sj_signedAtMs sj));
                   ("nonce", JStr (sj_nonce sj)) ]) <$> signature in
  step env (SignSettled job signature) w
  = {| this :=
         set_pending
           (<[randomUUID env := {| awaiter := SendConnect true;
                                   timer := Some t |}]> (pending (this w)))
           (this w);
       rt :=
         set_trace
           (trace (rt w)
            ++ match signature with
               | Some _ => []
               | None =>
                 [console_error "[OpenClaw WS] Failed to sign device auth:"]
               end
            ++ [ws_send sock
                  {| req_id := randomUUID env; req_method := "connect";
                     req_params :=
                       connectParams (sj_resolvedToken sj)
                         (sj_storedDeviceToken sj) device |}])
           (set_nextTimer (S t)
              (set_timers
                 (<[t := {| callback := RpcTimeout (randomUUID env) "connect"
                                          15000 (SendConnect true);
                            delay := 15000; repeating := false |}]>
                    (timers (rt w)))
                 (set_signJobs (delete job (signJobs (rt w))) (rt w)))) |}.
Proof.
  intros Hmt Hws Hsock Hjob t dev device. subst t dev device.
  rewrite step_unfold.
  open_world w. subst. unfold exec at 2. cbn [dispatch]. mrun.
  rewrite Hjob. unfold sendConnect_signed, sendConnect_request, request.
  destruct signature as [sig|]; mrun; rewrite Hsock; mrun;
    unfold exec; rewrite runMicrotasks_nil by done; cbn [snd fmap option_fmap
      option_map app]; by rewrite <- ?app_assoc.
Qed.

(** A challenge without a usable nonce. *)
Lemma challenge_without_nonce env w sock :
  sockets (rt w) !! sock = Some OPEN →
  exec (dispatch env (WsMessage sock (Some (challengeFrame "")))) w
  = exec (ws_close_opt (Some 3008)
            (Some "missing nonce in connect challenge")) w.
Proof. intros Hsock. by rewrite message_dispatch, challenge_frame. Qed.

(** A challenge that sends nothing: the connect call was sent already, or
    the nonce is blank. *)
Lemma challenge_step_idle env w sock nonce :
  microtasks (rt w) = [] →
  sockets (rt w) !! sock = Some OPEN →
  nonce ≠ "" →
  connectSent (this w) = true ∨ Str.trim nonce = "" →
  step env (WsMessage sock (Some (challengeFrame nonce))) w
  = {| this := set_connectNonce (Some (Str.trim nonce)) (this w);
       rt := rt w |}.
Proof.
  intros Hmt Hsock Hne Hidle.
  rewrite step_unfold, message_dispatch, challenge_frame by done.
  apply String.eqb_neq in Hne. rewrite Hne.
  open_world w. subst. unfold exec at 2, sendConnect. mrun.
  destruct Hidle as [-> | ->]; [| destruct sent0]; mrun;
    unfold exec; by rewrite runMicrotasks_nil.
Qed.

(** X11.  The connect call.  A challenge with a nonce that is not blank,
    on a connection whose connect call was not sent, marks it as sent and
    disarms the connect timeout.  Without device identity the client sends,
    in that turn, one request "connect" whose params carry no device block.
    With a device identity it hands to [signPayload] the text
    "v2|deviceId|webchat-ui|webchat|operator|operator.read,operator.write|
    now|token|nonce" and sends nothing yet; when the signature arrives it
    sends one request "connect" with the device block made of the identity's
    id and public key, the signature, the signing time and the nonce; when
    signing fails it logs the failure and sends the request without device
    block.  A challenge that arrives once the connect call was sent, or whose
    nonce is blank, sends nothing. *)
Theorem connect_call :
  (∀ env w sock nonce,
     microtasks (rt w) = [] → ws (this w) = Some sock →
     sockets (rt w) !! sock = Some OPEN →
     connectSent (this w) = false → getDeviceIdentity env = None →
     Str.trim nonce ≠ "" →
     let w1 := step env (WsMessage sock (Some (challengeFrame nonce))) w in
     connectSent (this w1) = true
     ∧ connectTimer (this w1) = None
     ∧ timers (rt w1)
       = <[nextTimer (rt w) :=
             {| callback := RpcTimeout (randomUUID env) "connect" 15000
                              (SendConnect false);
                delay := 15000; repeating := false |}]>
           (disarm (connectTimer (this w)) (timers (rt w)))
     ∧ trace (rt w1)
       = (trace (rt w)
          ++ [ws_send sock
                {| req_id := randomUUID env; req_method := "connect";
                   req_params :=
                     connectParams
                       (resolveToken (getToken env) (getDeviceAuthToken env))
                       (getDeviceAuthToken env) None |}])%list
     ∧ pending (this w1) !! randomUUID env
       = Some {| awaiter := SendConnect false;
                 timer := Some (nextTimer (rt w)) |})
  ∧ (∀ env1 env2 w sock nonce dev signature,
       microtasks (rt w) = [] → ws (this w) = Some sock →
       sockets (rt w) !! sock = Some OPEN →
       connectSent (this w) = false → getDeviceIdentity env1 = Some dev →
       Str.trim nonce ≠ "" →
       let token := resolveToken (getToken env1) (getDeviceAuthToken env1) in
       let w1 := step env1 (WsMessage sock (Some (challengeFrame nonce))) w in
       let w2 := step env2 (SignSettled (nextJob (rt w)) signature) w1 in
       let device :=
         (λ sig, JObj [ ("id", JStr (DeviceIdentity.deviceId dev));
                        ("publicKey", JStr (DeviceIdentity.publicKey dev));
                        ("signature", JStr sig);
                        ("signedAt", JNum (now env1));
                        ("nonce", JStr (Str.trim nonce)) ]) <$> signature in
       connectSent (this w1) = true
       ∧ trace (rt w1) = trace (rt w)
       ∧ sj_payload <$> signJobs (rt w1) !! nextJob (rt w)
         = Some ("v2|" +:+ DeviceIdentity.deviceId dev
                 +:+ "|webchat-ui|webchat|operator|operator.read,operator.write|"
                 +:+ Str.of_number (now env1) +:+ "|" +:+ default "" token
                 +:+ "|" +:+ Str.trim nonce)
       ∧ trace (rt w2)
         = (trace (rt w)
            ++ match signature with
               | Some _ => []
               | None =>
                 [console_error "[OpenClaw WS] Failed to sign device auth:"]
               end
            ++ [ws_send sock
                  {| req_id := randomUUID env2; req_method := "connect";
                     req_params :=
                       connectParams token (getDeviceAuthToken env1)
                                     device |}])%list)
  ∧ (∀ env w sock nonce,
       microtasks (rt w) = [] →
       sockets (rt w) !! sock = Some OPEN →
       nonce ≠ "" →
       connectSent (this w) = true ∨ Str.trim nonce = "" →
       step env (WsMessage sock (Some (challengeFrame nonce))) w
       = {| this := set_connectNonce (Some (Str.trim nonce)) (this w);
            rt := rt w |}).
Proof.
  split_and!.
  - intros env w sock nonce Hmt Hws Hsock Hsent Hid Hnonce w1. subst w1.
    rewrite challenge_step by done. cbn. split_and!; try done.
    apply lookup_insert_eq.
  - intros env1 env2 w sock nonce dev signature Hmt Hws Hsock Hsent Hid
      Hnonce token w1 w2 device.
    assert (H1 := challenge_step_identity env1 w sock nonce dev
                    Hmt Hsock Hsent Hid Hnonce).
    cbv zeta in H1. fold w1 token in H1.
    assert (H2 := sign_settled_step env2 w1 sock (nextJob (rt w))
                    (Build_SignJob (Str.trim nonce) token dev
                       (getDeviceAuthToken env1) (now env1)
                       (DeviceIdentity.buildDeviceAuthPayload
                          {| DeviceIdentity.ap_deviceId :=
                               DeviceIdentity.deviceId dev;
                             DeviceIdentity.ap_clientId := "webchat-ui";
                             DeviceIdentity.ap_clientMode := "webchat";
                             DeviceIdentity.ap_role := "operator";
                             DeviceIdentity.ap_scopes :=
                               ["operator.read"; "operator.write"];
                             DeviceIdentity.ap_signedAtMs := now env1;
                             DeviceIdentity.ap_token := token;
                             DeviceIdentity.ap_nonce := Str.trim nonce |}))
                    signature).
    cbv zeta in H2. fold w2 in H2.
    rewrite H1 in H2. cbn in H2. rewrite lookup_insert_eq in H2.
    specialize (H2 Hmt Hws Hsock eq_refl).
    split_and!.
    + by rewrite H1.
    + by rewrite H1.
    + rewrite H1. cbn. by rewrite lookup_insert_eq.
    + by rewrite H2.
  - exact challenge_step_idle.
Qed.

Lemma connect_call_witness :
  let dev := {| DeviceIdentity.version := 1;
                DeviceIdentity.deviceId := "79656b";
                DeviceIdentity.publicKey := "a2V5";
                DeviceIdentity.privateKey := "c2VlZA";
                DeviceIdentity.createdAtMs := 1700000000000 |} in
  let env := {| now := 1700000000500; randomUUID := "uuid-1";
                webSocketThrows := false;
                getUrl := "http://localhost:18789/";
                getToken := "operator-token";
                getDeviceIdentity := Some dev;
                getDeviceAuthToken := None |} in
  let w := run [ (env, Start); (env, WsOpen 1) ] new_World in
  let w1 := step env (WsMessage 1 (Some (challengeFrame " nonce-1 "))) w in
  let w2 := step env (SignSettled 1 (Some "c2ln")) w1 in
  sj_payload <$> signJobs (rt w1) !! 1%nat
  = Some "v2|79656b|webchat-ui|webchat|operator|operator.read,operator.write|1700000000500|operator-token|nonce-1"
  ∧ timers (rt w1) = ∅
  ∧ last (trace (rt w2))
    = Some (ws_send 1
              {| req_id := "uuid-1"; req_method := "connect";
                 req_params :=
                   connectParams (Some "operator-token") None
                     (Some (JObj [ ("id", JStr "79656b");
                                   ("publicKey", JStr "a2V5");
                                   ("signature", JStr "c2ln");
                                   ("signedAt", JNum 1700000000500);
                                   ("nonce", JStr "nonce-1") ])) |}).
Proof.
  intros dev env w w1 w2.
  destruct connect_call as (_ & Hid & _).
  assert (Hmt : microtasks (rt w) = []) by (by vm_compute).
  assert (Hws : ws (this w) = Some 1%nat) by (by vm_compute).
  assert (Hsock : sockets (rt w) !! 1%nat = Some OPEN) by (by vm_compute).
  assert (Hsent : connectSent (this w) = false) by (by vm_compute).
  assert (Hnonce : Str.trim " nonce-1 " ≠ "") by (by vm_compute).
  assert (Hjob : nextJob (rt w) = 1%nat) by (by vm_compute).
  destruct (Hid env env w 1%nat " nonce-1 " dev (Some "c2ln")
              Hmt Hws Hsock Hsent eq_refl Hnonce)
    as (_ & _ & Hpayload & Htrace).
  rewrite Hjob in Hpayload, Htrace.
  split_and!.
  - unfold w1. rewrite Hpayload. by vm_compute.
  - by vm_compute.
  - unfold w2, w1. rewrite Htrace. cbn [app]. apply last_snoc.
Defined.

(** *** When the challenge does not come *)

(** The turn in which a socket opens. *)
Lemma open_step env w sock :
  microtasks (rt w) = [] →
  sockets (rt w) !! sock = Some CONNECTING →
  let t := nextTimer (rt w) in
  step env (WsOpen sock) w
  = {| this := set_connectTimer (Some t)
                 (set_state authenticating (this w));
       rt := set_nextTimer (S t)
               (set_timers
                  (<[t := {| callback := ConnectTimeout; delay := 5000;
                             repeating := false |}]>
                     (disarm (connectTimer (this w)) (timers (rt w))))
                  (set_trace
                     (trace (rt w)
                      ++ stateChange (state (this w)) authenticating)
                     (set_sockets (<[sock := OPEN]> (sockets (rt w)))
                                  (rt w)))) |}.
Proof.
  intros Hmt Hsock t. subst t. rewrite step_unfold.
  open_world w. subst. unfold exec at 2. cbn [dispatch]. mrun.
  rewrite Hsock. rewrite bool_decide_eq_true_2 by done.
  unfold onopen. mrun. rewrite setState_spec. unfold queueConnectTimeout.
  destruct ct0 as [t0|]; mrun; unfold exec; by rewrite runMicrotasks_nil.
Qed.

(** The turn in which the connect timeout fires. *)
Lemma connect_timeout_step env w t d :
  microtasks (rt w) = [] →
  timers (rt w) !! t
  = Some {| callback := ConnectTimeout; delay := d; repeating := false |} →
  let r1 := set_timers (delete t (timers (rt w))) (rt w) in
  step env (TimerFired t) w
  = {| this := this w;
       rt := if negb (connectSent (this w))
                && bool_decide ((s ← ws (this w); sockets (rt w) !! s)
                                = Some OPEN)
             then closing (ws (this w)) 3008 "connect challenge timeout" r1
             else r1 |}.
Proof.
  intros Hmt Ht r1. subst r1. rewrite step_unfold.
  open_world w. subst. unfold exec at 2. cbn [dispatch]. mrun.
  rewrite Ht. mrun. cbn [runTimer]. unfold connectTimeout. mrun.
  destruct sent0, ws0 as [sock|]; cbn [negb andb mbind option_bind];
    try (unfold exec; by rewrite runMicrotasks_nil).
  destruct (bool_decide (socks0 !! sock = Some OPEN)); mrun;
    unfold exec; by rewrite runMicrotasks_nil.
Qed.

Lemma challenge_missing_nonce env payload :
  asString (oprop "nonce" payload) = None
  ∨ asString (oprop "nonce" payload) = Some "" →
  handleEvent env "connect.challenge" payload
  = ws_close_opt (Some 3008) (Some "missing nonce in connect challenge").
Proof. intros [H | H]; unfold handleEvent; by rewrite H. Qed.

Lemma close_current env w sock code reason :
  microtasks (rt w) = [] →
  ws (this w) = Some sock →
  sockets (rt w) !! sock = Some OPEN →
  exec (runMicrotasks env)
       (exec (ws_close_opt (Some code) (Some reason)) w)
  = {| this := this w; rt := closing (Some sock) code reason (rt w) |}.
Proof.
  intros Hmt Hws Hsock. open_world w. subst. unfold closing. mrun.
  by rewrite runMicrotasks_nil.
Qed.

(** X12.  When the challenge does not come, or is unusable.  The open
    event of a socket puts the client into authenticating and arms the
    connect timeout of 5000 ms.  If that timeout fires while the connect call
    was not sent and the socket is open, the socket is closed with code 3008;
    its close event then puts the client into reconnecting, with a reconnect
    after the current backoff.  A challenge whose payload has no nonce, or an
    empty one, closes the socket with code 3008 at once. *)
Theorem challenge_timeout :
  (∀ env1 env2 env3 w sock,
     microtasks (rt w) = [] → closed (this w) = false →
     ws (this w) = Some sock →
     sockets (rt w) !! sock = Some CONNECTING →
     connectSent (this w) = false →
     let t := nextTimer (rt w) in
     let w1 := step env1 (WsOpen sock) w in
     let w2 := step env2 (TimerFired t) w1 in
     let w3 := step env3 (WsClosed sock) w2 in
     (state (this w1) = authenticating
      ∧ connectTimer (this w1) = Some t
      ∧ timers (rt w1) !! t
        = Some {| callback := ConnectTimeout; delay := 5000;
                  repeating := false |})
     ∧ (this w2 = this w1
        ∧ trace (rt w2)
          = (trace (rt w1)
             ++ [ws_close sock (Some 3008)
                          (Some "connect challenge timeout")])%list
        ∧ sockets (rt w2) !! sock = Some CLOSING
        ∧ timers (rt w2) !! t = None)
     ∧ (state (this w3) = reconnecting
        ∧ ws (this w3) = None
        ∧ ∃ t', reconnectTimer (this w3) = Some t'
                ∧ timers (rt w3) !! t'
                  = Some {| callback := Reconnect;
                            delay := backoffMs (this w);
                            repeating := false |}))
  ∧ (∀ env w sock payload,
       microtasks (rt w) = [] → ws (this w) = Some sock →
       sockets (rt w) !! sock = Some OPEN →
       asString (oprop "nonce" payload) = None
       ∨ asString (oprop "nonce" payload) = Some "" →
       step env
         (WsMessage sock
            (Some (JObj (("event", JStr "connect.challenge")
                         :: field "payload" payload)))) w
       = {| this := this w;
            rt := closing (Some sock) 3008
                    "missing nonce in connect challenge" (rt w) |}).
Proof.
  split.
  - intros env1 env2 env3 w sock Hmt Hcl Hws Hsock Hsent t w1 w2 w3.
    assert (H1 := open_step env1 w sock Hmt Hsock).
    cbv zeta in H1. fold t w1 in H1.
    assert (H2 := connect_timeout_step env2 w1 t 5000).
    cbv zeta in H2. fold w2 in H2. rewrite H1 in H2.
    cbn [this rt set_connectTimer set_state set_nextTimer set_timers
         set_trace set_sockets microtasks timers connectSent ws sockets
         mbind option_bind] in H2.
    rewrite !lookup_insert_eq, Hsent, Hws in H2.
    cbn [mbind option_bind negb andb] in H2.
    rewrite lookup_insert_eq in H2.
    rewrite bool_decide_eq_true_2 in H2 by done.
    specialize (H2 Hmt eq_refl).
    assert (H3 : w3 = after_close (this w2) (rt w2) sock).
    { apply (close_event_step env3 w2 sock CLOSING).
      - rewrite H2. unfold closing. by rewrite ?Hws.
      - rewrite H2. unfold closing. rewrite ?Hws. cbn.
        rewrite (alter_known _ _ _ OPEN) by apply lookup_insert_eq.
        apply lookup_insert_eq.
      - done.
      - by rewrite H2. }
    split_and!.
    + by rewrite H1.
    + by rewrite H1.
    + rewrite H1. cbn. apply lookup_insert_eq.
    + by rewrite H2, H1.
    + rewrite H2, H1. unfold closing. by rewrite ?Hws.
    + rewrite H2. unfold closing. rewrite ?Hws. cbn.
      rewrite (alter_known _ _ _ OPEN) by apply lookup_insert_eq.
      apply lookup_insert_eq.
    + rewrite H2. unfold closing. rewrite ?Hws. cbn. apply lookup_delete_eq.
    + by rewrite H3.
    + by rewrite H3.
    + rewrite H3. unfold after_close. cbn [this rt reconnectTimer timers].
      eexists. split; [reflexivity |].
      rewrite lookup_insert_eq. rewrite H2. unfold closing. by cbn.
  - intros env w sock payload Hmt Hws Hsock Hnonce.
    rewrite step_unfold, message_dispatch by done.
    assert (Hframe :
      handleMessage env
        (Some (JObj (("event", JStr "connect.challenge")
                     :: field "payload" payload)))
      = handleEvent env "connect.challenge" payload)
      by (by destruct payload).
    rewrite Hframe, challenge_missing_nonce by done.
    by apply close_current.
Qed.

Lemma challenge_timeout_witness :
  let w := run [ (localEnv, Start) ] new_World in
  let w1 := step localEnv (WsOpen 1) w in
  let w2 := step localEnv (TimerFired 1) w1 in
  let w3 := step localEnv (WsClosed 1) w2 in
  trace (rt w3)
  = [ onStateChange connecting; ws_new 1 "ws://localhost:18789";
      onStateChange authenticating;
      ws_close 1 (Some 3008) (Some "connect challenge timeout");
      onStateChange reconnecting ]
  ∧ state (this w3) = reconnecting.
Proof.
  intros w w1 w2 w3.
  destruct challenge_timeout as [Hto _].
  assert (Hmt : microtasks (rt w) = []) by (by vm_compute).
  assert (Hnt : nextTimer (rt w) = 1%nat) by (by vm_compute).
  destruct (Hto localEnv localEnv localEnv w 1%nat Hmt eq_refl eq_refl
              eq_refl eq_refl) as (_ & _ & Hst & _).
  rewrite Hnt in Hst.
  split; [by vm_compute | exact Hst].
Defined.


(** *** A connect call that fails *)

(** The turn in which a refusal of the connect call arrives that does not
    ask for pairing. *)
Lemma connect_refused_step env w sock id h t code message :
  microtasks (rt w) = [] →
  ws (this w) = Some sock →
  sockets (rt w) !! sock = Some OPEN →
  pending (this w) = {[ id := {| awaiter := SendConnect h; timer := Some t |} ]} →
  isPairingRequired message code = false →
  step env (WsMessage sock (Some (errorResponse id code message))) w
  = {| this := set_pending ∅ (this w);
       rt := set_sockets (<[sock := CLOSING]> (sockets (rt w)))
               (set_trace
                  (trace (rt w)
                   ++ [reject id message code; onConnectError message;
                       ws_close sock (Some 3008) (Some "connect failed")])
                  (set_timers (delete t (timers (rt w))) (rt w))) |}.
Proof.
  intros Hmt Hws Hsock Hp Hpair. rewrite step_unfold.
  assert (Hframe :
    handleMessage env (Some (errorResponse id code message))
    = handleResponse id false None
        (Some (JObj (field "code" (JStr <$> code)
                     ++ [("message", JStr message)])%list))) by reflexivity.
  open_world w. subst. unfold exec at 2. cbn [dispatch].
  mrun. rewrite Hsock. rewrite bool_decide_eq_true_2 by done.
  rewrite Hframe. unfold handleResponse. mrun.
  rewrite lookup_singleton_eq, delete_singleton_eq, error_message, error_code.
  mrun. unfold exec, runMicrotasks. mrun.
  change (default "unknown gateway error" (Some message)) with message.
  cbn [app forEach]. mrun.
  unfold runMicrotask, sendConnect_settled. cbn [fst snd]. rewrite Hpair.
  mrun.
  rewrite (alter_known _ _ _ OPEN) by done. by rewrite <- !app_assoc.
Qed.

(** X13.  A connect call that the gateway refuses for another reason than
    pairing: the call is rejected, [onConnectError] gets the gateway's
    message, the pairing notification is not invoked, the state is left as it
    is and the socket is closed with code 3008.  The close event of the
    socket then makes the client retry: it moves to reconnecting, arms the
    reconnect timer with the current backoff and doubles the backoff, up to
    30000 ms. *)
Theorem connect_failure_retried env1 env2 w sock id h t code message :
  microtasks (rt w) = [] →
  closed (this w) = false →
  ws (this w) = Some sock →
  sockets (rt w) !! sock = Some OPEN →
  pending (this w)
  = {[ id := {| awaiter := SendConnect h; timer := Some t |} ]} →
  isPairingRequired message code = false →
  let w1 := step env1 (WsMessage sock (Some (errorResponse id code message)))
                 w in
  let w2 := step env2 (WsClosed sock) w1 in
  (state (this w1) = state (this w)
   ∧ trace (rt w1)
     = (trace (rt w)
        ++ [reject id message code; onConnectError message;
            ws_close sock (Some 3008) (Some "connect failed")])%list
   ∧ sockets (rt w1) !! sock = Some CLOSING
   ∧ timers (rt w1) = delete t (timers (rt w)))
  ∧ (state (this w2) = reconnecting
     ∧ trace (rt w2)
       = (trace (rt w1) ++ stateChange (state (this w)) reconnecting)%list
     ∧ reconnectTimer (this w2) = Some (nextTimer (rt w))
     ∧ timers (rt w2) !! nextTimer (rt w)
       = Some {| callback := Reconnect; delay := backoffMs (this w);
                 repeating := false |}
     ∧ backoffMs (this w2) = Z.min (backoffMs (this w) * 2) 30000).
Proof.
  intros Hmt Hcl Hws Hsock Hp Hpair w1 w2.
  assert (H1 := connect_refused_step env1 w sock id h t code message
                  Hmt Hws Hsock Hp Hpair).
  fold w1 in H1.
  assert (H2 : w2 = after_close (this w1) (rt w1) sock).
  { apply (close_event_step env2 w1 sock CLOSING); try rewrite H1; cbn;
      [done | apply lookup_insert_eq | done | done]. }
  split.
  - rewrite H1. cbn. split_and!; try done. apply lookup_insert_eq.
  - rewrite H2, H1. cbn. rewrite map_to_list_empty, Hmt. cbn.
    rewrite !app_nil_r, lookup_insert_eq. done.
Qed.

Lemma connect_failure_retried_witness :
  let refusal := errorResponse "uuid-1" (Some "UNAUTHORIZED")
                               "invalid token" in
  let w := run [ (localEnv, Start); (localEnv, WsOpen 1);
                 (localEnv, WsMessage 1 (Some (challengeFrame "nonce-1"))) ]
               new_World in
  let w1 := step localEnv (WsMessage 1 (Some refusal)) w in
  let w2 := step localEnv (WsClosed 1) w1 in
  notifications (trace (rt w2)) = [connecting; authenticating; reconnecting]
  ∧ onConnectError "invalid token" ∈ trace (rt w1)
  ∧ reconnectTimer (this w2) = Some 3%nat
  ∧ backoffMs (this w2) = 2000.
Proof.
  intros refusal w w1 w2.
  assert (Hmt : microtasks (rt w) = []) by (by vm_compute).
  assert (Hsock : sockets (rt w) !! 1%nat = Some OPEN) by (by vm_compute).
  assert (Hp : pending (this w)
               = {[ "uuid-1" := {| awaiter := SendConnect false;
                                   timer := Some 2%nat |} ]})
    by (by vm_compute).
  assert (Hcl : closed (this w) = false) by (by vm_compute).
  assert (Hws : ws (this w) = Some 1%nat) by (by vm_compute).
  assert (Hnp : isPairingRequired "invalid token" (Some "UNAUTHORIZED")
                = false) by (by vm_compute).
  assert (Hnt : nextTimer (rt w) = 3%nat) by (by vm_compute).
  assert (Hbo : backoffMs (this w) = 1000) by (by vm_compute).
  destruct (connect_failure_retried localEnv localEnv w 1%nat "uuid-1" false
              2%nat (Some "UNAUTHORIZED") "invalid token"
              Hmt Hcl Hws Hsock Hp Hnp)
    as ((_ & Htr & _) & (_ & _ & Hrc & _ & Hbo2)).
  rewrite Hnt in Hrc. rewrite Hbo in Hbo2.
  split_and!.
  - by vm_compute.
  - unfold w1, refusal. rewrite Htr.
    apply elem_of_app. right. apply elem_of_cons. right.
    apply elem_of_cons. by left.
  - exact Hrc.
  - exact Hbo2.
Defined.

(** *** A connect call that succeeds *)

Lemma sendConnect_settled_trace env hasIdentity helloOk w :
  trace (rt (exec (sendConnect_settled env hasIdentity (Resolved helloOk)) w))
  = (trace (rt w) ++ tokenNotice env hasIdentity helloOk
     ++ stateChange (state (this w)) connected)%list.
Proof.
  open_world w. unfold sendConnect_settled, tokenNotice, stateChange.
  unfold startTickWatch, setState. mexec;
    rewrite <- ?app_assoc, ?app_nil_r; try done.
Qed.

(** The turn in which the hello-ok response arrives. *)
Lemma hello_step env w sock id h t payload :
  microtasks (rt w) = [] →
  sockets (rt w) !! sock = Some OPEN →
  pending (this w)
  = {[ id := {| awaiter := SendConnect h; timer := Some t |} ]} →
  step env (WsMessage sock (Some (okResponse id payload))) w
  = exec (sendConnect_settled env h (Resolved (Some payload)))
      {| this := set_pending ∅ (this w);
         rt := set_trace (trace (rt w) ++ [resolve id (Some payload)])
                 (set_timers (delete t (timers (rt w))) (rt w)) |}.
Proof.
  intros Hmt Hsock Hp.
  rewrite step_unfold, message_dispatch, okResponse_frame by done.
  rewrite (handleResponse_resolves w id
             {| awaiter := SendConnect h; timer := Some t |});
    [| rewrite Hp; apply lookup_singleton_eq].
  unfold settled_world. open_world w. subst.
  rewrite delete_singleton_eq. unfold exec, runMicrotasks. mrun.
  cbn [app forEach disarm]. unfold runMicrotask. cbn [fst snd].
  unfold mbind, M_bind.
  by destruct (sendConnect_settled env h (Resolved (Some payload)) _)
    as [[] ?].
Qed.

(** X14.  A connect call that succeeds.  When the hello-ok response to the
    pending connect call arrives, the call is resolved, the backoff is back
    at 1000 ms and the client is connected.  If the payload carries a device
    token and the client has a device identity, [onDeviceTokenReceived] is
    invoked once, before the state change is notified, with the token, the
    role and scopes of the payload, or "operator" and the two operator
    scopes where the payload has none, and the time of arrival.  A client
    without device identity never invokes it. *)
Theorem connect_success env w sock id h t payload :
  microtasks (rt w) = [] →
  sockets (rt w) !! sock = Some OPEN →
  pending (this w)
  = {[ id := {| awaiter := SendConnect h; timer := Some t |} ]} →
  let w1 := step env (WsMessage sock (Some (okResponse id payload))) w in
  state (this w1) = connected
  ∧ backoffMs (this w1) = 1000
  ∧ pending (this w1) = ∅
  ∧ trace (rt w1)
    = (trace (rt w) ++ [resolve id (Some payload)]
       ++ tokenNotice env h (Some payload)
       ++ stateChange (state (this w)) connected)%list
  ∧ (h = false → tokenNotice env h (Some payload) = [])
  ∧ (h = true → ∀ token,
       prop "auth" payload = Some (JObj [("deviceToken", JStr token)]) →
       token ≠ "" →
       tokenNotice env h (Some payload)
       = [onDeviceTokenReceived (JStr token) (JStr "operator")
            (JArr [JStr "operator.read"; JStr "operator.write"]) (now env)]).
Proof.
  intros Hmt Hsock Hp w1. subst w1.
  rewrite (hello_step env w sock id h t payload) by done.
  set (w0 := {| this := set_pending ∅ (this w); rt := _ |}).
  destruct (sendConnect_resolved env h (Some payload) w0)
    as (Hbo & Hst & _).
  split_and!.
  - exact Hst.
  - exact Hbo.
  - subst w0. open_world w. unfold sendConnect_settled.
    unfold startTickWatch, setState. by mexec.
  - rewrite sendConnect_settled_trace. subst w0. cbn.
    by rewrite <- !app_assoc.
  - intros ->. unfold tokenNotice. by rewrite andb_false_r.
  - intros -> token Hauth Htoken. unfold tokenNotice. cbn [oprop].
    rewrite Hauth. cbn. apply String.eqb_neq in Htoken. by rewrite Htoken.
Qed.

Lemma connect_success_witness :
  let hello := JObj [ ("auth", JObj [("deviceToken", JStr "dt-1")]);
                      ("policy", JObj [("tickIntervalMs", JNum 15000)]) ] in
  let w := {| this := set_pending
                        {[ "uuid-1" := {| awaiter := SendConnect true;
                                          timer := Some 2%nat |} ]}
                        (set_state authenticating
                           (set_ws (Some 1%nat) new_Client));
              rt := set_sockets {[ 1%nat := OPEN ]} new_Runtime |} in
  trace (rt (step localEnv (WsMessage 1 (Some (okResponse "uuid-1" hello))) w))
  = [ resolve "uuid-1" (Some hello);
      onDeviceTokenReceived (JStr "dt-1") (JStr "operator")
        (JArr [JStr "operator.read"; JStr "operator.write"]) 1700000000000;
      onStateChange connected ].
Proof.
  intros hello w.
  destruct (connect_success localEnv w 1%nat "uuid-1" true 2%nat hello)
    as (_ & _ & _ & Htr & _ & Htok); [done | done | done |].
  rewrite Htr, (Htok eq_refl "dt-1"); done.
Defined.

(** *** Frames that do not concern the connection *)

Lemma not_response obj :
  (∀ id ok, ¬ (prop "id" obj = Some (JStr id)
               ∧ prop "ok" obj = Some (JBool ok))) →
  match prop "id" obj, prop "ok" obj with
  | Some (JStr id), Some (JBool ok) =>
    handleResponse id ok (prop "payload" obj) (prop "error" obj)
  | _, _ => pass
  end = pass.
Proof.
  intros H.
  destruct (prop "id" obj) as [[| | | id | |]|]; try done.
  destruct (prop "ok" obj) as [[| ok | | | |]|]; try done.
  by destruct (H id ok).
Qed.

(** X15.  A frame that is neither a connect challenge, nor a tick, nor a
    response (one that could not be parsed, an event of another name, an
    object without event name and without id and ok) changes no field of
    the client, no timer and no socket; a chat event with a payload is
    handed to [onChatEvent] as it came, and no other such frame has any
    effect. *)
Theorem other_frames env w parsed :
  other_frame parsed →
  let w' := exec (handleMessage env parsed) w in
  this w' = this w
  ∧ timers (rt w') = timers (rt w)
  ∧ sockets (rt w') = sockets (rt w)
  ∧ microtasks (rt w') = microtasks (rt w)
  ∧ (trace (rt w') = trace (rt w)
     ∨ ∃ obj payload,
         parsed = Some obj ∧ prop "event" obj = Some (JStr "chat")
         ∧ prop "payload" obj = Some payload
         ∧ trace (rt w') = (trace (rt w) ++ [onChatEvent payload])%list)
  ∧ (∀ payload, truthy (Some payload) = true →
       parsed = Some (chatFrame payload) →
       trace (rt w') = (trace (rt w) ++ [onChatEvent payload])%list).
Proof.
  intros Hother w'. subst w'.
  assert (Hidle : exec (handleMessage env parsed) w = w →
    this (exec (handleMessage env parsed) w) = this w
    ∧ timers (rt (exec (handleMessage env parsed) w)) = timers (rt w)
    ∧ sockets (rt (exec (handleMessage env parsed) w)) = sockets (rt w)
    ∧ microtasks (rt (exec (handleMessage env parsed) w))
      = microtasks (rt w)
    ∧ (trace (rt (exec (handleMessage env parsed) w)) = trace (rt w)
       ∨ ∃ obj payload,
           parsed = Some obj ∧ prop "event" obj = Some (JStr "chat")
           ∧ prop "payload" obj = Some payload
           ∧ trace (rt (exec (handleMessage env parsed) w))
             = (trace (rt w) ++ [onChatEvent payload])%list)).
  { intros ->. split_and!; try done. by left. }
  destruct parsed as [obj|];
    [| split_and!; try apply Hidle; try done; by intros ? ? [=] ].
  cbn in Hother. unfold handleMessage in *.
  destruct (prop "event" obj) as [ev|] eqn:Hev.
  2: { rewrite (not_response obj) in * by done.
       split_and!; try apply Hidle; try done.
       intros payload _ [= ->]. by cbn in Hev. }
  destruct ev as [| b | n | event | items | fields];
    try (rewrite (not_response obj) in * by done;
         split_and!; try apply Hidle; try done;
         intros payload _ [= ->]; by cbn in Hev).
  destruct Hother as [Hc Ht]. unfold handleEvent in *.
  apply String.eqb_neq in Hc, Ht. rewrite Hc, Ht in *.
  destruct (String.eqb_spec event "chat") as [-> | Hchat].
  2: { split_and!; try apply Hidle; try done.
       intros payload _ [= ->]. cbn in Hev. by injection Hev as <-. }
  destruct (prop "payload" obj) as [p|] eqn:Hp.
  2: { split_and!; try apply Hidle; try done.
       intros payload _ [= ->]. by cbn in Hp. }
  destruct (truthy (Some p)) eqn:Htruthy.
  - clear Hidle. open_world w. split_and!; try done.
    + right. by exists obj, p.
    + intros payload _ [= ->]. cbn in Hp. by injection Hp as ->.
  - split_and!; try apply Hidle; try done.
    intros payload Hpay [= ->]. cbn in Hp. injection Hp as ->. congruence.
Qed.

Lemma other_frames_witness :
  let payload := JObj [("runId", JStr "run-1")] in
  let w := run [(localEnv, Start); (localEnv, WsOpen 1)] new_World in
  let w' := exec (handleMessage localEnv (Some (chatFrame payload))) w in
  this w' = this w
  ∧ trace (rt w') = (trace (rt w) ++ [onChatEvent payload])%list.
Proof.
  intros payload w w'.
  destruct (other_frames localEnv w (Some (chatFrame payload)))
    as (Hthis & _ & _ & _ & _ & Hchat); [by split |].
  split; [exact Hthis | by apply Hchat].
Defined.

End WsGatewayClientTurnsFacts.

(** ** The reconnect backoff over connection failures *)

Module WsGatewayClientBackoffFacts.
Import WsGatewayClient WsGatewayClientSpec WsGatewayClientBackoff.
Import StrFacts WsGatewayClientFacts WsGatewayClientTurnsFacts.








End WsGatewayClientBackoffFacts.
